(** * CleanForce: the field-reference removal engine, its backup store and
      its history log, embedded from the TypeScript sources.

    Layout of the development:
    - [JsString]: JavaScript strings as sequences of UTF-16 code units and
      the string methods the sources call;
    - [Regex]: the fragment of ECMAScript regular expressions the sources
      use: pattern text is parsed to a syntax tree, which a backtracking
      matcher runs;
    - [Security]: [escapeRegex] and [sanitizeApiName] (utils/security);
    - [Workspace]: paths, the file store, the configuration and the clock;
    - [BackupManager], [HistoryManager], [FieldRemover], [FlexiPageCleaner]:
      the classes of the same names;
    - the properties, one section per component. *)

From Stdlib Require Import NArith ZArith List Bool Ascii String Lia.
From stdpp Require Import base option list gmap strings.

Local Open Scope N_scope.

(** ** JavaScript strings *)

Module JsString.

(** A string is the list of its UTF-16 code units. *)
Abbreviation str := (list N).

(** A literal of the source text. *)
Definition lit (s : string) : str :=
  map (fun a => N_of_ascii a) (list_ascii_of_string s).

Definition ch (a : ascii) : N := N_of_ascii a.

Definition str_eqb (a b : str) : bool := bool_decide (a = b).

(** [s.startsWith(p)] *)
Fixpoint starts_with (p s : str) : bool :=
  match p, s with
  | [], _ => true
  | _ :: _, [] => false
  | a :: p', b :: s' => (a =? b) && starts_with p' s'
  end.

(** [s.indexOf(p)], [None] for [-1]. *)
Fixpoint indexOf (p s : str) : option nat :=
  if starts_with p s then Some O
  else match s with
       | [] => None
       | _ :: s' => S <$> indexOf p s'
       end.

(** [s.includes(p)] *)
Definition includes (p s : str) : bool :=
  match indexOf p s with Some _ => true | None => false end.

(** White space and line terminators: what [\s] matches and [trim] strips. *)
Definition is_space (c : N) : bool :=
  existsb (N.eqb c)
    [9; 10; 11; 12; 13; 32; 160; 5760; 8232; 8233; 8239; 8287; 12288; 65279]
  || ((8192 <=? c) && (c <=? 8202)).

Fixpoint trimStart (s : str) : str :=
  match s with
  | c :: s' => if is_space c then trimStart s' else s
  | [] => []
  end.

Definition trimEnd (s : str) : str := rev (trimStart (rev s)).

(** [s.trim()] *)
Definition trim (s : str) : str := trimEnd (trimStart s).

(** [s.split(sep)] for a one-unit separator. *)
Fixpoint split_on (sep : N) (s : str) : list str :=
  match s with
  | [] => [[]]
  | c :: s' =>
      if c =? sep then [] :: split_on sep s'
      else match split_on sep s' with
           | w :: ws => (c :: w) :: ws
           | [] => [[c]]
           end
  end.

(** [s.replace(p, r)] with a string pattern: the first occurrence only. *)
Definition replace_first (p r s : str) : str :=
  match indexOf p s with
  | Some i => take i s ++ r ++ drop (i + length p) s
  | None => s
  end.

(** [s.endsWith(p)] *)
Definition ends_with (p s : str) : bool := starts_with (rev p) (rev s).

Definition newline : N := 10.

Definition is_digit (c : N) : bool := (48 <=? c) && (c <=? 57).
Definition is_upper (c : N) : bool := (65 <=? c) && (c <=? 90).
Definition is_lower (c : N) : bool := (97 <=? c) && (c <=? 122).
Definition is_letter (c : N) : bool := is_upper c || is_lower c.

End JsString.

Import JsString.

(** ** Regular expressions *)

Module Regex.

Inductive ClassAtom : Type :=
| CChar (c : N)
| CRange (lo hi : N)
| CSpace                 (* \s *)
| CNotSpace.             (* \S *)

(** Pattern syntax.  [x+] is [Seq x (Star g x)], [x?] is [Disj x Empty]
    (greedy) or [Disj Empty x] (lazy); groups carry no captures, as the
    sources use neither back-references nor [$1]. *)
Inductive regex : Type :=
| Empty
| Char (c : N)
| CharClass (invert : bool) (atoms : list ClassAtom)
| AssertStart            (* ^ *)
| AssertEnd              (* $ *)
| Seq (r1 r2 : regex)
| Disj (r1 r2 : regex)
| Star (greedy : bool) (r : regex).

(** *** Matching *)

(** Canonicalization under the [i] flag: exact whenever one of the two
    units compared is ASCII, which is the case for every [/i] pattern of
    the sources. *)
Definition canonicalize (ic : bool) (c : N) : N :=
  if ic && is_lower c then c - 32 else c.

Definition char_eq (ic : bool) (a b : N) : bool :=
  canonicalize ic a =? canonicalize ic b.

Definition other_case (c : N) : N :=
  if is_lower c then c - 32 else if is_upper c then c + 32 else c.

Definition atom_mem (a : ClassAtom) (c : N) : bool :=
  match a with
  | CChar d => c =? d
  | CRange lo hi => (lo <=? c) && (c <=? hi)
  | CSpace => is_space c
  | CNotSpace => negb (is_space c)
  end.

Definition class_mem (ic : bool) (atoms : list ClassAtom) (c : N) : bool :=
  existsb (fun a => atom_mem a c) atoms
  || (ic && existsb (fun a => atom_mem a (other_case c)) atoms).

(** A continuation receives the index reached and the text still ahead and
    answers with the end index of the whole match, or fails. *)
Definition Cont : Type := nat -> str -> option nat.

Definition accept : Cont := fun e _ => Some e.

(** Repetition.  An iteration that consumes nothing is refused, as the
    RepeatMatcher of the standard does; [fuel] bounds the iterations and
    [S (length s)] is always enough. *)
Fixpoint star_loop (body : nat -> str -> Cont -> option nat) (greedy : bool)
    (fuel : nat) (pos : nat) (s : str) (k : Cont) : option nat :=
  match fuel with
  | O => k pos s
  | S fuel' =>
      let again :=
        body pos s (fun pos' s' =>
          if (pos' =? pos)%nat then None
          else star_loop body greedy fuel' pos' s' k) in
      if greedy
      then match again with Some e => Some e | None => k pos s end
      else match k pos s with Some e => Some e | None => again end
  end.

(** [exec ic r pos s k]: match [r] at index [pos], where [s] is the text
    from [pos] on, then continue with [k]; alternatives are tried in the
    order of the standard (left before right, greedy longest first, lazy
    shortest first). *)
Fixpoint exec (ic : bool) (r : regex) (pos : nat) (s : str) (k : Cont)
  : option nat :=
  match r with
  | Empty => k pos s
  | Char c =>
      match s with
      | d :: s' => if char_eq ic c d then k (S pos) s' else None
      | [] => None
      end
  | CharClass inv atoms =>
      match s with
      | d :: s' => if xorb inv (class_mem ic atoms d) then k (S pos) s' else None
      | [] => None
      end
  | AssertStart => if (pos =? 0)%nat then k pos s else None
  | AssertEnd => match s with [] => k pos s | _ :: _ => None end
  | Seq r1 r2 => exec ic r1 pos s (fun pos' s' => exec ic r2 pos' s' k)
  | Disj r1 r2 =>
      match exec ic r1 pos s k with
      | Some e => Some e
      | None => exec ic r2 pos s k
      end
  | Star g r1 => star_loop (exec ic r1) g (S (length s)) pos s k
  end.

(** The leftmost match at or after [pos]: start and end index. *)
Fixpoint find_match (ic : bool) (r : regex) (pos : nat) (s : str)
  : option (nat * nat) :=
  match exec ic r pos s accept with
  | Some e => Some (pos, e)
  | None =>
      match s with
      | [] => None
      | _ :: s' => find_match ic r (S pos) s'
      end
  end.

(** The match of [r] that starts at index [i] of [s]: its end index. *)
Definition match_at (ic : bool) (r : regex) (s : str) (i : nat) : option nat :=
  exec ic r i (drop i s) accept.

(** [regex.test(s)] for a regex without the [g] flag. *)
Definition test (ic : bool) (r : regex) (s : str) : bool :=
  match find_match ic r O s with Some _ => true | None => false end.

(** A text cut at the successive matches of a [g] regex. *)
Inductive piece : Type :=
| Text (t : str)
| Match (m : str).

Fixpoint segments_from (ic : bool) (r : regex) (fuel pos : nat) (s : str)
  : list piece :=
  match fuel with
  | O => [Text s]
  | S fuel' =>
      match find_match ic r pos s with
      | None => [Text s]
      | Some (i, e) =>
          let pre := take (i - pos) s in
          let rest := drop (i - pos) s in
          if (e =? i)%nat then
            (* an empty match: the next search starts one unit further *)
            Text pre :: Match [] ::
              match rest with
              | [] => []
              | c :: rest' => Text [c] :: segments_from ic r fuel' (S i) rest'
              end
          else
            Text pre :: Match (take (e - i) rest)
              :: segments_from ic r fuel' e (drop (e - i) rest)
      end
  end.

Definition segments (ic : bool) (r : regex) (s : str) : list piece :=
  segments_from ic r (S (length s)) O s.

(** [s.match(regex)] with the [g] flag; the empty list stands for [null]. *)
Definition match_all (ic : bool) (r : regex) (s : str) : list str :=
  omap (fun p => match p with Match m => Some m | Text _ => None end)
       (segments ic r s).

(** [s.replace(regex, fn)] with the [g] flag.  The callback may update the
    variables it closes over ([St]) and may throw ([None]). *)
Fixpoint replace_pieces {St : Type} (fn : St -> str -> option (St * str))
    (st : St) (ps : list piece) : option (St * str) :=
  match ps with
  | [] => Some (st, [])
  | Text t :: ps' =>
      '(st', out) ← replace_pieces fn st ps';
      Some (st', t ++ out)
  | Match m :: ps' =>
      '(st1, rep) ← fn st m;
      '(st2, out) ← replace_pieces fn st1 ps';
      Some (st2, rep ++ out)
  end.

Definition replace_fn {St : Type} (ic : bool) (r : regex)
    (fn : St -> str -> option (St * str)) (st : St) (s : str)
  : option (St * str) :=
  replace_pieces fn st (segments ic r s).

(** [s.replace(regex, text)] with the [g] flag: every match [m] gives way
    to [f m].  For a replacement text free of [$], [f] is constant; for
    ['\\$&'] it puts a backslash before the match. *)
Definition replace_map (ic : bool) (r : regex) (f : str -> str) (s : str) : str :=
  concat (map (fun p => match p with Text t => t | Match m => f m end)
              (segments ic r s)).

Definition replace_all (ic : bool) (r : regex) (rep : str) (s : str) : str :=
  replace_map ic r (fun _ => rep) s.

(** [s.split(regex)], the loop of the standard: the regex is tried at each
    index [q] in turn; a match that ends where the last piece ended (an
    empty match there) is passed over, any other one closes the piece
    [acc] that runs from the end of the last match to [q].  [rest] is the
    text from [q] on.  Each step moves [q] forward or follows a step that
    did, so [2 * length s + 2] steps are enough. *)
Fixpoint split_from (ic : bool) (r : regex) (fuel q : nat) (acc rest : str)
  : list str :=
  match fuel with
  | O => [acc ++ rest]
  | S fuel' =>
      match rest with
      | [] => [acc]
      | c :: rest' =>
          match exec ic r q rest accept with
          | None => split_from ic r fuel' (S q) (acc ++ [c]) rest'
          | Some e =>
              if (e =? q - length acc)%nat
              then split_from ic r fuel' (S q) (acc ++ [c]) rest'
              else acc :: split_from ic r fuel' e [] (drop (e - q) rest)
          end
      end
  end.

Definition split_regex (ic : bool) (r : regex) (s : str) : list str :=
  match s with
  | [] => match exec ic r O [] accept with Some _ => [] | None => [[]] end
  | _ :: _ => split_from ic r (2 * length s + 2) O [] s
  end.

(** *** Parsing pattern text *)

Definition is_ch (a : ascii) (c : N) : bool := c =? ch a.

(** [\e] outside a class.  [\s \S \n \r \t] and the identity escapes of
    punctuation are covered; any other letter or digit after the backslash
    is outside the fragment. *)
Definition parse_escape (e : N) : option regex :=
  if is_ch "s" e then Some (CharClass false [CSpace])
  else if is_ch "S" e then Some (CharClass false [CNotSpace])
  else if is_ch "n" e then Some (Char 10)
  else if is_ch "r" e then Some (Char 13)
  else if is_ch "t" e then Some (Char 9)
  else if is_letter e || is_digit e then None
  else Some (Char e).

Definition class_escape (e : N) : option ClassAtom :=
  if is_ch "s" e then Some CSpace
  else if is_ch "S" e then Some CNotSpace
  else if is_ch "n" e then Some (CChar 10)
  else if is_ch "r" e then Some (CChar 13)
  else if is_ch "t" e then Some (CChar 9)
  else if is_letter e || is_digit e then None
  else Some (CChar e).

(** One atom of a class, the text after it. *)
Definition class_atom (s : str) : option (ClassAtom * str) :=
  match s with
  | [] => None
  | c :: s' =>
      if is_ch "\" c then
        match s' with
        | e :: s'' => a ← class_escape e; Some (a, s'')
        | [] => None
        end
      else Some (CChar c, s')
  end.

(** The atoms of a class up to its closing bracket. *)
Fixpoint parse_class (fuel : nat) (s : str) : option (list ClassAtom * str) :=
  match fuel with
  | O => None
  | S fuel' =>
      match s with
      | [] => None
      | c :: s' =>
          if is_ch "]" c then Some ([], s')
          else
            '(a, rest) ← class_atom s;
            match a, rest with
            | CChar lo, d :: h :: _ =>
                if is_ch "-" d && negb (is_ch "]" h) then
                  '(b, rest') ← class_atom (drop 1 rest);
                  match b with
                  | CChar hi =>
                      if lo <=? hi then
                        '(atoms, rest'') ← parse_class fuel' rest';
                        Some (CRange lo hi :: atoms, rest'')
                      else None
                  | _ => None
                  end
                else
                  '(atoms, rest') ← parse_class fuel' rest;
                  Some (a :: atoms, rest')
            | _, _ =>
                '(atoms, rest') ← parse_class fuel' rest;
                Some (a :: atoms, rest')
            end
      end
  end.

(** A quantifier after the atom [a], if the text starts with one. *)
Definition quantified (a : regex) (s : str) : regex * str :=
  match s with
  | q :: s' =>
      let '(greedy, s'') :=
        match s' with
        | l :: t => if is_ch "?" l then (false, t) else (true, s')
        | [] => (true, s')
        end in
      if is_ch "*" q then (Star greedy a, s'')
      else if is_ch "+" q then (Seq a (Star greedy a), s'')
      else if is_ch "?" q then ((if greedy then Disj a Empty else Disj Empty a), s'')
      else (a, s)
  | [] => (a, s)
  end.

(** The line terminators, which [.] does not match. *)
Definition line_terminators : list ClassAtom :=
  [CChar 10; CChar 13; CChar 8232; CChar 8233].

(** Disjunction, Alternative and Atom of the pattern grammar.  [None] is a
    pattern that is ill-formed or outside the fragment. *)
Fixpoint parse_disj (fuel : nat) (s : str) : option (regex * str) :=
  match fuel with
  | O => None
  | S fuel' =>
      '(r1, rest) ← parse_alt fuel' s;
      match rest with
      | c :: rest' =>
          if is_ch "|" c then
            '(r2, rest'') ← parse_disj fuel' rest';
            Some (Disj r1 r2, rest'')
          else Some (r1, rest)
      | [] => Some (r1, rest)
      end
  end
with parse_alt (fuel : nat) (s : str) : option (regex * str) :=
  match fuel with
  | O => None
  | S fuel' =>
      match s with
      | [] => Some (Empty, [])
      | c :: _ =>
          if is_ch "|" c || is_ch ")" c then Some (Empty, s)
          else
            '(a, rest) ← parse_atom fuel' s;
            let '(t, rest') := quantified a rest in
            '(r, rest'') ← parse_alt fuel' rest';
            Some (Seq t r, rest'')
      end
  end
with parse_atom (fuel : nat) (s : str) : option (regex * str) :=
  match fuel with
  | O => None
  | S fuel' =>
      match s with
      | [] => None
      | c :: s' =>
          if is_ch "(" c then
            let body :=
              match s' with
              | q :: c2 :: s'' =>
                  if is_ch "?" q && is_ch ":" c2 then s'' else s'
              | _ => s'
              end in
            '(r, rest) ← parse_disj fuel' body;
            match rest with
            | d :: rest' => if is_ch ")" d then Some (r, rest') else None
            | [] => None
            end
          else if is_ch "[" c then
            let '(inv, body) :=
              match s' with
              | n :: s'' => if is_ch "^" n then (true, s'') else (false, s')
              | [] => (false, s')
              end in
            '(atoms, rest) ← parse_class (S (length body)) body;
            Some (CharClass inv atoms, rest)
          else if is_ch "\" c then
            match s' with
            | e :: s'' => r ← parse_escape e; Some (r, s'')
            | [] => None
            end
          else if is_ch "^" c then Some (AssertStart, s')
          else if is_ch "$" c then Some (AssertEnd, s')
          else if is_ch "." c then Some (CharClass true line_terminators, s')
          else if is_ch "*" c || is_ch "+" c || is_ch "?" c || is_ch "{" c
                  || is_ch "}" c || is_ch ")" c || is_ch "]" c || is_ch "|" c
          then None
          else Some (Char c, s')
      end
  end.

(** [new RegExp(src)]; [None] when the constructor throws a [SyntaxError]
    (or the pattern is outside the fragment).  The fuel bounds the depth
    of the descent. *)
Definition RegExp (src : str) : option regex :=
  match parse_disj (4 * length src + 4) src with
  | Some (r, []) => Some r
  | _ => None
  end.

(** A regex literal [/src/] of the source text: it is checked when the
    program is loaded, so it cannot throw where it is used. *)
Definition regex_literal (src : string) : regex :=
  match RegExp (lit src) with
  | Some r => r
  | None => CharClass false []
  end.

End Regex.

Import Regex.

(** ** utils/security *)

Module Security.

(** [/^[a-zA-Z][a-zA-Z0-9_]*(__[a-zA-Z]+)?$/] *)
Definition validPattern : regex :=
  regex_literal "^[a-zA-Z][a-zA-Z0-9_]*(__[a-zA-Z]+)?$".

(** [sanitizeApiName(name)]; [None] is [null].  The argument is a string by
    its TypeScript type, so of [!name || typeof name !== 'string'] only the
    empty string remains. *)
Definition sanitizeApiName (name : str) : option str :=
  if bool_decide (name = []) then None
  else
    let trimmed := trim name in
    if (length trimmed =? 0)%nat then None
    else if negb (test false validPattern trimmed) then None
    else if (80 <? length trimmed)%nat then None
    else Some trimmed.


(** [string.replace(/[.*+?^${}()|[\]\\]/g, '\\$&')] *)
Definition escapeRegex (s : str) : str :=
  replace_map false (regex_literal "[.*+?^${}()|[\]\\]")
              (fun m => ch "\" :: m) s.

(** The pattern text of a regex literal that is one double quote. *)
Definition double_quote : string := String "034"%char EmptyString.

(** [sanitizeForDisplay(input)]: four replacements in a row, each over the
    result of the one before. *)
Definition sanitizeForDisplay (input : str) : str :=
  if bool_decide (input = []) then []
  else
    let s := replace_all false (regex_literal "<") (lit "&lt;") input in
    let s := replace_all false (regex_literal ">") (lit "&gt;") s in
    let s := replace_all false (regex_literal double_quote) (lit "&quot;") s in
    replace_all false (regex_literal "'") (lit "&#039;") s.

Definition validExtensions : list str :=
  [ lit ".permissionset-meta.xml";
    lit ".profile-meta.xml";
    lit ".layout-meta.xml";
    lit ".flexipage-meta.xml";
    lit ".flow-meta.xml";
    lit ".field-meta.xml";
    lit ".object-meta.xml" ].

(** [isValidMetadataExtension(filePath)] *)
Definition isValidMetadataExtension (filePath : str) : bool :=
  existsb (fun ext => ends_with ext filePath) validExtensions.

End Security.

Import Security.

(** ** The workspace: files, configuration, clock, persistent state *)

Module Workspace.

(** A file is kept as its data, of a type [C] the store does not look into
    (bytes for the backup store, the decoded text for the rewriters).  The
    one structured file is the backup side-table: a file holding the JSON
    text of an object whose members are strings is kept as the finite map
    of its own members, so that [JSON.parse(fs.readFileSync(f))] gives the
    map back and [fs.writeFileSync(f, JSON.stringify(m))] stores it; any
    other file is taken as one on which [JSON.parse] throws.

    The store holds the regular files, under their absolute normalized
    paths on a POSIX host (a case-sensitive file system without symbolic
    links).  Directories are not nodes of it: a directory is there
    wherever no regular file stands in its way, which is where
    [mkdirSync(.., {recursive: true})] can make it. *)
Inductive node (C : Type) : Type :=
| Data (c : C)
| Mappings (m : gmap str str).
Arguments Data {C} c.
Arguments Mappings {C} m.

(** The settings under [cleanforce.*] that the modelled code reads. *)
Record Config : Type := {
  cfg_createBackup : bool;
  cfg_backupLocation : str;
  cfg_maxHistoryItems : option Z;
}.

Inductive OperationType : Type :=
| REMOVE_FIELD_REFERENCES
| DELETE_FIELD_FILES
| CLEANUP_PROFILES
| CLEANUP_PERMISSION_SETS
| REMOVE_APEX_REFERENCES
| REMOVE_OBJECT_REFERENCES
| REMOVE_FLOW_REFERENCES
| REMOVE_LAYOUT_ITEMS
| BULK_OPERATION.

#[export] Instance OperationType_eq_dec : EqDecision OperationType.
Proof. solve_decision. Defined.

Record Details : Type := {
  d_object : option str;
  d_fields : option (list str);
  d_filesModified : option (list str);
  d_filesDeleted : option (list str);
  d_totalRemoved : option nat;
  d_backupPath : option str;
  d_metadataType : option str;
  d_skippedDueToVisibilityRules : option (list str);
}.

(** [timestamp] is the time value of the [Date]; storing it and reading it
    back through [new Date(entry.timestamp)] keeps it. *)
Record HistoryEntry : Type := {
  id : option str;
  type : OperationType;
  timestamp : Z;
  details : Details;
}.

Record World (C : Type) : Type := {
  workspaceFolder : option str;     (* workspaceFolders?.[0].uri.fsPath *)
  config : Config;
  clock : str;                      (* new Date().toISOString() *)
  files : gmap str (node C);
  backupFolder : str;               (* BackupManager.backupFolder *)
  globalState : option (list HistoryEntry);  (* 'cleanforce.history' *)
}.
Arguments workspaceFolder {C} w.
Arguments config {C} w.
Arguments clock {C} w.
Arguments files {C} w.
Arguments backupFolder {C} w.
Arguments globalState {C} w.

(** *** Paths, as the module [path] of a POSIX host treats them *)

Definition slash : N := 47.

(** [segments.join('/')] *)
Fixpoint join_segments (segments : list str) : str :=
  match segments with
  | [] => []
  | [a] => a
  | a :: rest => a ++ slash :: join_segments rest
  end.

(** One step of the normalization: [kept] holds the segments kept so far,
    the last one first.  An empty segment and [.] are passed over; [..]
    takes away the last segment kept, unless that is [..] itself or none
    is left: then [..] is kept in a relative path and dropped in an
    absolute one. *)
Definition normalize_step (absolute : bool) (kept : list str) (segment : str)
  : list str :=
  if bool_decide (segment = []) || bool_decide (segment = lit ".") then kept
  else if bool_decide (segment = lit "..") then
    match kept with
    | top :: below =>
        if bool_decide (top = lit "..")
        then (if absolute then kept else segment :: kept)
        else below
    | [] => if absolute then kept else [segment]
    end
  else segment :: kept.

(** [path.normalize(p)] *)
Definition path_normalize (p : str) : str :=
  match p with
  | [] => lit "."
  | c :: _ =>
      let absolute := c =? slash in
      let trailing :=
        match last p with Some d => d =? slash | None => false end in
      let body :=
        join_segments
          (rev (foldl (normalize_step absolute) [] (split_on slash p))) in
      match body with
      | [] =>
          if absolute then lit "/" else if trailing then lit "./" else lit "."
      | _ :: _ =>
          (if absolute then [slash] else [])
            ++ body ++ (if trailing then [slash] else [])
      end
  end.

(** [path.join(a, b, ...)]: the arguments that are not empty, joined and
    normalized. *)
Definition path_join (arguments : list str) : str :=
  match List.filter (fun a => negb (bool_decide (a = []))) arguments with
  | [] => lit "."
  | parts => path_normalize (join_segments parts)
  end.

(** The rest of [s] from its first unit that [f] refuses. *)
Fixpoint skip (f : N -> bool) (s : str) : str :=
  match s with
  | c :: s' => if f c then skip f s' else s
  | [] => []
  end.

(** [path.dirname(p)]: [p] is read from its end, the separators it ends
    with are passed over, and the path is cut before the first separator
    met after another unit. *)
Definition dirname (p : str) : str :=
  match p with
  | [] => lit "."
  | c :: rest =>
      let hasRoot := c =? slash in
      match skip (fun d => negb (d =? slash))
                 (skip (fun d => d =? slash) (rev rest)) with
      | [] => if hasRoot then lit "/" else lit "."
      | _ :: before =>
          if hasRoot && (length before =? 0)%nat then lit "//"
          else take (S (length before)) p
      end
  end.

(** The directories above [p]: the prefixes of [p] that end before a
    separator, the root for the separator [p] starts with.  [before] is
    what has been read. *)
Fixpoint ancestors_from (before rest : str) : list str :=
  match rest with
  | [] => []
  | c :: rest' =>
      (if c =? slash
       then [if bool_decide (before = []) then [slash] else before]
       else [])
        ++ ancestors_from (before ++ [c]) rest'
  end.

Definition ancestors (p : str) : list str := ancestors_from [] p.

Section Store.
Context {C : Type}.

Definition set_files (f : gmap str (node C)) (w : World C) : World C :=
  {| workspaceFolder := workspaceFolder w; config := config w;
     clock := clock w; files := f; backupFolder := backupFolder w;
     globalState := globalState w |}.

Definition set_backupFolder (b : str) (w : World C) : World C :=
  {| workspaceFolder := workspaceFolder w; config := config w;
     clock := clock w; files := files w; backupFolder := b;
     globalState := globalState w |}.

Definition set_globalState (h : list HistoryEntry) (w : World C) : World C :=
  {| workspaceFolder := workspaceFolder w; config := config w;
     clock := clock w; files := files w; backupFolder := backupFolder w;
     globalState := Some h |}.

(** [p] is a regular file. *)
Definition is_file (p : str) (fs : gmap str (node C)) : bool :=
  match fs !! p with Some _ => true | None => false end.

(** [p] is a directory with a file somewhere below it. *)
Definition is_directory (p : str) (fs : gmap str (node C)) : bool :=
  existsb (fun q => starts_with (p ++ [slash]) q) (map fst (map_to_list fs)).

(** [fs.existsSync(p)], for the path of a file. *)
Definition existsSync (p : str) (w : World C) : bool := is_file p (files w).

(** A file can be written at [p]: over a regular file; or as a new file,
    where no regular file stands above [p] and [p] is not a directory. *)
Definition writable (p : str) (fs : gmap str (node C)) : bool :=
  is_file p fs
  || (forallb (fun q => negb (is_file q fs)) (ancestors p)
      && negb (is_directory p fs)).

(** [fs.mkdirSync(dir, { recursive: true })]; [None] when it throws: a
    regular file stands at [dir] or above it.  The store itself does not
    change, directories are not nodes of it. *)
Definition mkdirSync (dir : str) (w : World C) : option (World C) :=
  if existsb (fun q => is_file q (files w)) (dir :: ancestors dir)
  then None else Some w.

(** [fs.copyFileSync(src, dest)]; [None] when it throws: [src] is no
    regular file, or no file can be written at [dest]. *)
Definition copyFileSync (src dest : str) (w : World C) : option (World C) :=
  n ← files w !! src;
  if writable dest (files w)
  then Some (set_files (<[dest := n]> (files w)) w)
  else None.

(** [fs.readFileSync(p, 'utf-8')]; [None] when it throws. *)
Definition readFileSync (p : str) (w : World C) : option C :=
  match files w !! p with
  | Some (Data c) => Some c
  | _ => None
  end.

(** [fs.writeFileSync(p, content)], called on a file that has just been
    read. *)
Definition writeFileSync (p : str) (content : C) (w : World C) : World C :=
  set_files (<[p := Data content]> (files w)) w.

End Store.

(** [vscode.workspace.asRelativePath(p)] with one workspace folder: the
    path below the folder, or [p] itself when it is not inside. *)
Definition asRelativePath (ws p : str) : str :=
  if starts_with (ws ++ lit "/") p then drop (S (length ws)) p else p.

(** [path.basename(p)] *)
Definition basename (p : str) : str :=
  match rev (split_on (ch "/") p) with
  | b :: _ => b
  | [] => p
  end.

End Workspace.

Import Workspace.

(** ** utils/backupManager *)

Module BackupManager.
Section BackupManager.
Context {C : Type}.

Definition mappingFile (ws : str) (w : World C) : str :=
  path_join [ws; backupFolder w; lit "backup-mapping.json"].

(** [config.get<string>('backupLocation') || '.cleanforce/backups'] *)
Definition configured_backupFolder (w : World C) : str :=
  if bool_decide (cfg_backupLocation (config w) = [])
  then lit ".cleanforce/backups"
  else cfg_backupLocation (config w).

(** [mappings[key] = value] on the object that [{}] or [JSON.parse]
    made.  The key [__proto__], when it is not a member of the object
    itself, reaches the setter of [Object.prototype], which does nothing
    with a string. *)
Definition object_set (key value : str) (mappings : gmap str str)
  : gmap str str :=
  if bool_decide (key = lit "__proto__")
     && negb (bool_decide (is_Some (mappings !! key)))
  then mappings
  else <[key := value]> mappings.

(** [mappings[key]] where it is a string.  For a key that is no member of
    the object itself the result is [undefined] or, for a name of
    [Object.prototype] such as [__proto__] or [constructor], a value that
    is not a string: [fs.existsSync] answers [false] for it, so the caller
    treats both alike and [None] stands for both. *)
Definition object_get (key : str) (mappings : gmap str str) : option str :=
  mappings !! key.

(** [if (!fs.existsSync(dir)) fs.mkdirSync(dir, { recursive: true })] *)
Definition ensure_directory (dir : str) (w : World C) : option (World C) :=
  if existsSync dir w then Some w else mkdirSync dir w.

(** [storeBackupMapping(originalPath, backupPath)]; every failure is
    caught and logged. *)
Definition storeBackupMapping (originalPath backupPath : str) (w : World C)
  : World C :=
  match workspaceFolder w with
  | None => w
  | Some ws =>
      let parsed : option (gmap str str) :=
        match files w !! mappingFile ws w with
        | None => Some ∅
        | Some (Mappings m) => Some m
        | Some (Data _) => None          (* JSON.parse throws *)
        end in
      match parsed with
      | None => w
      | Some mappings =>
          let mappings := object_set originalPath backupPath mappings in
          match ensure_directory (dirname (mappingFile ws w)) w with
          | None => w                    (* mkdirSync throws *)
          | Some w1 =>
              if writable (mappingFile ws w) (files w1)
              then set_files (<[mappingFile ws w := Mappings mappings]>
                                (files w1)) w1
              else w                     (* writeFileSync throws *)
          end
      end
  end.

(** [getBackupPath(originalPath)] *)
Definition getBackupPath (originalPath : str) (w : World C) : option str :=
  match workspaceFolder w with
  | None => None
  | Some ws =>
      match files w !! mappingFile ws w with
      | Some (Mappings mappings) => object_get originalPath mappings
      | Some (Data _) => None            (* JSON.parse throws: caught *)
      | None => None
      end
  end.

(** [createBackup(filePath)]: the backup path, or [None] for [undefined]. *)
Definition createBackup (filePath : str) (w : World C)
  : option str * World C :=
  match workspaceFolder w with
  | None => (None, w)
  | Some ws =>
      let w1 := set_backupFolder (configured_backupFolder w) w in
      let timestamp :=
        replace_all false (regex_literal "[:.]") (lit "-") (clock w1) in
      let relativePath := asRelativePath ws filePath in
      let backupDir := path_join [ws; backupFolder w1; timestamp] in
      let backupPath := path_join [backupDir; relativePath] in
      match ensure_directory (dirname backupPath) w1 with
      | None => (None, w1)               (* caught *)
      | Some w2 =>
          match copyFileSync filePath backupPath w2 with
          | None => (None, w1)           (* caught *)
          | Some w3 =>
              (Some backupPath, storeBackupMapping filePath backupPath w3)
          end
      end
  end.

(** [new BackupManager()]: the field [backupFolder] starts from its
    initializer; only [createBackup] reads the setting into it. *)
Definition new_BackupManager (w : World C) : World C :=
  set_backupFolder (lit ".cleanforce/backups") w.

(** [restoreBackup(originalPath)] *)
Definition restoreBackup (originalPath : str) (w : World C)
  : bool * World C :=
  match getBackupPath originalPath w with
  | None => (false, w)
  | Some backupPath =>
      if bool_decide (backupPath = []) || negb (existsSync backupPath w)
      then (false, w)
      else
        match copyFileSync backupPath originalPath w with
        | Some w' => (true, w')
        | None => (false, w)             (* caught *)
        end
  end.

End BackupManager.
End BackupManager.

Import BackupManager.

(** ** utils/historyManager *)

Module HistoryManager.
Section HistoryManager.
Context {C : Type}.

(** [getHistory()] *)
Definition getHistory (w : World C) : list HistoryEntry :=
  map (fun entry =>
         {| id := id entry; type := type entry;
            timestamp := timestamp entry; details := details entry |})
      (default [] (globalState w)).

Definition saveHistory (history : list HistoryEntry) (w : World C) : World C :=
  set_globalState history w.

(** [array.splice(start)]: cut the array off at [start]; a negative start
    counts from the end. *)
Definition splice {A : Type} (start : Z) (l : list A) : list A :=
  if (start <? 0)%Z
  then take (Z.to_nat (Z.max (Z.of_nat (length l) + start) 0)) l
  else take (Z.to_nat start) l.

(** [config.get<number>('maxHistoryItems') || 50] *)
Definition maxItems (w : World C) : Z :=
  match cfg_maxHistoryItems (config w) with
  | Some n => if (n =? 0)%Z then 50%Z else n
  | None => 50%Z
  end.

(** [addEntry(entry)]; [fresh] is the id made of [Date.now()] and
    [Math.random()]. *)
Definition addEntry (fresh : str) (entry : HistoryEntry) (w : World C)
  : World C :=
  let history := getHistory w in
  let entry' :=
    {| id := Some fresh; type := type entry;
       timestamp := timestamp entry; details := details entry |} in
  let history := entry' :: history in
  let history :=
    if (maxItems w <? Z.of_nat (length history))%Z
    then splice (maxItems w) history
    else history in
  saveHistory history w.

(** [getLastEntry()] *)
Definition getLastEntry (w : World C) : option HistoryEntry :=
  head (getHistory w).

Definition truthy (o : option str) : bool :=
  match o with Some (_ :: _) => true | _ => false end.

(** The loop of [undoLast] over [filesModified]: the results of the
    restores are dropped by the code; they are kept here to be observed. *)
Fixpoint restoreAll (paths : list str) (w : World C) : list bool * World C :=
  match paths with
  | [] => ([], w)
  | filePath :: rest =>
      let '(ok, w1) := restoreBackup filePath w in
      let '(oks, w2) := restoreAll rest w1 in
      (ok :: oks, w2)
  end.

(** [undoLast(backupManager)]; [answer] is what the user picks in the
    modal warning ([None] when it is dismissed). *)
Definition undoLast (answer : option str) (w : World C) : bool * World C :=
  match getLastEntry w with
  | None => (false, w)
  | Some lastEntry =>
      if negb (truthy (d_backupPath (details lastEntry)))
         && negb (bool_decide (is_Some (d_filesModified (details lastEntry))))
      then (false, w)
      else if negb (bool_decide (answer = Some (lit "Yes, Undo")))
      then (false, w)
      else
        let w1 :=
          match d_filesModified (details lastEntry) with
          | Some paths => snd (restoreAll paths w)
          | None => w
          end in
        let history := getHistory w1 in
        (true, saveHistory (tail history) w1)
  end.

(** [clearHistory()] *)
Definition clearHistory (w : World C) : World C := set_globalState [] w.

(** A [Map]: the keys in the order of their first insertion. *)
Definition map_get {K V : Type} `{EqDecision K} (k : K) (m : list (K * V))
  : option V :=
  snd <$> List.find (fun kv => bool_decide (fst kv = k)) m.

Fixpoint map_set {K V : Type} `{EqDecision K} (k : K) (v : V)
    (m : list (K * V)) : list (K * V) :=
  match m with
  | [] => [(k, v)]
  | (k', v') :: m' =>
      if bool_decide (k' = k) then (k, v) :: m' else (k', v') :: map_set k v m'
  end.

(** [getHistoryByDate()]; [toLocaleDateString] is the rendering of a time
    value as a date in the locale of the host. *)
Definition getHistoryByDate (toLocaleDateString : Z -> str) (w : World C)
  : list (str * list HistoryEntry) :=
  foldl (fun grouped entry =>
           let dateKey := toLocaleDateString (timestamp entry) in
           let group := default [] (map_get dateKey grouped) in
           map_set dateKey (group ++ [entry]) grouped)
        [] (getHistory w).

Record Statistics : Type := {
  totalOperations : nat;
  totalFieldsRemoved : nat;
  totalFilesModified : nat;
  operationsByType : list (OperationType * nat);
}.

(** The body of the loop of [getStatistics] for one entry. *)
Definition count_entry (st : Statistics) (entry : HistoryEntry) : Statistics :=
  {| totalOperations := totalOperations st;
     totalFieldsRemoved :=
       match d_totalRemoved (details entry) with
       | Some n => (totalFieldsRemoved st + n)%nat
       | None => totalFieldsRemoved st
       end;
     totalFilesModified :=
       match d_filesModified (details entry) with
       | Some paths => (totalFilesModified st + length paths)%nat
       | None => totalFilesModified st
       end;
     operationsByType :=
       map_set (type entry)
               (default O (map_get (type entry) (operationsByType st)) + 1)%nat
               (operationsByType st) |}.

(** [getStatistics()] *)
Definition getStatistics (w : World C) : Statistics :=
  let history := getHistory w in
  let st :=
    foldl count_entry
          {| totalOperations := O; totalFieldsRemoved := O;
             totalFilesModified := O; operationsByType := [] |}
          history in
  {| totalOperations := length history;
     totalFieldsRemoved := totalFieldsRemoved st;
     totalFilesModified := totalFilesModified st;
     operationsByType := operationsByType st |}.

End HistoryManager.
End HistoryManager.

Import HistoryManager.

(** ** commands/fieldRemover *)

Module FieldRemover.
Local Open Scope nat_scope.

(** What a pass over a set of files reports. *)
Record Totals : Type := {
  removed : nat;
  filesModified : nat;
  modifiedFiles : list str;
}.

Definition no_totals : Totals :=
  {| removed := 0; filesModified := 0; modifiedFiles := [] |}.

(** [/\n\s*\n\s*\n/g] replaced by two newlines. *)
Definition collapse_blank_lines (content : str) : str :=
  replace_all false (regex_literal "\n\s*\n\s*\n") [newline; newline] content.

(** *** [execute] and [executeOnFile]: from the user's input to
    [fieldsToRemove] *)

(** The validation loop of [execute]: the object name and every field name
    go through [sanitizeApiName]; [None] when the command returns before
    any file is touched. *)
Definition execute_validate (objName : str) (fields : list str)
  : option (str * list str) :=
  if bool_decide (objName = []) then None
  else
    sanitizedObjName ← sanitizeApiName objName;
    if bool_decide (fields = []) then None
    else
      let validFields :=
        omap (fun f =>
                let fieldName :=
                  replace_first (sanitizedObjName ++ lit ".") [] f in
                sanitized ← sanitizeApiName fieldName;
                Some (sanitizedObjName ++ lit "." ++ sanitized))
             fields in
      if bool_decide (validFields = []) then None
      else Some (sanitizedObjName, validFields).

(** [executeOnFile]: the names go to [fieldsToRemove] as they were typed. *)
Definition executeOnFile_fields (objName : str) (fields : list str)
  : option (str * list str) :=
  if bool_decide (objName = []) then None
  else if bool_decide (fields = []) then None
  else
    Some (objName,
          map (fun f => objName ++ lit "."
                          ++ replace_first (objName ++ lit ".") [] f)
              fields).

(** *** The ways to name the fields *)


(** The class of the double and the single quote, with the flag [g]. *)
Definition quotes : regex :=
  regex_literal (String.append "[" (String.append double_quote "']")).

(** [getFieldsFromClipboard()] on the text of the clipboard. *)
Definition getFieldsFromClipboard (clipboardText : str) : option (list str) :=
  if bool_decide (trim clipboardText = []) then None
  else
    let fields :=
      filter (fun f => 0 < length f ∧ ends_with (lit "__c") f = true)
             (map (fun f => replace_all false quotes [] (trim f))
                  (split_regex false (regex_literal "[,\n\r\s]+")
                               clipboardText)) in
    if bool_decide (fields = []) then None else Some fields.

(** *** [processFile]: profiles and permission sets *)

(** The four [fieldPermissions] patterns of one field, as pattern text. *)
Definition fieldPermissions_sources (field : str) : list str :=
  [ lit "\s*<fieldPermissions>\s*<editable>(?:true|false)</editable>\s*<field>"
      ++ escapeRegex field
      ++ lit "</field>\s*<readable>(?:true|false)</readable>\s*</fieldPermissions>";
    lit "\s*<fieldPermissions>\s*<field>"
      ++ escapeRegex field
      ++ lit "</field>\s*<editable>(?:true|false)</editable>\s*<readable>(?:true|false)</readable>\s*</fieldPermissions>";
    lit "\s*<fieldPermissions>\s*<readable>(?:true|false)</readable>\s*<editable>(?:true|false)</editable>\s*<field>"
      ++ escapeRegex field
      ++ lit "</field>\s*</fieldPermissions>";
    lit "\s*<fieldPermissions>\s*<readable>(?:true|false)</readable>\s*<field>"
      ++ escapeRegex field
      ++ lit "</field>\s*<editable>(?:true|false)</editable>\s*</fieldPermissions>" ].

(** [matches = content.match(pattern); if (matches) { removed +=
    matches.length; content = content.replace(pattern, '') }] for each
    pattern in turn. *)
Fixpoint remove_matches (patterns : list regex) (st : nat * str) : nat * str :=
  match patterns with
  | [] => st
  | pattern :: rest =>
      let '(removed, content) := st in
      let matches := match_all false pattern content in
      remove_matches rest
        (match matches with
         | [] => st
         | _ :: _ => (removed + length matches,
                      replace_all false pattern [] content)
         end)
  end.

Fixpoint processFile_fields (fieldsToRemove : list str) (st : nat * str)
  : option (nat * str) :=
  match fieldsToRemove with
  | [] => Some st
  | field :: rest =>
      patterns ← mapM RegExp (fieldPermissions_sources field);
      processFile_fields rest (remove_matches patterns st)
  end.

(** [processFile(filePath)]: the number of blocks removed. *)
Definition processFile (fieldsToRemove : list str) (filePath : str)
    (w : World str) : nat * World str :=
  match readFileSync filePath w with
  | None => (O, w)                              (* caught *)
  | Some originalContent =>
      if negb (existsb (fun f => includes f originalContent) fieldsToRemove)
      then (O, w)
      else
        let w1 :=
          if cfg_createBackup (config w)
          then snd (createBackup filePath w) else w in
        match processFile_fields fieldsToRemove (O, originalContent) with
        | None => (O, w1)                       (* caught *)
        | Some (removed, content) =>
            (removed,
             if bool_decide (content ≠ originalContent)
             then writeFileSync filePath content w1 else w1)
        end
  end.

(** [processPermissionSetsAndProfiles]: the loop over the files found. *)
Fixpoint processPermissionSetsAndProfiles (fieldsToRemove : list str)
    (found : list str) (t : Totals) (w : World str) : Totals * World str :=
  match found with
  | [] => (t, w)
  | file :: rest =>
      let '(n, w1) := processFile fieldsToRemove file w in
      let t1 :=
        if (0 <? n)%nat
        then {| removed := removed t + n;
                filesModified := S (filesModified t);
                modifiedFiles := modifiedFiles t ++ [file] |}
        else t in
      processPermissionSetsAndProfiles fieldsToRemove rest t1 w1
  end.

(** *** [processLayouts] *)

(** [/<layoutItems>[\s\S]*?<\/layoutItems>/g] *)
Definition layoutItemRegex : regex :=
  regex_literal "<layoutItems>[\s\S]*?<\/layoutItems>".

(** [field.split('.')[1]]; [None] is [undefined]. *)
Definition fieldName_of (field : str) : option str :=
  split_on (ch ".") field !! 1%nat.

(** The callback of [content.replace(layoutItemRegex, ...)]:
    [escapeRegex(undefined)] and an ill-formed pattern throw. *)
Definition layoutItem_callback (fieldName : option str) (removed : nat)
    (block : str) : option (nat * str) :=
  name ← fieldName;
  fieldPattern ← RegExp (lit "<field>" ++ escapeRegex name ++ lit "</field>");
  if test false fieldPattern block then Some (S removed, [])
  else Some (removed, block).

Fixpoint processLayouts_fields (fieldsToRemove : list str) (st : nat * str)
  : option (nat * str) :=
  match fieldsToRemove with
  | [] => Some st
  | field :: rest =>
      st' ← replace_fn false layoutItemRegex
               (layoutItem_callback (fieldName_of field)) (fst st) (snd st);
      processLayouts_fields rest st'
  end.

(** What [processLayouts] computes from the text of one file: the number
    of blocks removed and the new text. *)
Definition processLayouts_content (fieldsToRemove : list str) (content : str)
  : option (nat * str) :=
  '(removed, content') ← processLayouts_fields fieldsToRemove (O, content);
  Some (removed, collapse_blank_lines content').

Definition processLayouts_file (fieldsToRemove : list str) (file : str)
    (t : Totals) (w : World str) : Totals * World str :=
  match readFileSync file w with
  | None => (t, w)                              (* caught *)
  | Some originalContent =>
      match processLayouts_content fieldsToRemove originalContent with
      | None => (t, w)                          (* caught *)
      | Some (n, content) =>
          if bool_decide (content ≠ originalContent) then
            let w1 :=
              if cfg_createBackup (config w)
              then snd (createBackup file w) else w in
            ({| removed := removed t + n;
                filesModified := S (filesModified t);
                modifiedFiles := modifiedFiles t ++ [file] |},
             writeFileSync file content w1)
          else (t, w)
      end
  end.

Fixpoint processLayouts (fieldsToRemove : list str) (found : list str)
    (t : Totals) (w : World str) : Totals * World str :=
  match found with
  | [] => (t, w)
  | file :: rest =>
      let '(t1, w1) := processLayouts_file fieldsToRemove file t w in
      processLayouts fieldsToRemove rest t1 w1
  end.

(** *** [processRecordTypes], [processCompactLayouts], [processListViews] *)

(** The end of the loop body these three share with [processLayouts]: a
    file whose text has changed is backed up when the setting asks for it,
    written and counted. *)
Definition rewrite_file (compute : str -> option (nat * str)) (file : str)
    (t : Totals) (w : World str) : Totals * World str :=
  match readFileSync file w with
  | None => (t, w)                              (* caught *)
  | Some originalContent =>
      match compute originalContent with
      | None => (t, w)                          (* caught *)
      | Some (n, content) =>
          if bool_decide (content ≠ originalContent) then
            let w1 :=
              if cfg_createBackup (config w)
              then snd (createBackup file w) else w in
            ({| removed := removed t + n;
                filesModified := S (filesModified t);
                modifiedFiles := modifiedFiles t ++ [file] |},
             writeFileSync file content w1)
          else (t, w)
      end
  end.

(** [/<picklistValues>[\s\S]*?<\/picklistValues>/g] *)
Definition picklistRegex : regex :=
  regex_literal "<picklistValues>[\s\S]*?<\/picklistValues>".

(** The callback of [content.replace(picklistRegex, ...)]. *)
Definition picklist_callback (fieldName : option str) (removed : nat)
    (block : str) : option (nat * str) :=
  name ← fieldName;
  fieldPattern ←
    RegExp (lit "<picklist>" ++ escapeRegex name ++ lit "</picklist>");
  if test false fieldPattern block then Some (S removed, [])
  else Some (removed, block).

Fixpoint processRecordTypes_fields (fieldsToRemove : list str)
    (st : nat * str) : option (nat * str) :=
  match fieldsToRemove with
  | [] => Some st
  | field :: rest =>
      st' ← replace_fn false picklistRegex
               (picklist_callback (fieldName_of field)) (fst st) (snd st);
      processRecordTypes_fields rest st'
  end.

Definition processRecordTypes_content (fieldsToRemove : list str)
    (content : str) : option (nat * str) :=
  '(removed, content') ← processRecordTypes_fields fieldsToRemove (O, content);
  Some (removed, collapse_blank_lines content').

Definition processRecordTypes_file (fieldsToRemove : list str)
  : str -> Totals -> World str -> Totals * World str :=
  rewrite_file (processRecordTypes_content fieldsToRemove).

(** The pattern text of [processCompactLayouts] for one field name. *)
Definition compactFields_source (fieldName : str) : str :=
  lit "\s*<fields>" ++ escapeRegex fieldName ++ lit "</fields>".

(** [escapeRegex(fieldName)] throws on [undefined]. *)
Fixpoint processCompactLayouts_fields (fieldsToRemove : list str)
    (st : nat * str) : option (nat * str) :=
  match fieldsToRemove with
  | [] => Some st
  | field :: rest =>
      fieldName ← fieldName_of field;
      fieldPattern ← RegExp (compactFields_source fieldName);
      processCompactLayouts_fields rest (remove_matches [fieldPattern] st)
  end.

Definition processCompactLayouts_content (fieldsToRemove : list str)
    (content : str) : option (nat * str) :=
  '(removed, content') ←
    processCompactLayouts_fields fieldsToRemove (O, content);
  Some (removed, collapse_blank_lines content').

Definition processCompactLayouts_file (fieldsToRemove : list str)
  : str -> Totals -> World str -> Totals * World str :=
  rewrite_file (processCompactLayouts_content fieldsToRemove).

(** The pattern text of the columns of [processListViews]. *)
Definition columns_source (fieldName : str) : str :=
  lit "\s*<columns>" ++ escapeRegex fieldName ++ lit "</columns>".

(** [/<filters>[\s\S]*?<\/filters>/g] *)
Definition filterRegex : regex :=
  regex_literal "<filters>[\s\S]*?<\/filters>".

(** The callback on the filters is the one of the layout items, word for
    word: it looks for [<field>name</field>]. *)
Fixpoint processListViews_fields (fieldsToRemove : list str)
    (st : nat * str) : option (nat * str) :=
  match fieldsToRemove with
  | [] => Some st
  | field :: rest =>
      fieldName ← fieldName_of field;
      columnPattern ← RegExp (columns_source fieldName);
      let st1 := remove_matches [columnPattern] st in
      st2 ← replace_fn false filterRegex
               (layoutItem_callback (Some fieldName)) (fst st1) (snd st1);
      processListViews_fields rest st2
  end.

Definition processListViews_content (fieldsToRemove : list str)
    (content : str) : option (nat * str) :=
  '(removed, content') ← processListViews_fields fieldsToRemove (O, content);
  Some (removed, collapse_blank_lines content').

Definition processListViews_file (fieldsToRemove : list str)
  : str -> Totals -> World str -> Totals * World str :=
  rewrite_file (processListViews_content fieldsToRemove).

(** *** [removeMetadataReferences] *)

(** The pattern text for one name under [parentTag] and [childTag]. *)
Definition metadataReference_source (parentTag childTag name : str) : str :=
  lit "\s*<" ++ parentTag ++ lit ">[\s\S]*?<" ++ childTag ++ lit ">"
    ++ escapeRegex name ++ lit "</" ++ childTag ++ lit ">[\s\S]*?</"
    ++ parentTag ++ lit ">".

Fixpoint removeMetadataReferences_names (parentTag childTag : str)
    (names : list str) (st : nat * str) : option (nat * str) :=
  match names with
  | [] => Some st
  | name :: rest =>
      pattern ← RegExp (metadataReference_source parentTag childTag name);
      removeMetadataReferences_names parentTag childTag rest
        (remove_matches [pattern] st)
  end.

(** What [removeMetadataReferences] computes from the text of one file. *)
Definition removeMetadataReferences_content (parentTag childTag : str)
    (names : list str) (content : str) : option (nat * str) :=
  removeMetadataReferences_names parentTag childTag names (O, content).

(** *** [removeLayoutItems] (the command "remove layout references") *)

Definition layoutItems_source (field : str) : str :=
  lit "\s*<layoutItems>[\s\S]*?<field>" ++ escapeRegex field
    ++ lit "</field>[\s\S]*?</layoutItems>".

Fixpoint removeLayoutItems_fields (fields : list str) (st : nat * str)
  : option (nat * str) :=
  match fields with
  | [] => Some st
  | field :: rest =>
      pattern ← RegExp (layoutItems_source field);
      removeLayoutItems_fields rest (remove_matches [pattern] st)
  end.

(** What [removeLayoutItems] computes from the text of one layout. *)
Definition removeLayoutItems_content (fields : list str) (content : str)
  : option (nat * str) :=
  removeLayoutItems_fields fields (O, content).

(** The body of the loop of [removeLayoutItems] over the layouts found:
    [totalRemoved] and [filesModified] and the workspace after the file.
    Nothing is caught here and no backup is asked for; [None] is an
    exception that leaves the command. *)
Definition removeLayoutItems_file (fields : list str) (file : str)
    (t : nat * nat) (w : World str) : option (nat * nat * World str) :=
  originalContent ← readFileSync file w;
  '(removed, content) ← removeLayoutItems_content fields originalContent;
  if bool_decide (content ≠ originalContent)
  then Some (fst t + removed, S (snd t), writeFileSync file content w)
  else Some (fst t, snd t, w).

(** [removeLayoutReferences()] up to the call of [removeLayoutItems]: the
    glob it will hand to [findFiles] and the fields, from the object name
    picked or typed and the field names typed. *)
Definition removeLayoutReferences (objName fieldNames : option str)
  : option (str * list str) :=
  objName ← objName;
  if bool_decide (objName = []) then None
  else
    fieldNames ← fieldNames;
    if bool_decide (fieldNames = []) then None
    else
      Some (lit "**/" ++ objName ++ lit "-*.layout-meta.xml",
            filter (fun f => f ≠ []) (map trim (split_on (ch ",") fieldNames))).

End FieldRemover.

Import FieldRemover.

(** ** commands/flexiPageCleaner *)

Module FlexiPageCleaner.
Local Open Scope nat_scope.

Inductive WarningType : Type :=
| visibilityRule
| filterCondition
| componentFilter.

Record VisibilityWarning : Type := {
  vw_file : str;
  vw_field : str;
  vw_type : WarningType;
  vw_context : str;
}.

(** What [processFlexiPages] accumulates across the files. *)
Record Run : Type := {
  totalRemoved : nat;
  filesModified : nat;
  modifiedFiles : list str;
  visibilityWarnings : list VisibilityWarning;
  skippedFiles : list str;
}.

Definition new_run : Run :=
  {| totalRemoved := 0; filesModified := 0; modifiedFiles := [];
     visibilityWarnings := []; skippedFiles := [] |}.

(** An input box with a [validateInput]: it hands back only a value the
    validator accepts, or nothing when the user leaves it. *)
Definition showInputBox (accepts : str -> bool) (typed : option str)
  : option str :=
  v ← typed; if accepts v then Some v else None.

(** [!value || value.trim().length === 0] is the refusal. *)
Definition required (value : str) : bool :=
  negb (bool_decide (value = []) || (length (trim value) =? 0)).

(** [execute()] up to the call [processFlexiPages(objectName, fields)]:
    the arguments of that call, [None] when the command returns before. *)
Definition execute (typedObject typedFields answer : option str)
  : option (str * list str) :=
  objectName ← showInputBox required typedObject;
  if bool_decide (objectName = []) then None
  else
    fieldsInput ← showInputBox required typedFields;
    if bool_decide (fieldsInput = []) then None
    else
      let fields :=
        filter (fun f => 0 < length f)
               (map trim (split_on (ch ",") fieldsInput)) in
      if bool_decide (fields = []) then None
      else if negb (bool_decide (answer = Some (lit "Yes"))) then None
      else Some (objectName, fields).

(** The class has its own [escapeRegex], the same text as the one of
    utils/security: [string.replace(/[.*+?^${}()|[\]\\]/g, '\\$&')]. *)
Definition escapeRegex (s : str) : str :=
  replace_map false (regex_literal "[.*+?^${}()|[\]\\]")
              (fun m => ch "\" :: m) s.

(** The four visibility patterns, all with the flags [gi]. *)
Definition visibilityPatterns : list regex :=
  [ regex_literal "<visibilityRule>[\s\S]*?<\/visibilityRule>";
    regex_literal "<componentInstanceProperties>[\s\S]*?<n>visibilityRule<\/name>[\s\S]*?<\/componentInstanceProperties>";
    regex_literal "<filterCriteria>[\s\S]*?<\/filterCriteria>";
    regex_literal "<criteria>[\s\S]*?<\/criteria>" ].

(** [extractContext(match, fieldName)] *)
Definition extractContext (m fieldName : str) : str :=
  match List.find (fun line => includes fieldName line) (split_on newline m) with
  | Some line =>
      take 100 (trim line) ++ (if 100 <? length line then lit "..." else [])
  | None => take 80 m ++ lit "..."
  end.

(** The warnings one field raises on the current text: one for every match
    of every pattern that mentions the field. *)
Definition visibility_scan (file fieldName fullFieldRef content : str)
  : list VisibilityWarning :=
  flat_map
    (fun pattern =>
       flat_map
         (fun m =>
            if includes fieldName m || includes fullFieldRef m then
              [ {| vw_file := basename file;
                   vw_field := fieldName;
                   vw_type :=
                     if includes (lit "visibilityRule") m then visibilityRule
                     else if includes (lit "filterCriteria") m
                          then filterCondition
                          else componentFilter;
                   vw_context := extractContext m fieldName |} ]
            else [])
         (match_all true pattern content))
    visibilityPatterns.

(** The callback of patterns 1 and 2: a block that holds the field in a
    [fieldItem] goes. *)
Definition fieldItem_callback (fieldName fullFieldRef : str) (removed : nat)
    (block : str) : option (nat * str) :=
  recordFieldPattern ←
    RegExp (lit "<fieldItem>Record\." ++ escapeRegex fieldName ++ lit "</fieldItem>");
  shortFieldPattern ←
    RegExp (lit "<fieldItem>" ++ escapeRegex fieldName ++ lit "</fieldItem>");
  fullFieldPattern ←
    RegExp (lit "<fieldItem>" ++ escapeRegex fullFieldRef ++ lit "</fieldItem>");
  if test false recordFieldPattern block || test false shortFieldPattern block
     || test false fullFieldPattern block
  then Some (S removed, [])
  else Some (removed, block).

(** The callback of pattern 3, on [componentInstanceProperties]. *)
Definition property_callback (fieldName fullFieldRef : str) (removed : nat)
    (block : str) : option (nat * str) :=
  if includes (lit "<n>visibilityRule</n>") block
     || includes (lit "<n>criteria</n>") block
     || includes (lit "<n>filter</n>") block
  then Some (removed, block)
  else
    fieldNameProp ←
      RegExp (lit "<n>fieldName</n>[\s\S]*?<value>" ++ escapeRegex fieldName
                ++ lit "</value>");
    fullFieldNameProp ←
      RegExp (lit "<n>fieldName</n>[\s\S]*?<value>" ++ escapeRegex fullFieldRef
                ++ lit "</value>");
    recordFieldProp ←
      RegExp (lit "<n>fieldName</n>[\s\S]*?<value>Record\."
                ++ escapeRegex fieldName ++ lit "</value>");
    if test false fieldNameProp block || test false fullFieldNameProp block
       || test false recordFieldProp block
    then Some (S removed, [])
    else Some (removed, block).

(** The three block removals of one field. *)
Definition remove_field (fieldName fullFieldRef : str) (st : nat * str)
  : option (nat * str) :=
  st1 ← replace_fn false (regex_literal "<itemInstances>[\s\S]*?<\/itemInstances>")
          (fieldItem_callback fieldName fullFieldRef) (fst st) (snd st);
  st2 ← replace_fn false (regex_literal "<fieldInstance>[\s\S]*?<\/fieldInstance>")
          (fieldItem_callback fieldName fullFieldRef) (fst st1) (snd st1);
  replace_fn false
    (regex_literal "<componentInstanceProperties>[\s\S]*?<\/componentInstanceProperties>")
    (property_callback fieldName fullFieldRef) (fst st2) (snd st2).

Definition note_skipped (file : str) (r : Run) : Run :=
  {| totalRemoved := totalRemoved r; filesModified := filesModified r;
     modifiedFiles := modifiedFiles r;
     visibilityWarnings := visibilityWarnings r;
     skippedFiles :=
       if bool_decide (file ∈ skippedFiles r) then skippedFiles r
       else skippedFiles r ++ [file] |}.

Definition add_warnings (ws : list VisibilityWarning) (r : Run) : Run :=
  {| totalRemoved := totalRemoved r; filesModified := filesModified r;
     modifiedFiles := modifiedFiles r;
     visibilityWarnings := visibilityWarnings r ++ ws;
     skippedFiles := skippedFiles r |}.

(** The body of [for (const fieldName of fields)] for one field: the
    visibility check comes first and, when it finds the field, [continue]
    leaves the text and the counter as they are.  The warnings go to the
    run at once; [None] in the second component is an exception. *)
Definition field_step (objectName file fieldName : str) (r : Run)
    (st : nat * str) : Run * option (nat * str) :=
  let fullFieldRef := objectName ++ lit "." ++ fieldName in
  let found := visibility_scan file fieldName fullFieldRef (snd st) in
  let r1 := add_warnings found r in
  match found with
  | _ :: _ => (note_skipped file r1, Some st)
  | [] => (r1, remove_field fieldName fullFieldRef st)
  end.

Fixpoint fields_loop (objectName file : str) (fields : list str) (r : Run)
    (st : nat * str) : Run * option (nat * str) :=
  match fields with
  | [] => (r, Some st)
  | fieldName :: rest =>
      match field_step objectName file fieldName r st with
      | (r1, Some st1) => fields_loop objectName file rest r1 st1
      | (r1, None) => (r1, None)
      end
  end.

(** The clean-up after the fields of a file. *)
Definition cleanup (content : str) : str :=
  let content :=
    replace_all false (regex_literal "<itemInstances>\s*<\/itemInstances>") []
                content in
  let content :=
    replace_all false (regex_literal "<fieldInstances>\s*<\/fieldInstances>") []
                content in
  collapse_blank_lines content.

(** The body of [for (const file of files)]: the number of blocks removed
    in this file, the run and the workspace after it. *)
Definition process_file (objectName : str) (fields : list str) (file : str)
    (r : Run) (w : World str) : nat * Run * World str :=
  match readFileSync file w with
  | None => (0, r, w)                           (* caught *)
  | Some originalContent =>
      match fields_loop objectName file fields r (0, originalContent) with
      | (r1, None) => (0, r1, w)                (* caught *)
      | (r1, Some (removed, content)) =>
          let content := cleanup content in
          if bool_decide (content ≠ originalContent) && (0 <? removed) then
            let w1 :=
              if cfg_createBackup (config w)
              then snd (createBackup file w) else w in
            (removed,
             {| totalRemoved := totalRemoved r1 + removed;
                filesModified := S (filesModified r1);
                modifiedFiles := modifiedFiles r1 ++ [file];
                visibilityWarnings := visibilityWarnings r1;
                skippedFiles := skippedFiles r1 |},
             writeFileSync file content w1)
          else (removed, r1, w)
      end
  end.

Fixpoint processFlexiPages (objectName : str) (fields : list str)
    (found : list str) (r : Run) (w : World str) : Run * World str :=
  match found with
  | [] => (r, w)
  | file :: rest =>
      let '(_, r1, w1) := process_file objectName fields file r w in
      processFlexiPages objectName fields rest r1 w1
  end.

End FlexiPageCleaner.

(** * Properties *)

Local Close Scope N_scope.
Local Open Scope nat_scope.

(** ** Vocabulary of the statements *)

(** The regex of a literal text followed by [r]. *)
Definition lits (p : str) (r : regex) : regex :=
  foldr (fun c r' => Seq (Char c) r') r p.

(** [[\s\S]] *)
Definition any_char : regex := CharClass false [CSpace; CNotSpace].

(** [open[\s\S]*?close] *)
Definition block_regex (opening closing : str) : regex :=
  lits opening (Seq (Star false any_char) (lits closing Empty)).

(** The first index from [pos] on at which [k] succeeds. *)
Fixpoint first_from {A : Type} (k : nat -> str -> option A) (pos : nat)
    (s : str) : option A :=
  match k pos s with
  | Some e => Some e
  | None =>
      match s with
      | [] => None
      | _ :: s' => first_from k (S pos) s'
      end
  end.

(** A text cut into the successive lazy blocks [opening ... closing]: what
    [segments] yields on a [block_regex], in terms of [indexOf]. *)
Fixpoint cut (opening closing : str) (fuel : nat) (s : str) : list piece :=
  match fuel with
  | O => [Text s]
  | S fuel' =>
      match indexOf opening s with
      | None => [Text s]
      | Some i =>
          match indexOf closing (drop (i + length opening) s) with
          | None => [Text s]
          | Some j =>
              Text (take i s)
                :: Match (take (length opening + j + length closing) (drop i s))
                :: cut opening closing fuel'
                     (drop (i + length opening + j + length closing) s)
          end
      end
  end.

(** The syntax characters of the pattern grammar, which are the
    characters [escapeRegex] puts a backslash before. *)
Definition syntax_characters : str := lit ".*+?^${}()|[]\".

Definition is_syntax_character (c : N) : bool :=
  existsb (N.eqb c) syntax_characters.

Definition escape_unit (c : N) : str :=
  if is_syntax_character c then [ch "\"; c] else [c].

(** [Text t] with one more unit in front. *)
Definition push_text (d : N) (ps : list piece) : list piece :=
  match ps with
  | Text t :: ps' => Text (d :: t) :: ps'
  | _ => Text [d] :: ps
  end.

Definition render (f : str -> str) (ps : list piece) : str :=
  concat (map (fun p => match p with Text t => t | Match m => f m end) ps).

(** A tag name such as [field]: free of syntax characters. *)
Definition plain (s : str) : bool :=
  forallb (fun c => negb (is_syntax_character c)) s.

(** [<tag>name</tag>] *)
Definition element (tag value : str) : str :=
  lit "<" ++ tag ++ lit ">" ++ value ++ lit "</" ++ tag ++ lit ">".

(** The entry as [addEntry] stores it, with its fresh id. *)
Definition stamp (x : str * HistoryEntry) : HistoryEntry :=
  {| id := Some (fst x); type := type (snd x);
     timestamp := timestamp (snd x); details := details (snd x) |}.

(** A run of [addEntry] calls, oldest first. *)
Definition addEntries {C : Type} (es : list (str * HistoryEntry)) (w : World C)
  : World C :=
  foldl (fun w' x => addEntry (fst x) (snd x) w') w es.

(** *** Sample data for the instances *)

Definition no_details : Details :=
  {| d_object := None; d_fields := None; d_filesModified := None;
     d_filesDeleted := None; d_totalRemoved := None; d_backupPath := None;
     d_metadataType := None; d_skippedDueToVisibilityRules := None |}.

Definition sample_entry (time : Z) (paths : option (list str)) : HistoryEntry :=
  {| id := None; type := REMOVE_FIELD_REFERENCES; timestamp := time;
     details :=
       {| d_object := Some (lit "Case"); d_fields := None;
          d_filesModified := paths; d_filesDeleted := None;
          d_totalRemoved := Some 1; d_backupPath := None;
          d_metadataType := None; d_skippedDueToVisibilityRules := None |} |}.

Definition sample_world {C : Type} (folder : option str) (backups : bool)
    (maximum : option Z) (fs : gmap str (node C))
    (history : option (list HistoryEntry)) : World C :=
  {| workspaceFolder := folder;
     config := {| cfg_createBackup := backups; cfg_backupLocation := [];
                  cfg_maxHistoryItems := maximum |};
     clock := lit "2024-05-01T10:20:30.400Z";
     files := fs;
     backupFolder := lit ".cleanforce/backups";
     globalState := history |}.

Definition six_entries : list (str * HistoryEntry) :=
  map (fun k => (lit "id", sample_entry k None)) [1; 2; 3; 4; 5; 6]%Z.

(** A workspace whose last operation modified four files: [a.xml] and
    [d.xml] have a backup, [b.xml] has no entry in the mapping file, and
    the copy the mapping file names for [c.xml] is gone. *)
Definition undo_paths : list str :=
  [lit "/ws/a.xml"; lit "/ws/b.xml"; lit "/ws/c.xml"; lit "/ws/d.xml"].

Definition undo_world : World str :=
  sample_world (Some (lit "/ws")) true None
    (<[lit "/ws/a.xml" := Data (lit "<new-a/>")]>
       (<[lit "/ws/b.xml" := Data (lit "<new-b/>")]>
          (<[lit "/ws/c.xml" := Data (lit "<new-c/>")]>
             (<[lit "/ws/d.xml" := Data (lit "<new-d/>")]>
                (<[lit "/ws/.cleanforce/backups/t0/a.xml"
                     := Data (lit "<old-a/>")]>
                   (<[lit "/ws/.cleanforce/backups/t0/d.xml"
                        := Data (lit "<old-d/>")]>
                      (<[lit "/ws/.cleanforce/backups/backup-mapping.json" :=
                           Mappings
                             (<[lit "/ws/a.xml"
                                  := lit "/ws/.cleanforce/backups/t0/a.xml"]>
                                (<[lit "/ws/c.xml"
                                     := lit "/ws/.cleanforce/backups/t0/c.xml"]>
                                   {[ lit "/ws/d.xml"
                                        := lit "/ws/.cleanforce/backups/t0/d.xml" ]}))]>
                         ∅)))))))
    (Some [sample_entry 2 (Some undo_paths); sample_entry 1 None]).

(** The loop of [undoLast] as a fold: each restore is made on the
    workspace the restores before it have left. *)
Definition restores {C : Type} (paths : list str) (w : World C) : World C :=
  foldl (fun w' filePath => snd (restoreBackup filePath w')) w paths.


(** *** The visibility constructs of a FlexiPage *)

(** Every match of every visibility pattern on a text. *)
Definition visibility_constructs (content : str) : list str :=
  flat_map (fun pattern => match_all true pattern content)
           FlexiPageCleaner.visibilityPatterns.

(** The construct holds the field name or [Object.Field]. *)
Definition mentions (objectName fieldName m : str) : bool :=
  includes fieldName m || includes (objectName ++ lit "." ++ fieldName) m.

(** *** Sample files *)

(** Two layout items, the second one on the target [Name__c]. *)
Definition two_layoutItems : str :=
  lit "<Layout><layoutItems><field>Other_Name__c</field></layoutItems><layoutItems><field>Name__c</field></layoutItems></Layout>".

(** A profile in which the permissions of [Case.Foo__c] come in an order
    that none of the four patterns of [processFile] covers. *)
Definition profile_text : str :=
  lit "<Profile><fieldPermissions><field>Case.Foo__c</field><readable>true</readable><editable>false</editable></fieldPermissions></Profile>".

Definition profile_path : str := lit "/ws/profiles/Admin.profile-meta.xml".

Definition profile_world : World str :=
  sample_world (Some (lit "/ws")) true None
    (<[profile_path := Data profile_text]> ∅) None.

Definition profile_backup : str :=
  lit "/ws/.cleanforce/backups/2024-05-01T10-20-30-400Z/profiles/Admin.profile-meta.xml".

Definition flexi_path : str := lit "/ws/flexipages/Case_Page.flexipage-meta.xml".

(** A FlexiPage with a visibility rule on [Foo__c] and a field item of the
    same field, in the shape the platform writes: the rule wraps a
    [criteria] block. *)
Definition flexi_nested : str :=
  lit "<visibilityRule><criteria><leftValue>{!Record.Foo__c}</leftValue><operator>EQUAL</operator><rightValue>x</rightValue></criteria></visibilityRule><itemInstances><fieldInstance><fieldItem>Record.Foo__c</fieldItem></fieldInstance></itemInstances>".

(** Two field items: the first one, of [A__c], is shown by a rule on
    [B__c]; the second one is the item of [B__c]. *)
Definition flexi_two_targets : str :=
  lit "<FlexiPage><itemInstances><fieldInstance><fieldItem>Record.A__c</fieldItem><visibilityRule><criteria><leftValue>{!Record.B__c}</leftValue><operator>EQUAL</operator><rightValue>x</rightValue></criteria></visibilityRule></fieldInstance></itemInstances><itemInstances><fieldInstance><fieldItem>Record.B__c</fieldItem></fieldInstance></itemInstances></FlexiPage>".

Definition rule_on_B : str :=
  lit "<visibilityRule><criteria><leftValue>{!Record.B__c}</leftValue><operator>EQUAL</operator><rightValue>x</rightValue></criteria></visibilityRule>".

(** A component property [visibilityRule] on [Foo__c], written as the
    block callbacks of the cleaner expect it, and a field item of the
    field. *)
Definition flexi_property : str :=
  lit "<FlexiPage><componentInstanceProperties><n>visibilityRule</n><value>{!Record.Foo__c}</value></componentInstanceProperties><itemInstances><fieldInstance><fieldItem>Record.Foo__c</fieldItem></fieldInstance></itemInstances></FlexiPage>".

Definition flexi_world (content : str) : World str :=
  sample_world (Some (lit "/ws")) true None
    (<[flexi_path := Data content]> ∅) None.

(** *** Names *)

Definition is_word (c : N) : bool := is_letter c || is_digit c || (c =? 95)%N.

(** A letter, then letters, digits and underscores: the optional
    [__suffix] of the pattern is made of these too. *)
Definition valid_name (t : str) : bool :=
  match t with
  | c :: rest => is_letter c && forallb is_word rest
  | [] => false
  end.

(** Every unit the regex can consume satisfies [P] (flag [i] off). *)
Fixpoint accepts_only (P : N -> bool) (r : regex) : Prop :=
  match r with
  | Empty | AssertStart | AssertEnd => True
  | Char c => P c = true
  | CharClass inv atoms =>
      forall d, xorb inv (class_mem false atoms d) = true -> P d = true
  | Seq r1 r2 | Disj r1 r2 => accepts_only P r1 /\ accepts_only P r2
  | Star _ r1 => accepts_only P r1
  end.

(** [Account] followed by 83 spaces: 90 units. *)
Definition padded_name : str := lit "Account" ++ repeat 32%N 83.

(** A well-formed name of 90 units. *)
Definition long_name : str := repeat (ch "a") 90.

(** What a regex consumes before it hands over to its continuation. *)
Definition consumes (P : N -> bool)
    (m : nat -> str -> Cont -> option nat) : Prop :=
  forall pos s k e,
    m pos s k = Some e ->
    exists n, n <= length s /\ forallb P (take n s) = true
              /\ k (pos + n) (drop n s) = Some e.

Definition letters : list ClassAtom := [CRange 97 122; CRange 65 90].
Definition word_units : list ClassAtom :=
  [CRange 97 122; CRange 65 90; CRange 48 57; CChar 95].


(** *** Blocks removed and kept *)

(** A block that holds the inner element. *)
Definition hit (inner : str) (p : piece) : bool :=
  match p with
  | Match m => includes inner m
  | Text _ => false
  end.

(** The number of blocks that hold the inner element. *)
Definition hits (inner : str) (ps : list piece) : nat :=
  length (List.filter (hit inner) ps).

(** The text without the blocks that hold the inner element. *)
Definition kept (inner : str) (ps : list piece) : str :=
  render (fun m => if includes inner m then [] else m) ps.

(** *** Markup in which no tag is opened inside an open tag *)

(** Whether the last angle bracket seen is an opening one. *)
Fixpoint open_after (o : bool) (s : str) : bool :=
  match s with
  | [] => o
  | c :: s' =>
      open_after (if (c =? 60)%N then true
                  else if (c =? 62)%N then false else o) s'
  end.

(** No [<] comes after a [<] without a [>] between the two. *)
Fixpoint structured (o : bool) (s : str) : bool :=
  match s with
  | [] => true
  | c :: s' =>
      if (c =? 60)%N then negb o && structured true s'
      else if (c =? 62)%N then structured false s'
      else structured o s'
  end.

Definition tag_structured (s : str) : bool := structured false s.

(** *** Texts that differ in runs of white space only *)

(** [ws_edit t u]: [u] is [t] with some non-empty runs of white space
    replaced by two newlines. *)
Inductive ws_edit : str -> str -> Prop :=
| ws_nil : ws_edit [] []
| ws_keep c t u : ws_edit t u -> ws_edit (c :: t) (c :: u)
| ws_repl m t u :
    m <> [] -> forallb is_space m = true -> ws_edit t u ->
    ws_edit (m ++ t) (newline :: newline :: u).

Definition ws_free (p : str) : bool := forallb (fun c => negb (is_space c)) p.

(** *** Layout items *)

Definition layoutItems_open : str := lit "<layoutItems>".
Definition layoutItems_close : str := lit "</layoutItems>".

(** A text that is ill-formed markup: taking the block out joins the two
    halves of an opening tag around it. *)
Definition split_tag_layout : str :=
  lit "<layout<layoutItems><field>F</field></layoutItems>Items><field>F</field></layoutItems>".

Definition layout_path : str := lit "/ws/layouts/Case-Case Layout.layout-meta.xml".

Definition layout_world : World str :=
  sample_world (Some (lit "/ws")) true None
    (<[layout_path := Data two_layoutItems]> ∅) None.

(** *** Paths and the backup store *)

Definition no_slash (s : str) : bool :=
  forallb (fun c => negb (c =? slash)%N) s.

(** A name of a file or a directory: not empty, without a separator, and
    neither [.] nor [..]. *)
Definition is_name (s : str) : bool :=
  negb (bool_decide (s = [])) && negb (bool_decide (s = lit "."))
  && negb (bool_decide (s = lit "..")) && no_slash s.

(** The absolute path made of the names. *)
Definition path_of (names : list str) : str := slash :: join_segments names.

(** An absolute normalized path below the root, which is what [uri.fsPath]
    is on a POSIX host: a separator before each of its names. *)
Definition fsPath (p : str) : bool :=
  match p with
  | c :: rest => (c =? slash)%N && forallb is_name (split_on slash rest)
  | [] => false
  end.

(** The names [path.join(ws, folder, ...)] keeps of [ws] and [folder]. *)
Definition base_names (ws folder : str) : list str :=
  rev (foldl (normalize_step true) [] (split_on slash (ws ++ slash :: folder))).

(** The units [Date.prototype.toISOString] writes: digits and the marks
    of [YYYY-MM-DDTHH:mm:ss.sssZ], with a sign for a year far away. *)
Definition iso_unit (c : N) : bool :=
  is_digit c || existsb (N.eqb c) (lit "-:.TZ+").

Definition iso_text (s : str) : bool :=
  negb (bool_decide (s = [])) && forallb iso_unit s.

(** The name of the directory of the backups of one moment. *)
Definition timestamp_of {C : Type} (w : World C) : str :=
  replace_all false (regex_literal "[:.]") (lit "-") (clock w).

(** Where [createBackup] puts the copy of a file: under the configured
    folder, in a directory named after the time, at the path the file has
    below the workspace folder. *)
Definition backupPath_of {C : Type} (ws filePath : str) (w : World C) : str :=
  path_join
    [ path_join [ws; configured_backupFolder w; timestamp_of w];
      asRelativePath ws filePath ].

(** The mapping file of the configured backup folder. *)
Definition configured_mappingFile {C : Type} (ws : str) (w : World C) : str :=
  path_join [ws; configured_backupFolder w; lit "backup-mapping.json"].

(** A file can be made at [p]: no regular file stands above [p], and [p]
    is not a directory. *)
Definition free {C : Type} (p : str) (fs : gmap str (node C)) : bool :=
  forallb (fun q => negb (is_file q fs)) (ancestors p)
  && negb (is_directory p fs).



(** ** Vocabulary of the further properties *)

(** *** Display *)

(** The four characters [sanitizeForDisplay] replaces. *)
Definition markup_units : list N := [60; 62; 34; 39]%N.

Definition is_markup (c : N) : bool := existsb (N.eqb c) markup_units.

(** What becomes of one unit. *)
Definition display_unit (c : N) : str :=
  if (c =? 60)%N then lit "&lt;"
  else if (c =? 62)%N then lit "&gt;"
  else if (c =? 34)%N then lit "&quot;"
  else if (c =? 39)%N then lit "&#039;"
  else [c].

(** *** Backups *)

(** The mapping file [getBackupPath] reads in a session that has made no
    backup yet. *)
Definition default_mappingFile (ws : str) : str :=
  path_join [ws; lit ".cleanforce/backups"; lit "backup-mapping.json"].

(** A workspace whose backups go to the folder [bk]. *)
Definition custom_world : World str :=
  {| workspaceFolder := Some (lit "/ws");
     config := {| cfg_createBackup := true; cfg_backupLocation := lit "bk";
                  cfg_maxHistoryItems := None |};
     clock := lit "2024-05-01T10:20:30.400Z";
     files := <[lit "/ws/a.xml" := Data (lit "<a/>")]> ∅;
     backupFolder := lit ".cleanforce/backups";
     globalState := None |}.

(** A record type with the values of two picklists. *)
Definition recordType_path : str :=
  lit "/ws/objects/Case/recordTypes/Support.recordType-meta.xml".

Definition recordType_text : str :=
  lit "<RecordType><picklistValues><picklist>Other__c</picklist></picklistValues><picklistValues><picklist>Foo__c</picklist></picklistValues></RecordType>".

Definition recordType_world : World str :=
  sample_world (Some (lit "/ws")) true None
    (<[recordType_path := Data recordType_text]> ∅) None.

(** *** Field names typed or pasted *)

(** A comma or white space: what separates the names in the input box and
    in the clipboard ([\n] and [\r] are white space). *)
Definition is_separator (c : N) : bool := (c =? 44)%N || is_space c.

Definition is_quote (c : N) : bool := (c =? 34)%N || (c =? 39)%N.

(** One or more units of a class: [[...]+]. *)
Definition plus_class (atoms : list ClassAtom) : regex :=
  Seq (Seq (CharClass false atoms) (Star true (CharClass false atoms))) Empty.

(** *** Record types *)

Definition picklistValues_open : str := lit "<picklistValues>".
Definition picklistValues_close : str := lit "</picklistValues>".

(** *** Patterns and what they take out *)

(** A unit that is none of [*], [+], [?] opens no quantifier. *)
Definition no_quantifier (rest : str) : Prop :=
  match rest with
  | [] => True
  | q :: _ => is_ch "*" q = false /\ is_ch "+" q = false /\ is_ch "?" q = false
  end.

(** The pieces of a cut text that are matches. *)
Definition matched (ps : list piece) : list str :=
  omap (fun p => match p with Match m => Some m | Text _ => None end) ps.

(** Every matched piece of the cut satisfies [Q]. *)
Definition matches_are (Q : str -> Prop) (ps : list piece) : Prop :=
  Forall (fun p => match p with Match m => Q m | Text _ => True end) ps.

(** White space, then the text [p]. *)
Definition spaced (p m : str) : Prop :=
  exists ws, forallb is_space ws = true /\ m = ws ++ p.

(** [\s*] followed by the literal [p]. *)
Definition spaces_then (p : str) : regex :=
  Seq (Star true (CharClass false [CSpace])) (lits p Empty).

(** The texts a pattern can match, whatever the order in which the
    matcher tries them (flag [i] off; an assertion matches the empty text
    where it holds). *)
Inductive lang : regex -> str -> Prop :=
| lang_empty : lang Empty []
| lang_char c : lang (Char c) [c]
| lang_class inv atoms d :
    xorb inv (class_mem false atoms d) = true -> lang (CharClass inv atoms) [d]
| lang_start : lang AssertStart []
| lang_end : lang AssertEnd []
| lang_seq r1 r2 a b : lang r1 a -> lang r2 b -> lang (Seq r1 r2) (a ++ b)
| lang_disj_l r1 r2 a : lang r1 a -> lang (Disj r1 r2) a
| lang_disj_r r1 r2 a : lang r2 a -> lang (Disj r1 r2) a
| lang_star_nil g r : lang (Star g r) []
| lang_star_cons g r a b :
    lang r a -> lang (Star g r) b -> lang (Star g r) (a ++ b).

(** What a matcher consumes before it hands over to its continuation is a
    text of [L]. *)
Definition yields (L : str -> Prop)
    (m : nat -> str -> Cont -> option nat) : Prop :=
  forall pos s k e,
    m pos s k = Some e ->
    exists n, n <= length s /\ L (take n s)
              /\ k (pos + n) (drop n s) = Some e.

(** [\s*A[\s\S]*?I[\s\S]*?B] for three literals. *)
Definition span_regex (A I B : str) : regex :=
  Seq (Star true (CharClass false [CSpace]))
      (lits A (Seq (Star false any_char)
                   (lits I (Seq (Star false any_char) (lits B Empty))))).

(** An opening and a closing tag. *)
Definition open_tag (tag : str) : str := lit "<" ++ tag ++ lit ">".
Definition close_tag (tag : str) : str := lit "</" ++ tag ++ lit ">".

(** Two class accesses of a profile, the second one on [MyClass]. *)
Definition two_classAccesses : str :=
  lit "<classAccesses><apexClass>Other</apexClass><enabled>true</enabled></classAccesses><classAccesses><apexClass>MyClass</apexClass><enabled>true</enabled></classAccesses>".

(** *** Patterns as sequences of parts *)

(** The parts the patterns of [processFile] are made of: [\s*],
    [[\s\S]*?], [(?:true|false)] and literal text. *)
Inductive token : Type :=
| TSpaces
| TLazy
| TBoolean
| TLit (s : str).

(** The pattern text of a part, a literal with its syntax characters
    escaped. *)
Definition token_text (t : token) : str :=
  match t with
  | TSpaces => lit "\s*"
  | TLazy => lit "[\s\S]*?"
  | TBoolean => lit "(?:true|false)"
  | TLit s => flat_map escape_unit s
  end.

Definition tokens_text (ts : list token) : str := concat (map token_text ts).

Definition boolean_regex : regex :=
  Disj (lits (lit "true") Empty) (lits (lit "false") Empty).

(** The pattern of a part, followed by [r]. *)
Definition token_regex (t : token) (r : regex) : regex :=
  match t with
  | TSpaces => Seq (Star true (CharClass false [CSpace])) r
  | TLazy => Seq (Star false any_char) r
  | TBoolean => Seq boolean_regex r
  | TLit s => lits s r
  end.

Definition tokens_regex (ts : list token) : regex := foldr token_regex Empty ts.

(** The depth the parser needs for a part. *)
Definition token_fuel (t : token) : nat :=
  match t with
  | TLit s => length s
  | _ => 1
  end.

Definition tokens_fuel (ts : list token) : nat :=
  sum_list (map token_fuel ts).

(** A text that a part can match. *)
Definition token_reads (t : token) (part : str) : Prop :=
  match t with
  | TSpaces => forallb is_space part = true
  | TLazy => True
  | TBoolean => part = lit "true" \/ part = lit "false"
  | TLit s => part = s
  end.

(** A text made of one text for each part, in order. *)
Definition reads (ts : list token) (m : str) : Prop :=
  exists parts, m = concat parts /\ Forall2 token_reads ts parts.

(** The four shapes of a [fieldPermissions] block that [processFile]
    looks for, in the order of its patterns. *)
Definition fieldPermissions_tokens (field : str) : list (list token) :=
  [ [ TSpaces; TLit (lit "<fieldPermissions>"); TSpaces;
      TLit (lit "<editable>"); TBoolean; TLit (lit "</editable>"); TSpaces;
      TLit (element (lit "field") field); TSpaces;
      TLit (lit "<readable>"); TBoolean; TLit (lit "</readable>"); TSpaces;
      TLit (lit "</fieldPermissions>") ];
    [ TSpaces; TLit (lit "<fieldPermissions>"); TSpaces;
      TLit (element (lit "field") field); TSpaces;
      TLit (lit "<editable>"); TBoolean; TLit (lit "</editable>"); TSpaces;
      TLit (lit "<readable>"); TBoolean; TLit (lit "</readable>"); TSpaces;
      TLit (lit "</fieldPermissions>") ];
    [ TSpaces; TLit (lit "<fieldPermissions>"); TSpaces;
      TLit (lit "<readable>"); TBoolean; TLit (lit "</readable>"); TSpaces;
      TLit (lit "<editable>"); TBoolean; TLit (lit "</editable>"); TSpaces;
      TLit (element (lit "field") field); TSpaces;
      TLit (lit "</fieldPermissions>") ];
    [ TSpaces; TLit (lit "<fieldPermissions>"); TSpaces;
      TLit (lit "<readable>"); TBoolean; TLit (lit "</readable>"); TSpaces;
      TLit (element (lit "field") field); TSpaces;
      TLit (lit "<editable>"); TBoolean; TLit (lit "</editable>"); TSpaces;
      TLit (lit "</fieldPermissions>") ] ].

(** A [fieldPermissions] block of [field] in one of the four shapes, with
    the white space before it. *)
Definition permission_block (field m : str) : Prop :=
  exists ts, In ts (fieldPermissions_tokens field) /\ reads ts m.

(** A run of rewriting passes.  A pass cuts the text into pieces, counts
    the matched pieces, all of which satisfy [Q], and keeps the others. *)
Inductive removal (Q : str -> Prop) : nat * str -> nat * str -> Prop :=
| removal_done st : removal Q st st
| removal_pass n ps st' :
    matches_are Q ps ->
    removal Q (n + length (matched ps), render (fun _ => []) ps) st' ->
    removal Q (n, render (fun m => m) ps) st'.

(** *** The blocks the FlexiPage cleaner takes out *)

(** The three spellings under which a field is looked for. *)
Definition spellings (fieldName fullFieldRef : str) : list str :=
  [lit "Record." ++ fieldName; fieldName; fullFieldRef].

(** A block with a [fieldItem] of the field. *)
Definition fieldItem_block (fieldName fullFieldRef m : str) : Prop :=
  exists v, In v (spellings fieldName fullFieldRef)
            /\ includes (element (lit "fieldItem") v) m = true.

(** A block with the property [fieldName] and the field as a [value]
    after it, and without the three marks of a visibility property. *)
Definition fieldName_property (fieldName fullFieldRef m : str) : Prop :=
  includes (lit "<n>visibilityRule</n>") m = false
  /\ includes (lit "<n>criteria</n>") m = false
  /\ includes (lit "<n>filter</n>") m = false
  /\ exists v a x b,
       In v (spellings fieldName fullFieldRef)
       /\ m = a ++ lit "<n>fieldName</n>" ++ x ++ element (lit "value") v ++ b.

Definition flexi_block (fieldName fullFieldRef m : str) : Prop :=
  fieldItem_block fieldName fullFieldRef m
  \/ fieldName_property fieldName fullFieldRef m.

(** ** The matcher on the patterns of the sources *)

Section Engine.

Lemma starts_with_nil s : starts_with [] s = true.
Proof. by destruct s. Qed.

Lemma starts_with_app p s : starts_with p (p ++ s) = true.
Proof.
  induction p as [|c p IH]; simpl; [by destruct s|].
  by rewrite N.eqb_refl.
Qed.

Lemma starts_with_spec p s :
  starts_with p s = true <-> exists r, s = p ++ r.
Proof.
  split.
  - revert s. induction p as [|c p IH]; intros s H; [by exists s|].
    destruct s as [|d s]; [done|]. simpl in H.
    apply andb_true_iff in H as [Hc Hp]. apply N.eqb_eq in Hc as ->.
    destruct (IH _ Hp) as [r ->]. by exists r.
  - intros [r ->]. apply starts_with_app.
Qed.

Lemma starts_with_take p s :
  starts_with p s = true -> take (length p) s = p.
Proof.
  intros H. apply starts_with_spec in H as [r ->].
  by rewrite take_app_length.
Qed.

Lemma starts_with_length p s :
  starts_with p s = true -> length p <= length s.
Proof.
  intros H. apply starts_with_spec in H as [r ->].
  rewrite length_app. lia.
Qed.

Lemma indexOf_nil p : p <> [] -> indexOf p [] = None.
Proof. by destruct p. Qed.

Lemma indexOf_cons p d s :
  starts_with p (d :: s) = false ->
  indexOf p (d :: s) = S <$> indexOf p s.
Proof. intros H. simpl indexOf. by rewrite H. Qed.

Lemma indexOf_here p s : starts_with p s = true -> indexOf p s = Some 0.
Proof. intros H. destruct s; simpl; by rewrite H. Qed.

Lemma indexOf_Some p s i :
  indexOf p s = Some i ->
  starts_with p (drop i s) = true /\ i + length p <= length s
  /\ forall j, j < i -> starts_with p (drop j s) = false.
Proof.
  revert i. induction s as [|d s IH]; intros i H.
  - simpl in H. destruct (starts_with p []) eqn:E; [|done].
    injection H as <-. split; [done|]. split; [|lia].
    apply starts_with_length in E. simpl in *. lia.
  - destruct (starts_with p (d :: s)) eqn:E.
    + rewrite indexOf_here in H by done. injection H as <-.
      split; [done|]. split; [|lia].
      apply starts_with_length in E. simpl in *. lia.
    + rewrite indexOf_cons in H by done.
      destruct (indexOf p s) as [i'|] eqn:E'; [|done].
      injection H as <-. destruct (IH _ eq_refl) as (H1 & H2 & H3).
      split; [done|]. split; [simpl; lia|].
      intros [|j] Hj; [done|]. apply H3. lia.
Qed.

Lemma indexOf_None p s j : indexOf p s = None -> starts_with p (drop j s) = false.
Proof.
  revert j. induction s as [|d s IH]; intros j H.
  - simpl in H. destruct (starts_with p []) eqn:E; [done|].
    by rewrite drop_nil.
  - destruct (starts_with p (d :: s)) eqn:E.
    + by rewrite indexOf_here in H.
    + rewrite indexOf_cons in H by done.
      destruct (indexOf p s) eqn:E'; [done|].
      destruct j; [done|]. by apply IH.
Qed.

Lemma indexOf_first p s i :
  starts_with p (drop i s) = true -> i <= length s ->
  (forall j, j < i -> starts_with p (drop j s) = false) ->
  indexOf p s = Some i.
Proof.
  revert i. induction s as [|d s IH]; intros i H Hi Hlt.
  - simpl in Hi. assert (i = 0) as -> by lia. by apply indexOf_here.
  - destruct i as [|i]; [by apply indexOf_here|].
    rewrite indexOf_cons by (apply (Hlt 0); lia).
    rewrite (IH i); [done|done|simpl in Hi; lia|].
    intros j Hj. apply (Hlt (S j)). lia.
Qed.

Lemma indexOf_None_drop p s n : indexOf p s = None -> indexOf p (drop n s) = None.
Proof.
  intros H. destruct (indexOf p (drop n s)) as [i|] eqn:E; [|done].
  apply indexOf_Some in E as (E & _). rewrite drop_drop in E.
  by rewrite (indexOf_None p s _ H) in E.
Qed.

Lemma includes_spec p s :
  includes p s = true <-> exists a b, s = a ++ p ++ b.
Proof.
  unfold includes. split.
  - destruct (indexOf p s) as [i|] eqn:E; [|done]. intros _.
    apply indexOf_Some in E as (E & _).
    apply starts_with_spec in E as [r E].
    exists (take i s), r. by rewrite <- E, take_drop.
  - intros (a & b & ->).
    destruct (indexOf p (a ++ p ++ b)) eqn:E; [done|].
    apply (indexOf_None _ _ (length a)) in E.
    by rewrite drop_app_length, starts_with_app in E.
Qed.

(** A literal matches where the text starts with it. *)
Lemma exec_lits p r pos s k :
  exec false (lits p r) pos s k
  = if starts_with p s
    then exec false r (pos + length p) (drop (length p) s) k
    else None.
Proof.
  revert pos s. induction p as [|c p IH]; intros pos s.
  - simpl. by rewrite Nat.add_0_r.
  - destruct s as [|d s]; [done|].
    cbn [lits foldr exec starts_with length drop].
    change (foldr _ r p) with (lits p r).
    unfold char_eq, canonicalize. cbn [andb].
    destruct (c =? d)%N; [|done]. cbn [andb].
    rewrite IH. by replace (S pos + length p) with (pos + S (length p)) by lia.
Qed.

Lemma class_mem_any ic d : class_mem ic [CSpace; CNotSpace] d = true.
Proof. unfold class_mem. simpl. by destruct (is_space d). Qed.

(** [[\s\S]*?] hands every index from the current one on to its
    continuation, nearest first. *)
Lemma star_lazy_any ic fuel pos s k :
  length s < fuel ->
  star_loop (exec ic any_char) false fuel pos s k = first_from k pos s.
Proof.
  revert pos s. induction fuel as [|fuel IH]; intros pos s Hf; [lia|].
  cbn [star_loop]. destruct s as [|d s].
  - simpl. by destruct (k pos []).
  - cbn [first_from]. destruct (k pos (d :: s)); [done|].
    cbn [exec any_char]. rewrite class_mem_any. cbn [xorb].
    replace (S pos =? pos) with false by (symmetry; apply Nat.eqb_neq; lia).
    apply IH. simpl in Hf. lia.
Qed.

Lemma first_from_ext {A} (k1 k2 : nat -> str -> option A) pos s :
  (forall p t, k1 p t = k2 p t) -> first_from k1 pos s = first_from k2 pos s.
Proof.
  intros H. revert pos. induction s as [|d s IH]; intros pos; simpl;
    rewrite H; [done|]. by rewrite IH.
Qed.

Lemma first_from_indexOf {A} p (f : nat -> str -> A) pos s :
  first_from (fun pos' s' => if starts_with p s' then Some (f pos' s') else None)
             pos s
  = (fun i => f (pos + i) (drop i s)) <$> indexOf p s.
Proof.
  revert pos. induction s as [|d s IH]; intros pos.
  - simpl. destruct (starts_with p []); [|done]. simpl. by rewrite Nat.add_0_r.
  - cbn [first_from]. destruct (starts_with p (d :: s)) eqn:E.
    + rewrite indexOf_here by done. simpl. by rewrite Nat.add_0_r.
    + rewrite indexOf_cons by done. rewrite IH.
      destruct (indexOf p s) as [i|]; [|done]. simpl.
      by rewrite Nat.add_succ_r.
Qed.

Lemma find_match_first_from ic r pos s :
  find_match ic r pos s
  = first_from (fun p t => (fun e => (p, e)) <$> exec ic r p t accept) pos s.
Proof.
  revert pos. induction s as [|d s IH]; intros pos; simpl.
  - by destruct (exec ic r pos [] accept).
  - destruct (exec ic r pos (d :: s) accept); [done|]. apply IH.
Qed.

(** A block pattern at one index. *)
Lemma exec_block A B pos s :
  exec false (block_regex A B) pos s accept
  = if starts_with A s
    then (fun j => pos + length A + j + length B)
           <$> indexOf B (drop (length A) s)
    else None.
Proof.
  unfold block_regex. rewrite exec_lits.
  destruct (starts_with A s); [|done].
  cbn [exec]. rewrite star_lazy_any by lia.
  rewrite (first_from_ext _
    (fun p t => if starts_with B t then Some (p + length B) else None)).
  - rewrite (first_from_indexOf B (fun p _ => p + length B)). done.
  - intros p t. rewrite exec_lits. by destruct (starts_with B t).
Qed.

(** The leftmost block: the first opening text, then the nearest closing
    text after it. *)
Lemma find_match_block A B pos s :
  A <> [] ->
  find_match false (block_regex A B) pos s
  = match indexOf A s with
    | None => None
    | Some i =>
        match indexOf B (drop (i + length A) s) with
        | None => None
        | Some j => Some (pos + i, pos + i + length A + j + length B)
        end
    end.
Proof.
  intros HA. revert pos. induction s as [|d s IH]; intros pos.
  - cbn [find_match]. rewrite exec_block.
    destruct A; [done|]. done.
  - cbn [find_match]. rewrite exec_block.
    destruct (starts_with A (d :: s)) eqn:E.
    + rewrite (indexOf_here A) by done. cbn [Nat.add].
      destruct (indexOf B (drop (length A) (d :: s))) as [j|] eqn:EB.
      * simpl. do 2 f_equal; lia.
      * simpl. rewrite IH.
        destruct (indexOf A s) as [i|]; [|done].
        replace (drop (i + length A) s)
          with (drop (S i) (drop (length A) (d :: s))).
        { by rewrite indexOf_None_drop. }
        rewrite drop_drop. simpl.
        replace (length A + S i) with (S (i + length A)) by lia. done.
    + rewrite indexOf_cons by done. rewrite IH.
      destruct (indexOf A s) as [i|]; [|done]. simpl.
      destruct (indexOf B (drop (i + length A) s)); [|done].
      do 2 f_equal; lia.
Qed.

(** The pieces a block pattern cuts a text into. *)
Lemma segments_from_block A B fuel pos s :
  A <> [] ->
  segments_from false (block_regex A B) fuel pos s = cut A B fuel s.
Proof.
  intros HA. revert pos s. induction fuel as [|fuel IH]; intros pos s; [done|].
  cbn [segments_from cut]. rewrite find_match_block by done.
  destruct (indexOf A s) as [i|]; [|done].
  destruct (indexOf B (drop (i + length A) s)) as [j|]; [|done].
  assert (0 < length A) by (destruct A; [done|simpl; lia]).
  replace (pos + i + length A + j + length B =? pos + i) with false
    by (symmetry; apply Nat.eqb_neq; lia).
  replace (pos + i - pos) with i by lia.
  replace (pos + i + length A + j + length B - (pos + i))
    with (length A + j + length B) by lia.
  rewrite IH, drop_drop.
  by replace (i + (length A + j + length B))
       with (i + length A + j + length B) by lia.
Qed.

End Engine.

(** ** [escapeRegex] and the patterns built from it *)

Section Escape.

Lemma find_match_ge ic r pos s i e :
  find_match ic r pos s = Some (i, e) -> pos <= i.
Proof.
  revert pos. induction s as [|d s IH]; intros pos; simpl.
  - destruct (exec ic r pos [] accept); [|done]. intros [= <- <-]. lia.
  - destruct (exec ic r pos (d :: s) accept).
    + intros [= <- <-]. lia.
    + intros H. apply IH in H. lia.
Qed.

(** Where the regex does not match at the first unit, that unit goes to
    the text before the first match. *)
Lemma segments_from_skip ic r fuel pos d s :
  exec ic r pos (d :: s) accept = None ->
  segments_from ic r (S fuel) pos (d :: s)
  = push_text d (segments_from ic r (S fuel) (S pos) s).
Proof.
  intros H. cbn [segments_from]. cbn [find_match]. rewrite H.
  destruct (find_match ic r (S pos) s) as [[i e]|] eqn:E; [|done].
  pose proof (find_match_ge _ _ _ _ _ _ E) as Hi.
  replace (i - pos) with (S (i - S pos)) by lia. cbn [take drop].
  by destruct (e =? i).
Qed.

Lemma render_push_text f d ps :
  ps <> [] -> render f (push_text d ps) = d :: render f ps.
Proof. destruct ps as [|[t|m] ps]; [done|done|done]. Qed.

Lemma segments_from_nonempty ic r fuel pos s :
  segments_from ic r fuel pos s <> [].
Proof.
  destruct fuel; [done|]. simpl.
  destruct (find_match ic r pos s) as [[i e]|]; [|done].
  by destruct (e =? i).
Qed.

(** A one-unit class, replaced through [f] wherever it matches. *)
Lemma render_segments_class atoms f fuel pos s :
  length s < fuel ->
  render f (segments_from false (Seq (CharClass false atoms) Empty) fuel pos s)
  = flat_map (fun c => if class_mem false atoms c then f [c] else [c]) s.
Proof.
  revert fuel pos. induction s as [|d s IH]; intros fuel pos Hf.
  - destruct fuel; [lia|]. done.
  - destruct fuel as [|fuel]; [lia|]. simpl in Hf.
    destruct (class_mem false atoms d) eqn:E.
    + cbn [segments_from find_match exec]. rewrite E. cbn [xorb accept].
      replace (S pos =? pos) with false by (symmetry; apply Nat.eqb_neq; lia).
      replace (pos - pos) with 0 by lia.
      replace (S pos - pos) with 1 by lia.
      cbn [take drop]. unfold render in *. cbn [map concat flat_map app].
      rewrite IH by lia. rewrite E. done.
    + rewrite segments_from_skip by (simpl; by rewrite E).
      rewrite render_push_text by apply segments_from_nonempty.
      rewrite IH by lia. simpl. by rewrite E.
Qed.

Lemma escape_class :
  regex_literal "[.*+?^${}()|[\]\\]"
  = Seq (CharClass false (map CChar syntax_characters)) Empty.
Proof. reflexivity. Qed.

Lemma class_mem_chars l c :
  class_mem false (map CChar l) c = existsb (N.eqb c) l.
Proof.
  unfold class_mem. rewrite orb_false_r.
  induction l as [|x l IH]; [done|]. simpl. by rewrite IH.
Qed.

(** [escapeRegex] puts a backslash before each syntax character and
    leaves every other unit alone. *)
Lemma escapeRegex_flat_map s : escapeRegex s = flat_map escape_unit s.
Proof.
  unfold escapeRegex, replace_map, segments. rewrite escape_class.
  change (concat (map ?g ?ps)) with (render (fun m => ch "\" :: m) ps).
  rewrite render_segments_class by lia.
  apply flat_map_ext. intros c. unfold escape_unit, is_syntax_character.
  by rewrite class_mem_chars.
Qed.

Lemma escapeRegex_app a b : escapeRegex (a ++ b) = escapeRegex a ++ escapeRegex b.
Proof. rewrite !escapeRegex_flat_map. apply flat_map_app. Qed.

Lemma escapeRegex_plain s :
  forallb (fun c => negb (is_syntax_character c)) s = true ->
  escapeRegex s = s.
Proof.
  rewrite escapeRegex_flat_map. induction s as [|c s IH]; [done|].
  simpl. intros H. apply andb_true_iff in H as [Hc Hs].
  unfold escape_unit at 1. apply negb_true_iff in Hc. rewrite Hc.
  simpl. by rewrite IH.
Qed.

End Escape.

(** ** Parsing an escaped text *)

Section ParseEscaped.

Lemma syntax_character_cases c :
  is_syntax_character c = true ->
  c ∈ [46; 42; 43; 63; 94; 36; 123; 125; 40; 41; 124; 91; 93; 92]%N.
Proof.
  unfold is_syntax_character. intros H. apply existsb_exists in H as (x & Hx & E).
  apply N.eqb_eq in E as ->. by apply list_elem_of_In.
Qed.

Lemma parse_atom_escaped c fuel s :
  is_syntax_character c = true ->
  parse_atom (S fuel) (ch "\" :: c :: s) = Some (Char c, s).
Proof.
  intros H. apply syntax_character_cases in H.
  repeat (apply elem_of_cons in H as [->|H]; [reflexivity|]).
  by apply elem_of_nil in H.
Qed.

Lemma plain_unit c :
  is_syntax_character c = false ->
  Forall (fun a => is_ch a c = false)
    ["."; "*"; "+"; "?"; "^"; "$"; "{"; "}"; "("; ")"; "|"; "["; "]"; "\"]%char.
Proof.
  unfold is_syntax_character. cbn [existsb syntax_characters lit map
    list_ascii_of_string]. intros H.
  repeat (apply orb_false_iff in H as [? H]).
  repeat constructor; assumption.
Qed.

Lemma parse_atom_plain c fuel s :
  is_syntax_character c = false ->
  parse_atom (S fuel) (c :: s) = Some (Char c, s).
Proof.
  intros H. apply plain_unit in H.
  repeat match goal with
         | H : Forall _ (_ :: _) |- _ => apply Forall_cons in H as [? H]
         end.
  cbn [parse_atom].
  repeat match goal with E : is_ch _ c = false |- _ => rewrite E; clear E end.
  done.
Qed.

Lemma parse_alt_plain_head c fuel s :
  is_syntax_character c = false ->
  parse_alt (S fuel) (c :: s)
  = '(a, rest) ← parse_atom fuel (c :: s);
    let '(t, rest') := quantified a rest in
    '(r, rest'') ← parse_alt fuel rest';
    Some (Seq t r, rest'').
Proof.
  intros H. apply plain_unit in H.
  repeat match goal with
         | H : Forall _ (_ :: _) |- _ => apply Forall_cons in H as [? H]
         end.
  cbn [parse_alt].
  repeat match goal with E : is_ch _ c = false |- _ => rewrite E; clear E end.
  done.
Qed.

(** No quantifier follows where the text goes on with an escaped unit. *)
Lemma quantified_escaped a s :
  quantified a (flat_map escape_unit s) = (a, flat_map escape_unit s).
Proof.
  destruct s as [|c s]; [done|]. cbn [flat_map].
  assert (escape_unit c
          = if is_syntax_character c then [ch "\"; c] else [c]) as -> by done.
  destruct (is_syntax_character c) eqn:E.
  - cbn [app quantified]. by destruct (is_ch "?" c).
  - apply plain_unit in E.
    repeat match goal with
           | H : Forall _ (_ :: _) |- _ => apply Forall_cons in H as [? H]
           end.
    cbn [app quantified].
    assert (forall g t, (if is_ch "*" c then (Star g a, t)
                         else if is_ch "+" c then (Seq a (Star g a), t)
                         else if is_ch "?" c
                              then (if g then Disj a Empty else Disj Empty a, t)
                              else (a, c :: flat_map escape_unit s))
                        = (a, c :: flat_map escape_unit s)) as Hq.
    { intros g t.
      repeat match goal with E : is_ch _ c = false |- _ => rewrite E; clear E end.
      done. }
    destruct (flat_map escape_unit s) as [|l t] eqn:Es; [apply Hq|].
    destruct (is_ch "?" l); apply Hq.
Qed.

Lemma parse_alt_escaped s fuel :
  length s < fuel ->
  parse_alt fuel (flat_map escape_unit s) = Some (lits s Empty, []).
Proof.
  revert fuel. induction s as [|c s IH]; intros fuel Hf.
  - destruct fuel; [lia|]. done.
  - destruct fuel as [|[|fuel]]; [lia|simpl in Hf; lia|]. simpl in Hf.
    cbn [flat_map].
    assert (escape_unit c
            = if is_syntax_character c then [ch "\"; c] else [c]) as -> by done.
    destruct (is_syntax_character c) eqn:E.
    + cbn [app]. change (parse_alt (S (S fuel)) (ch "\" :: c :: ?x))
        with ('(a, rest) ← parse_atom (S fuel) (ch "\" :: c :: x);
              let '(t, rest') := quantified a rest in
              '(r, rest'') ← parse_alt (S fuel) rest';
              Some (Seq t r, rest'')).
      rewrite parse_atom_escaped by done. cbn [mbind option_bind].
      rewrite quantified_escaped, IH by lia. done.
    + cbn [app]. rewrite parse_alt_plain_head, parse_atom_plain by done.
      cbn [mbind option_bind].
      rewrite quantified_escaped, IH by lia. done.
Qed.

Lemma escape_length s : length s <= length (flat_map escape_unit s).
Proof.
  induction s as [|c s IH]; [done|]. cbn [flat_map]. rewrite length_app.
  unfold escape_unit at 1. destruct (is_syntax_character c); simpl; lia.
Qed.

(** The pattern text [escapeRegex(s)] is the pattern of the literal [s]. *)
Lemma RegExp_escapeRegex s : RegExp (escapeRegex s) = Some (lits s Empty).
Proof.
  unfold RegExp. rewrite escapeRegex_flat_map.
  pose proof (escape_length s) as Hl.
  replace (4 * length (flat_map escape_unit s) + 4)
    with (S (4 * length (flat_map escape_unit s) + 3)) by lia.
  cbn [parse_disj]. rewrite parse_alt_escaped by lia. done.
Qed.

(** A literal pattern matches at the indices where the text starts with
    the literal, and nowhere else. *)
Lemma match_at_lits p t i :
  match_at false (lits p Empty) t i
  = if starts_with p (drop i t) then Some (i + length p) else None.
Proof. unfold match_at. rewrite exec_lits. by destruct (starts_with p _). Qed.

Lemma test_lits p t : test false (lits p Empty) t = includes p t.
Proof.
  unfold test, includes. rewrite find_match_first_from.
  rewrite (first_from_ext _
    (fun pos t' => if starts_with p t'
                   then Some ((fun q _ => (q, q + length p)) pos t') else None)).
  - rewrite first_from_indexOf. by destruct (indexOf p t).
  - intros q t'. rewrite exec_lits. by destruct (starts_with p t').
Qed.

End ParseEscaped.

(** ** [escapeRegex] neutralizes every metacharacter *)

Section EscapeRegexLiteral.

Lemma plain_app a b : plain (a ++ b) = plain a && plain b.
Proof. apply forallb_app. Qed.

(** The pattern text the rewriters build around an escaped name is the
    escaped text of the element. *)
Lemma element_pattern tag name :
  plain tag = true ->
  lit "<" ++ tag ++ lit ">" ++ escapeRegex name ++ lit "</" ++ tag ++ lit ">"
  = escapeRegex (element tag name).
Proof.
  intros Ht. unfold element. rewrite !escapeRegex_app.
  by rewrite !(escapeRegex_plain tag), !(escapeRegex_plain (lit _)).
Qed.

Lemma RegExp_element tag name :
  plain tag = true ->
  RegExp (lit "<" ++ tag ++ lit ">" ++ escapeRegex name ++ lit "</" ++ tag
            ++ lit ">")
  = Some (lits (element tag name) Empty).
Proof. intros Ht. by rewrite element_pattern, RegExp_escapeRegex. Qed.

(** C10.  For every text [s], the pattern [escapeRegex(s)] is accepted by
    [new RegExp] and the regex matches a text [t] at index [i] exactly when
    [s] occurs literally at [i], the match being that occurrence; so
    [test] is [includes].  Hence a rewriter pattern
    [<tag>escapeRegex(name)</tag>] matches exactly the occurrences of the
    literal element [<tag>name</tag>], whatever characters [name] holds. *)
Theorem escapeRegex_neutralizes (s : str) :
  (exists r,
      RegExp (escapeRegex s) = Some r
      /\ (forall t i,
             match_at false r t i
             = if starts_with s (drop i t) then Some (i + length s) else None)
      /\ (forall t, test false r t = includes s t))
  /\ (forall tag,
        plain tag = true ->
        exists r,
          RegExp (lit "<" ++ tag ++ lit ">" ++ escapeRegex s ++ lit "</" ++ tag
                    ++ lit ">") = Some r
          /\ (forall t i,
                 match_at false r t i
                 = if starts_with (element tag s) (drop i t)
                   then Some (i + length (element tag s)) else None)
          /\ (forall t, test false r t = includes (element tag s) t)).
Proof.
  split.
  - exists (lits s Empty). split; [apply RegExp_escapeRegex|].
    split; [apply match_at_lits|apply test_lits].
  - intros tag Ht. exists (lits (element tag s) Empty).
    split; [by apply RegExp_element|].
    split; [apply match_at_lits|apply test_lits].
Qed.

Lemma escapeRegex_neutralizes_witness :
  plain (lit "field") = true
  /\ exists r,
      RegExp (lit "<field>" ++ escapeRegex (lit "a.b$") ++ lit "</field>")
      = Some r
      /\ match_at false r (lit "x<field>a.b$</field>") 1 = Some 20
      /\ match_at false r (lit "x<field>aXb$</field>") 1 = None.
Proof.
  split; [reflexivity|].
  destruct (proj2 (escapeRegex_neutralizes (lit "a.b$")) (lit "field") eq_refl)
    as (r & Hr & Hm & _).
  exists r. split; [exact Hr|]. split; rewrite Hm; reflexivity.
Defined.

End EscapeRegexLiteral.

(** ** [sanitizeApiName] *)

Section Sanitize.

Lemma star_loop_consumes P body greedy fuel :
  consumes P body -> consumes P (star_loop body greedy fuel).
Proof.
  intros Hb. induction fuel as [|fuel IH]; intros pos s k e H.
  - exists 0. rewrite Nat.add_0_r. split; [lia|]. by split.
  - cbn [star_loop] in H.
    assert (k pos s = Some e
            \/ body pos s (fun pos' s' =>
                 if pos' =? pos then None
                 else star_loop body greedy fuel pos' s' k) = Some e) as [Hk|Ha].
    { destruct greedy.
      - destruct (body pos s _) eqn:E; [right; congruence|by left].
      - destruct (k pos s) eqn:E; [by left|by right]. }
    + exists 0. rewrite Nat.add_0_r. split; [lia|]. by split.
    + apply Hb in Ha as (n1 & Hn1 & HP1 & Hc).
      destruct (pos + n1 =? pos); [done|].
      apply IH in Hc as (n2 & Hn2 & HP2 & Hk).
      rewrite length_drop in Hn2.
      exists (n1 + n2). split; [lia|]. split.
      * rewrite <- (take_drop n1 s) at 1.
        rewrite take_app, length_take, forallb_app.
        replace (n1 + n2 - n1 `min` length s) with n2 by lia.
        rewrite take_take. replace ((n1 + n2) `min` n1) with n1 by lia.
        by rewrite HP1, HP2.
      * rewrite drop_drop in Hk. by rewrite Nat.add_assoc.
Qed.

Lemma exec_consumes P r : accepts_only P r -> consumes P (exec false r).
Proof.
  induction r as [|c|inv atoms| | |r1 IH1 r2 IH2|r1 IH1 r2 IH2|g r1 IH1];
    intros Hr pos s k e H; cbn [exec accepts_only] in *.
  - exists 0. rewrite Nat.add_0_r. split; [lia|]. by split.
  - destruct s as [|d s]; [done|]. unfold char_eq, canonicalize in H.
    cbn [andb] in H. destruct (c =? d)%N eqn:E; [|done].
    apply N.eqb_eq in E as <-. exists 1. split; [simpl; lia|].
    split; [simpl; by rewrite Hr|]. by rewrite Nat.add_1_r.
  - destruct s as [|d s]; [done|].
    destruct (xorb inv (class_mem false atoms d)) eqn:E; [|done].
    exists 1. split; [simpl; lia|].
    split; [simpl; by rewrite (Hr d E)|]. by rewrite Nat.add_1_r.
  - destruct (pos =? 0); [|done].
    exists 0. rewrite Nat.add_0_r. split; [lia|]. by split.
  - destruct s; [|done].
    exists 0. rewrite Nat.add_0_r. split; [simpl; lia|]. by split.
  - destruct Hr as [H1 H2].
    apply (IH1 H1) in H as (n1 & Hn1 & HP1 & Hc).
    apply (IH2 H2) in Hc as (n2 & Hn2 & HP2 & Hk).
    rewrite length_drop in Hn2.
    exists (n1 + n2). split; [lia|]. split.
    + rewrite <- (take_drop n1 s) at 1.
      rewrite take_app, length_take, forallb_app.
      replace (n1 + n2 - n1 `min` length s) with n2 by lia.
      rewrite take_take. replace ((n1 + n2) `min` n1) with n1 by lia.
      by rewrite HP1, HP2.
    + rewrite drop_drop in Hk. by rewrite Nat.add_assoc.
  - destruct Hr as [H1 H2].
    destruct (exec false r1 pos s k) eqn:E.
    + injection H as ->. by apply (IH1 H1) in E.
    + by apply (IH2 H2) in H.
  - by apply (star_loop_consumes P _ _ _ (IH1 Hr)) in H.
Qed.

Lemma star_loop_S body greedy fuel pos s k :
  star_loop body greedy (S fuel) pos s k
  = let again :=
      body pos s (fun pos' s' =>
        if pos' =? pos then None else star_loop body greedy fuel pos' s' k) in
    if greedy
    then match again with Some e => Some e | None => k pos s end
    else match k pos s with Some e => Some e | None => again end.
Proof. done. Qed.

Lemma exec_class_cons ic inv atoms pos d s k :
  exec ic (CharClass inv atoms) pos (d :: s) k
  = if xorb inv (class_mem ic atoms d) then k (S pos) s else None.
Proof. done. Qed.

(** A greedy class repetition over a text made of the class goes to the
    end first. *)
Lemma star_greedy_all atoms fuel pos s k e :
  length s < fuel ->
  forallb (class_mem false atoms) s = true ->
  k (pos + length s) [] = Some e ->
  star_loop (exec false (CharClass false atoms)) true fuel pos s k = Some e.
Proof.
  revert fuel pos. induction s as [|d s IH]; intros fuel pos Hf Hs Hk.
  - destruct fuel; [simpl in Hf; lia|]. simpl. by rewrite Nat.add_0_r in Hk.
  - destruct fuel as [|fuel]; [lia|]. simpl in Hf, Hs.
    apply andb_true_iff in Hs as [Hd Hs].
    rewrite star_loop_S. cbv zeta. rewrite exec_class_cons, Hd. cbn [xorb].
    replace (S pos =? pos) with false by (symmetry; apply Nat.eqb_neq; lia).
    rewrite (IH fuel (S pos)); [done|lia|done|].
    by replace (S pos + length s) with (pos + length (d :: s)) by (simpl; lia).
Qed.

Lemma find_match_anchored r pos s :
  find_match false (Seq AssertStart r) (S pos) s = None.
Proof. revert pos. induction s as [|d s IH]; intros pos; [done|]. apply IH. Qed.

Lemma validPattern_tree :
  validPattern
  = Seq AssertStart
      (Seq (CharClass false letters)
         (Seq (Star true (CharClass false word_units))
            (Seq (Disj (Seq (Char 95)
                          (Seq (Char 95)
                             (Seq (Seq (CharClass false letters)
                                       (Star true (CharClass false letters)))
                                  Empty)))
                       Empty)
               (Seq AssertEnd Empty)))).
Proof. reflexivity. Qed.

Lemma class_mem_letters c : class_mem false letters c = is_letter c.
Proof.
  unfold class_mem, letters, is_letter, is_upper, is_lower. simpl.
  rewrite !orb_false_r. apply orb_comm.
Qed.

Lemma class_mem_word_units c : class_mem false word_units c = is_word c.
Proof.
  unfold class_mem, word_units, is_word, is_letter, is_digit, is_upper,
    is_lower. simpl.
  rewrite !orb_false_r.
  destruct ((97 <=? c)%N && (c <=? 122)%N), ((65 <=? c)%N && (c <=? 90)%N);
    simpl; try done.
Qed.

Lemma is_letter_word c : is_letter c = true -> is_word c = true.
Proof. unfold is_word. by intros ->. Qed.

Lemma forallb_pointwise {A} (f g : A -> bool) (l : list A) :
  (forall x, f x = g x) -> forallb f l = forallb g l.
Proof. intros H. induction l as [|x l IH]; [done|]. simpl. by rewrite H, IH. Qed.

Lemma forallb_take_drop {A} (P : A -> bool) n m (l : list A) :
  forallb P (take n l) = true ->
  forallb P (take m (drop n l)) = true ->
  drop m (drop n l) = [] ->
  forallb P l = true.
Proof.
  intros H1 H2 H3.
  rewrite <- (take_drop n l), forallb_app, H1.
  by rewrite <- (take_drop m (drop n l)), forallb_app, H2, H3.
Qed.

(** The pattern accepts exactly the names of the shape [valid_name]. *)
Lemma test_validPattern t : test false validPattern t = valid_name t.
Proof.
  unfold test. rewrite validPattern_tree.
  destruct t as [|c rest]; [done|].
  cbn [find_match]. rewrite find_match_anchored.
  change (exec false (Seq AssertStart ?r) 0 ?s ?k) with (exec false r 0 s k).
  change (exec false (Seq (CharClass false letters) ?r) 0 (c :: rest) ?k)
    with (if xorb false (class_mem false letters c)
          then exec false r 1 rest k else None).
  rewrite class_mem_letters. cbn [xorb valid_name].
  destruct (is_letter c) eqn:Ec; cbn [andb]; [|done].
  set (opt := Disj _ Empty).
  change (exec false (Seq (Star true ?w) (Seq opt ?r)) 1 rest accept)
    with (star_loop (exec false w) true (S (length rest)) 1 rest
            (fun p s => exec false opt p s
                          (fun p' s' => exec false r p' s' accept))).
  destruct (forallb is_word rest) eqn:Ew.
  - rewrite (star_greedy_all _ _ _ _ _ (1 + length rest)); [done|lia| |done].
    rewrite <- Ew. apply forallb_pointwise. intros d.
    apply class_mem_word_units.
  - destruct (star_loop _ true _ 1 rest _) as [e|] eqn:E; [|done].
    exfalso.
    apply (star_loop_consumes is_word) in E as (n1 & Hn1 & HP1 & Hc).
    2:{ apply (exec_consumes is_word (CharClass false word_units)).
        intros d. cbn [xorb]. by rewrite class_mem_word_units. }
    apply (exec_consumes is_word opt) in Hc as (n2 & Hn2 & HP2 & Hk).
    2:{ subst opt. cbn [accepts_only]. repeat split; try done.
        all: intros d; cbn [xorb]; rewrite class_mem_letters;
          apply is_letter_word. }
    cbn [exec] in Hk. destruct (drop n2 (drop n1 rest)) eqn:Ed; [|done].
    by rewrite (forallb_take_drop is_word n1 n2 rest) in Ew.
Qed.

(** [sanitizeApiName] in one equation: the trimmed name when it has the
    shape of a name and at most 80 units, [null] otherwise. *)
Lemma sanitizeApiName_spec name :
  sanitizeApiName name
  = if valid_name (trim name) && (length (trim name) <=? 80)
    then Some (trim name) else None.
Proof.
  unfold sanitizeApiName. case_bool_decide as Hn.
  - by subst name.
  - destruct (trim name) as [|c rest] eqn:Et; [done|].
    cbn [length Nat.eqb]. rewrite test_validPattern.
    destruct (valid_name (c :: rest)); [|done]. cbn [negb andb].
    destruct (80 <? S (length rest)) eqn:E.
    + apply Nat.ltb_lt in E.
      by replace (S (length rest) <=? 80) with false
        by (symmetry; apply Nat.leb_gt; lia).
    + apply Nat.ltb_ge in E.
      by replace (S (length rest) <=? 80) with true
        by (symmetry; apply Nat.leb_le; lia).
Qed.

(** C7, as amended.  [sanitizeApiName] rejects the empty string,
    [123Field], [Field Name] and every string whose trimmed form is longer
    than 80 units, so every string of length 90 without surrounding white
    space; it accepts [Account] and [Custom_Field__c] unchanged.  In
    general it returns the trimmed name when that is a letter followed by
    letters, digits and underscores (the optional [__suffix] is made of
    these) and has at most 80 units, and rejects the name otherwise. *)
Theorem sanitizeApiName_accepts_names :
  sanitizeApiName [] = None
  /\ sanitizeApiName (lit "123Field") = None
  /\ sanitizeApiName (lit "Field Name") = None
  /\ (forall s, 80 < length (trim s) -> sanitizeApiName s = None)
  /\ (forall s, length s = 90 -> trim s = s -> sanitizeApiName s = None)
  /\ sanitizeApiName (lit "Account") = Some (lit "Account")
  /\ sanitizeApiName (lit "Custom_Field__c") = Some (lit "Custom_Field__c")
  /\ (forall s,
         sanitizeApiName s
         = if valid_name (trim s) && (length (trim s) <=? 80)
           then Some (trim s) else None).
Proof.
  assert (forall s, 80 < length (trim s) -> sanitizeApiName s = None) as Hlong.
  { intros s Hs. rewrite sanitizeApiName_spec.
    replace (length (trim s) <=? 80) with false
      by (symmetry; apply Nat.leb_gt; lia).
    by rewrite andb_false_r. }
  do 3 (split; [by vm_compute|]).
  split; [exact Hlong|].
  split; [intros s Hs Ht; apply Hlong; rewrite Ht; lia|].
  do 2 (split; [by vm_compute|]).
  apply sanitizeApiName_spec.
Qed.

End Sanitize.

Lemma sanitizeApiName_accepts_names_witness :
  length long_name = 90 /\ trim long_name = long_name
  /\ sanitizeApiName long_name = None.
Proof.
  split; [reflexivity|]. split; [by vm_compute|].
  destruct sanitizeApiName_accepts_names as (_ & _ & _ & _ & H & _).
  apply (H long_name); [reflexivity|by vm_compute].
Defined.

(** C7 as stated fails: a string of length 90 is accepted when trimming
    leaves a name of at most 80 units. *)
Lemma sanitizeApiName_accepts_padded_name :
  length padded_name = 90
  /\ sanitizeApiName padded_name = Some (lit "Account").
Proof. split; by vm_compute. Qed.

(** ** The history log *)

Section History.
Context {C : Type}.
Implicit Types (w : World C) (h : list HistoryEntry).

Lemma getHistory_globalState w : getHistory w = default [] (globalState w).
Proof.
  unfold getHistory. rewrite <- (map_id (default [] (globalState w))) at 2.
  apply map_ext. by intros [].
Qed.

Lemma getHistory_saveHistory h w : getHistory (saveHistory h w) = h.
Proof. by rewrite getHistory_globalState. Qed.

Lemma maxItems_saveHistory h w : maxItems (saveHistory h w) = maxItems w.
Proof. done. Qed.

(** One [addEntry]: the stamped entry goes in front and the list is cut at
    the maximum, when that is positive. *)
Lemma getHistory_addEntry fresh entry w :
  (1 <= maxItems w)%Z ->
  getHistory (addEntry fresh entry w)
  = take (Z.to_nat (maxItems w)) (stamp (fresh, entry) :: getHistory w).
Proof.
  intros Hm. unfold addEntry. rewrite getHistory_saveHistory.
  change {| id := Some fresh; type := type entry;
            timestamp := timestamp entry; details := details entry |}
    with (stamp (fresh, entry)).
  destruct (maxItems w <? _)%Z eqn:E.
  - unfold splice. by replace (maxItems w <? 0)%Z with false by lia.
  - rewrite take_ge; [done|]. apply Z.ltb_ge in E. lia.
Qed.

Lemma maxItems_addEntry fresh entry w :
  maxItems (addEntry fresh entry w) = maxItems w.
Proof. done. Qed.

Lemma take_app_take {A} n (a b : list A) :
  take n (a ++ take n b) = take n (a ++ b).
Proof.
  rewrite !take_app. f_equal. rewrite take_take. f_equal. lia.
Qed.

Lemma maxItems_addEntries es w : maxItems (addEntries es w) = maxItems w.
Proof.
  revert w. induction es as [|x es IH]; intros w; [done|].
  unfold addEntries in *. simpl. by rewrite IH.
Qed.

Lemma addEntries_snoc es x w :
  addEntries (es ++ [x]) w = addEntry (fst x) (snd x) (addEntries es w).
Proof. unfold addEntries. by rewrite foldl_app. Qed.

(** A run of [addEntry] calls: the entries most recent first, before the
    old ones, cut at the maximum. *)
Lemma getHistory_addEntries es w :
  (1 <= maxItems w)%Z -> es <> [] ->
  getHistory (addEntries es w)
  = take (Z.to_nat (maxItems w)) (rev (map stamp es) ++ getHistory w).
Proof.
  intros Hm. induction es as [|x es IH] using rev_ind; [done|]. intros _.
  rewrite addEntries_snoc, getHistory_addEntry
    by (by rewrite maxItems_addEntries).
  rewrite maxItems_addEntries, map_app, rev_app_distr.
  destruct x as [fresh entry]. cbn [fst snd map rev app].
  destruct es as [|y es]; [done|].
  rewrite IH by done.
  apply (take_app_take _ [stamp (fresh, entry)]).
Qed.

(** C8, as amended.  For every starting history and every configured
    maximum of at least one, after [maxHistoryItems + 5] calls of
    [addEntry] the history has exactly [maxHistoryItems] entries, its head
    is the entry added last, and it holds the entries added, most recent
    first, before the older ones, cut at the maximum; and after any single
    [addEntry] the history is the new entry before the old ones, cut at
    the maximum, so never longer than it. *)
Theorem addEntry_truncates (w : World C) (n : Z)
    (es : list (str * HistoryEntry)) :
  cfg_maxHistoryItems (config w) = Some n ->
  (1 <= n)%Z ->
  length es = Z.to_nat n + 5 ->
  let h := getHistory (addEntries es w) in
  length h = Z.to_nat n
  /\ head h = stamp <$> last es
  /\ h = take (Z.to_nat n) (rev (map stamp es) ++ getHistory w)
  /\ (forall fresh entry w',
         maxItems w' = n ->
         getHistory (addEntry fresh entry w')
         = take (Z.to_nat n) (stamp (fresh, entry) :: getHistory w')
         /\ length (getHistory (addEntry fresh entry w')) <= Z.to_nat n).
Proof.
  intros Hc Hn Hl h.
  assert (maxItems w = n) as Hm.
  { unfold maxItems. rewrite Hc. by replace (n =? 0)%Z with false by lia. }
  assert (h = take (Z.to_nat n) (rev (map stamp es) ++ getHistory w)) as Hh.
  { subst h. rewrite getHistory_addEntries, Hm; [done|lia|].
    intros ->. simpl in Hl. lia. }
  split; [|split; [|split; [exact Hh|]]].
  - rewrite Hh, length_take, length_app, length_rev, length_map. lia.
  - rewrite Hh. destruct es as [|y es _] using rev_ind; [simpl in Hl; lia|].
    rewrite map_app, rev_app_distr, last_snoc. simpl.
    by replace (Z.to_nat n) with (S (Z.to_nat n - 1)) by lia.
  - intros fresh entry w' Hw'. rewrite getHistory_addEntry by lia.
    rewrite Hw'. split; [done|]. rewrite length_take. lia.
Qed.

End History.

Lemma addEntry_truncates_witness :
  let w := sample_world (C := str) None true (Some 1%Z) ∅
             (Some [sample_entry 0 None]) in
  length (getHistory (addEntries six_entries w)) = 1
  /\ head (getHistory (addEntries six_entries w))
     = Some (stamp (lit "id", sample_entry 6 None)).
Proof.
  intros w.
  destruct (addEntry_truncates w 1 six_entries eq_refl ltac:(lia) eq_refl)
    as (H1 & H2 & _).
  split; [exact H1|exact H2].
Defined.

(** C8 as stated fails: with [maxHistoryItems] configured as [0] the
    maximum in force is [50], so five insertions leave five entries. *)
Lemma addEntry_zero_maximum :
  let w := sample_world (C := str) None true (Some 0%Z) ∅ None in
  cfg_maxHistoryItems (config w) = Some 0%Z
  /\ length (getHistory (addEntries (take 5 six_entries) w)) = 5
  /\ length (getHistory (addEntries (take 5 six_entries) w)) <> Z.to_nat 0.
Proof. intros w. split; [reflexivity|]. split; [reflexivity|]. by vm_compute. Qed.

(** ** The rewriters on sample files *)

(** C5, at the failing input.  [removeLayoutItems] with the target
    [Name__c] on a layout whose first item is on [Other_Name__c] and whose
    second item is on [Name__c] deletes both items and counts one removal:
    the single pattern [<layoutItems>[\s\S]*?<field>Name__c</field>[\s\S]*?
    </layoutItems>] starts at the first opening tag and runs on to the
    field of the second item.  [processLayouts], which tests each block on
    its own, keeps the first item. *)
Theorem removeLayoutItems_removes_other_block :
  removeLayoutItems_content [lit "Name__c"] two_layoutItems
  = Some (1, lit "<Layout></Layout>")
  /\ processLayouts_content [lit "Case.Name__c"] two_layoutItems
     = Some (1, lit "<Layout><layoutItems><field>Other_Name__c</field></layoutItems></Layout>").
Proof. split; by vm_compute. Qed.

(** [processLayouts] on one file: the file is backed up, written and
    counted when the text it computes differs from the text it read, and
    the workspace and the totals stay as they are when it does not. *)
Lemma processLayouts_file_writes_iff_changed fieldsToRemove file t w
    originalContent n content :
  readFileSync file w = Some originalContent ->
  processLayouts_content fieldsToRemove originalContent = Some (n, content) ->
  (content = originalContent ->
   processLayouts_file fieldsToRemove file t w = (t, w))
  /\ (content <> originalContent ->
      processLayouts_file fieldsToRemove file t w
      = ({| removed := removed t + n;
            filesModified := S (filesModified t);
            modifiedFiles := modifiedFiles t ++ [file] |},
         writeFileSync file content
           (if cfg_createBackup (config w)
            then snd (createBackup file w) else w))).
Proof.
  intros Hr Hc. unfold processLayouts_file. rewrite Hr, Hc.
  split; intros H.
  - by rewrite bool_decide_eq_false_2 by (by intros ?).
  - by rewrite bool_decide_eq_true_2.
Qed.

(** C3, at the failing inputs.  [processFile], with backups enabled, on a
    profile that mentions [Case.Foo__c] in a block none of its patterns
    matches: nothing is removed and the file keeps its text, yet a backup
    of it has been made and entered in the mapping file.  And
    [removeLayoutItems], with backups enabled, on a layout it changes: the
    file is rewritten and no backup of it exists. *)
Theorem processFile_backs_up_unchanged_file :
  (let '(n, w) := processFile [lit "Case.Foo__c"] profile_path profile_world in
   n = 0
   /\ files w !! profile_path = Some (Data profile_text)
   /\ files profile_world !! profile_backup = None
   /\ files w !! profile_backup = Some (Data profile_text)
   /\ getBackupPath profile_path w = Some profile_backup)
  /\ cfg_createBackup (config layout_world) = true
  /\ removeLayoutItems_file [lit "Name__c"] layout_path (0, 0) layout_world
     = Some (1, 1,
             sample_world (Some (lit "/ws")) true None
               (<[layout_path := Data (lit "<Layout></Layout>")]> ∅) None).
Proof. split; [by vm_compute|]. split; [done|]. by vm_compute. Qed.

(** C2, at the failing inputs.  [FlexiPageCleaner.execute] hands the names
    typed by the user to [processFlexiPages] as they are: the field name
    [Bad Name], which [sanitizeApiName] rejects, reaches the pattern
    [<fieldItem>Bad Name</fieldItem>] and a block is removed with it.
    [FieldRemover.executeOnFile] does the same with [1Field], which
    [FieldRemover.execute] refuses, and [removeLayoutReferences] builds
    the glob of its file search from the object name [../x] as typed. *)
Theorem unsanitized_names_reach_patterns :
  FlexiPageCleaner.execute (Some (lit "Case")) (Some (lit "Bad Name"))
                           (Some (lit "Yes"))
  = Some (lit "Case", [lit "Bad Name"])
  /\ sanitizeApiName (lit "Bad Name") = None
  /\ snd (FlexiPageCleaner.fields_loop (lit "Case") flexi_path [lit "Bad Name"]
            FlexiPageCleaner.new_run
            (0, lit "<itemInstances><fieldItem>Bad Name</fieldItem></itemInstances>"))
     = Some (1, [])
  /\ executeOnFile_fields (lit "Case") [lit "1Field"]
     = Some (lit "Case", [lit "Case.1Field"])
  /\ sanitizeApiName (lit "1Field") = None
  /\ execute_validate (lit "Case") [lit "1Field"] = None
  /\ removeLayoutReferences (Some (lit "../x")) (Some (lit "a b"))
     = Some (lit "**/../x-*.layout-meta.xml", [lit "a b"])
  /\ sanitizeApiName (lit "../x") = None
  /\ fst (processFile [lit "Case.1Field"] profile_path
            (sample_world (Some (lit "/ws")) false None
               (<[profile_path :=
                    Data (lit "<fieldPermissions><editable>true</editable><field>Case.1Field</field><readable>true</readable></fieldPermissions>")]> ∅)
               None))
     = 1.
Proof. repeat split; by vm_compute. Qed.

(** ** FlexiPages: fields under a visibility construct are left alone *)

Section Visibility.
Import FlexiPageCleaner.

Lemma length_flat_map_if {A B} (P : A -> bool) (f : A -> B) l :
  length (flat_map (fun x => if P x then [f x] else []) l)
  = length (List.filter P l).
Proof.
  induction l as [|x l IH]; [done|]. simpl.
  destruct (P x); simpl; by rewrite IH.
Qed.

Lemma length_flat_map_flat_map {A B C} (g : A -> list B) (f : B -> list C) l :
  length (flat_map (fun a => flat_map f (g a)) l)
  = length (flat_map f (flat_map g l)).
Proof.
  induction l as [|a l IH]; [done|]. simpl.
  by rewrite !length_app, IH, flat_map_app, length_app.
Qed.

(** One warning for each construct that mentions the field. *)
Lemma visibility_scan_length file objectName fieldName content :
  length (visibility_scan file fieldName (objectName ++ lit "." ++ fieldName)
                          content)
  = length (List.filter (mentions objectName fieldName)
                        (visibility_constructs content)).
Proof.
  unfold visibility_scan, visibility_constructs.
  rewrite length_flat_map_flat_map. apply length_flat_map_if.
Qed.

Lemma visibility_scan_about file fieldName fullFieldRef content v :
  In v (visibility_scan file fieldName fullFieldRef content) ->
  vw_file v = basename file /\ vw_field v = fieldName.
Proof.
  unfold visibility_scan. intros H.
  apply in_flat_map in H as (pattern & _ & H).
  apply in_flat_map in H as (m & _ & H).
  destruct (_ || _); [|done]. destruct H as [<-|[]]. done.
Qed.

(** The pass of a field looks for visibility constructs in the text as
    the passes of the fields before it have left it.  When one of them
    holds the field name or [Object.Field], the pass leaves the text and
    the removal counter as they are and adds to the warnings one entry for
    every such match, each naming the file and the field. *)
Lemma field_step_skips_removal
    (objectName file fieldName : str) (r : Run) (removed : nat)
    (content : str) (w : World str) :
  (exists m, In m (visibility_constructs content)
             /\ mentions objectName fieldName m = true) ->
  (exists found,
      field_step objectName file fieldName r (removed, content)
      = (note_skipped file (add_warnings found r), Some (removed, content))
      /\ 1 <= length found
      /\ length found
         = length (List.filter (mentions objectName fieldName)
                               (visibility_constructs content))
      /\ Forall (fun v => vw_file v = basename file /\ vw_field v = fieldName)
                found)
  /\ (readFileSync file w = Some content ->
      exists r',
        process_file objectName [fieldName] file r w = (0, r', w)
        /\ totalRemoved r' = totalRemoved r
        /\ FlexiPageCleaner.filesModified r' = FlexiPageCleaner.filesModified r
        /\ length (visibilityWarnings r') > length (visibilityWarnings r)).
Proof.
  intros (m & Hin & Hm).
  set (found := visibility_scan file fieldName
                  (objectName ++ lit "." ++ fieldName) content).
  assert (length found
          = length (List.filter (mentions objectName fieldName)
                                (visibility_constructs content))) as Hlen
    by apply visibility_scan_length.
  assert (1 <= length found) as Hpos.
  { rewrite Hlen.
    assert (In m (List.filter (mentions objectName fieldName)
                              (visibility_constructs content))) as Hf
      by (apply filter_In; auto).
    destruct (List.filter _ _); [done|simpl; lia]. }
  assert (field_step objectName file fieldName r (removed, content)
          = (note_skipped file (add_warnings found r), Some (removed, content)))
    as Hstep.
  { unfold field_step. cbn [snd]. fold found.
    destruct found; [simpl in Hpos; lia|done]. }
  split.
  - exists found. split; [exact Hstep|]. split; [exact Hpos|].
    split; [exact Hlen|].
    apply Forall_forall. intros v Hv. apply list_elem_of_In in Hv.
    by apply visibility_scan_about in Hv.
  - intros Hread. exists (note_skipped file (add_warnings found r)).
    unfold process_file. rewrite Hread. cbn [fields_loop].
    assert (field_step objectName file fieldName r (0, content)
            = (note_skipped file (add_warnings found r), Some (0, content)))
      as ->.
    { unfold field_step. cbn [snd]. fold found.
      destruct found; [simpl in Hpos; lia|done]. }
    cbn [Nat.ltb Nat.leb]. rewrite andb_false_r.
    split; [done|]. split; [done|]. split; [done|].
    cbn [note_skipped add_warnings visibilityWarnings].
    rewrite length_app. lia.
Qed.

End Visibility.

(** A rule that wraps a [criteria] block, the shape the platform writes,
    is matched by two visibility patterns: the one target [Foo__c] gets
    two findings for the file, and nothing is removed. *)
Lemma nested_rule_two_findings :
  In (lit "<visibilityRule><criteria><leftValue>{!Record.Foo__c}</leftValue><operator>EQUAL</operator><rightValue>x</rightValue></criteria></visibilityRule>")
     (visibility_constructs flexi_nested)
  /\ (let '(n, r, w) :=
        FlexiPageCleaner.process_file (lit "Case") [lit "Foo__c"] flexi_path
          FlexiPageCleaner.new_run (flexi_world flexi_nested) in
      n = 0
      /\ length (FlexiPageCleaner.visibilityWarnings r) = 2
      /\ length (FlexiPageCleaner.visibilityWarnings r) <> 1).
Proof. split; [by left|by vm_compute]. Qed.

(** C1 fails.  In a page where the item of [A__c] is shown by a rule on
    [B__c], a run for [A__c] and [B__c] takes the item of [A__c] out with
    the rule in it, and then finds no rule left when it comes to [B__c]:
    the item of [B__c] is removed too, two blocks in all, and no warning
    is given, although [B__c] stands in a visibility rule of the file.
    The same two fields in the other order give one removal and two
    warnings.  And a component property [visibilityRule] on a field is
    matched by none of the four patterns, the second of which closes the
    name with another tag than it opens it with: the item of the field is
    removed without a warning. *)
Theorem visibility_reference_removed_without_warning :
  (In rule_on_B (visibility_constructs flexi_two_targets)
   /\ mentions (lit "Case") (lit "B__c") rule_on_B = true)
  /\ (let '(n, r, w) :=
        FlexiPageCleaner.process_file (lit "Case") [lit "A__c"; lit "B__c"]
          flexi_path FlexiPageCleaner.new_run (flexi_world flexi_two_targets) in
      n = 2
      /\ FlexiPageCleaner.visibilityWarnings r = []
      /\ FlexiPageCleaner.skippedFiles r = []
      /\ readFileSync flexi_path w = Some (lit "<FlexiPage></FlexiPage>"))
  /\ (let '(n, r, w) :=
        FlexiPageCleaner.process_file (lit "Case") [lit "B__c"; lit "A__c"]
          flexi_path FlexiPageCleaner.new_run (flexi_world flexi_two_targets) in
      n = 1
      /\ map FlexiPageCleaner.vw_field (FlexiPageCleaner.visibilityWarnings r)
         = [lit "B__c"; lit "B__c"]
      /\ FlexiPageCleaner.skippedFiles r = [flexi_path]
      /\ readFileSync flexi_path w
         = Some (lit "<FlexiPage><itemInstances><fieldInstance><fieldItem>Record.B__c</fieldItem></fieldInstance></itemInstances></FlexiPage>"))
  /\ (includes (lit "<n>visibilityRule</n>") flexi_property = true
      /\ visibility_constructs flexi_property = []
      /\ let '(n, r, w) :=
           FlexiPageCleaner.process_file (lit "Case") [lit "Foo__c"]
             flexi_path FlexiPageCleaner.new_run (flexi_world flexi_property) in
         n = 1
         /\ FlexiPageCleaner.visibilityWarnings r = []
         /\ readFileSync flexi_path w
            = Some (lit "<FlexiPage><componentInstanceProperties><n>visibilityRule</n><value>{!Record.Foo__c}</value></componentInstanceProperties></FlexiPage>")).
Proof.
  split; [split; [by left|by vm_compute]|].
  split; [by vm_compute|]. split; [by vm_compute|]. by vm_compute.
Qed.

(** ** Removing blocks twice *)

Section Cut.
Variables opening closing inner : str.
Hypothesis opening_head : exists body, opening = 60%N :: body.
Hypothesis opening_prefix :
  forall k o, 0 < k < length opening -> open_after o (take k opening) = true.
Hypothesis closing_last : forall o x, open_after o (x ++ closing) = false.

Lemma opening_nonempty : 0 < length opening.
Proof. clear -opening_head. destruct opening_head as [b ->]. simpl. lia. Qed.

Lemma starts_with_app_l p b x :
  length p <= length b -> starts_with p (b ++ x) = starts_with p b.
Proof.
  revert b. induction p as [|c p IH]; intros b Hl; [by destruct b|].
  destruct b as [|d b]; [simpl in Hl; lia|]. simpl.
  rewrite IH; [done|]. simpl in Hl. lia.
Qed.

Lemma starts_with_drop_app p a x y j :
  j + length p <= length a ->
  starts_with p (drop j (a ++ x)) = starts_with p (drop j (a ++ y)).
Proof.
  intros Hj. rewrite !drop_app_le by lia.
  rewrite !starts_with_app_l; [done|rewrite length_drop; lia..].
Qed.

(** The first occurrence does not depend on what follows it. *)
Lemma indexOf_app_stable p a x y i :
  indexOf p (a ++ x) = Some i -> i + length p <= length a ->
  indexOf p (a ++ y) = Some i.
Proof.
  intros H Hi. apply indexOf_Some in H as (H1 & H2 & H3).
  apply indexOf_first.
  - by rewrite (starts_with_drop_app p a y x).
  - rewrite length_app. lia.
  - intros j Hj. rewrite (starts_with_drop_app p a y x) by lia. by apply H3.
Qed.

Lemma indexOf_skip p pre y :
  (forall i, i < length pre -> starts_with p (drop i (pre ++ y)) = false) ->
  indexOf p (pre ++ y) = (fun i => length pre + i) <$> indexOf p y.
Proof.
  induction pre as [|d pre IH]; intros H.
  - simpl. by destruct (indexOf p y).
  - cbn [app]. rewrite indexOf_cons by (apply (H 0); simpl; lia).
    rewrite IH.
    + by destruct (indexOf p y).
    + intros i Hi. apply (H (S i)). simpl. lia.
Qed.

Lemma drop_app_add {A} (a b : list A) k :
  drop (length a + k) (a ++ b) = drop k b.
Proof. by rewrite <- drop_drop, drop_app_length. Qed.

Lemma decompose s i j :
  indexOf opening s = Some i ->
  indexOf closing (drop (i + length opening) s) = Some j ->
  exists pre mid after,
    s = pre ++ opening ++ mid ++ closing ++ after
    /\ length pre = i /\ length mid = j.
Proof.
  intros Ho Hc.
  apply indexOf_Some in Ho as (Ho & Hi & _).
  apply indexOf_Some in Hc as (Hc & Hj & _).
  apply starts_with_spec in Ho as [body Hb].
  rewrite <- drop_drop, Hb, drop_app_length in Hc, Hj.
  apply starts_with_spec in Hc as [after Ha].
  exists (take i s), (take j body), after.
  split; [|split; [rewrite length_take; lia|rewrite length_take; lia]].
  by rewrite <- Ha, take_drop, <- Hb, take_drop.
Qed.

Lemma cut_decomposed pre mid after fuel :
  indexOf opening (pre ++ opening ++ mid ++ closing ++ after)
  = Some (length pre) ->
  indexOf closing (mid ++ closing ++ after) = Some (length mid) ->
  cut opening closing (S fuel) (pre ++ opening ++ mid ++ closing ++ after)
  = Text pre :: Match (opening ++ mid ++ closing)
      :: cut opening closing fuel after.
Proof.
  intros Ho Hc. cbn [cut]. rewrite Ho.
  rewrite <- drop_drop, drop_app_length, drop_app_length, Hc.
  rewrite take_app_length.
  replace (length opening + length mid + length closing)
    with (length (opening ++ mid ++ closing))
    by (rewrite !length_app; lia).
  replace (opening ++ mid ++ closing ++ after)
    with ((opening ++ mid ++ closing) ++ after)
    by (by rewrite <- !app_assoc).
  rewrite take_app_length. do 2 f_equal.
  replace (length pre + length opening + length mid + length closing)
    with (length (pre ++ opening ++ mid ++ closing))
    by (rewrite !length_app; lia).
  replace (pre ++ (opening ++ mid ++ closing) ++ after)
    with ((pre ++ opening ++ mid ++ closing) ++ after)
    by (by rewrite <- !app_assoc).
  by rewrite drop_app_length.
Qed.

Lemma hits_cons_text t ps : hits inner (Text t :: ps) = hits inner ps.
Proof. done. Qed.

Lemma hits_cons_match m ps :
  hits inner (Match m :: ps)
  = (if includes inner m then 1 else 0) + hits inner ps.
Proof. unfold hits. simpl. by destruct (includes inner m). Qed.

(** A prefix in which no opening text starts adds no block. *)
Lemma hits_cut_skip pre y fuel :
  (forall i, i < length pre ->
             starts_with opening (drop i (pre ++ y)) = false) ->
  hits inner (cut opening closing fuel (pre ++ y))
  = hits inner (cut opening closing fuel y).
Proof.
  intros H. destruct fuel as [|fuel]; [done|]. cbn [cut].
  rewrite indexOf_skip by done.
  destruct (indexOf opening y) as [i|]; [|done]. cbn [fmap option_fmap option_map].
  rewrite <- !Nat.add_assoc, !drop_app_add.
  destruct (indexOf closing (drop (i + length opening) y)) as [j|]; [|done].
  rewrite !hits_cons_text, !hits_cons_match.
  by rewrite <- !Nat.add_assoc, !drop_app_add.
Qed.

Lemma structured_app o a b :
  structured o (a ++ b) = structured o a && structured (open_after o a) b.
Proof.
  revert o. induction a as [|c a IH]; intros o; [done|]. simpl.
  destruct (c =? 60)%N; [by rewrite IH, andb_assoc|].
  destruct (c =? 62)%N; apply IH.
Qed.

Lemma open_after_app o a b :
  open_after o (a ++ b) = open_after (open_after o a) b.
Proof. revert o. induction a as [|c a IH]; intros o; [done|]. apply IH. Qed.

(** In structured markup no opening text starts before a block and runs
    into what follows it. *)
Lemma no_straddle pre rest y i :
  structured false (pre ++ opening ++ rest) = true ->
  indexOf opening (pre ++ opening ++ rest) = Some (length pre) ->
  i < length pre ->
  starts_with opening (drop i (pre ++ y)) = false.
Proof.
  intros Hs Ho Hi.
  destruct (starts_with opening (drop i (pre ++ y))) eqn:E; [|done]. exfalso.
  destruct (decide (i + length opening <= length pre)) as [Hin|Hout].
  - apply indexOf_Some in Ho as (_ & _ & Hmin).
    specialize (Hmin i Hi).
    rewrite (starts_with_drop_app opening pre _ y) in Hmin by done.
    congruence.
  - rewrite structured_app in Hs. apply andb_true_iff in Hs as [_ Hs].
    destruct opening_head as [body Hb]. rewrite Hb in Hs. simpl in Hs.
    apply andb_true_iff in Hs as [Hs _]. apply negb_true_iff in Hs.
    rewrite drop_app_le in E by lia.
    apply starts_with_spec in E as [r E].
    assert (drop i pre = take (length pre - i) opening) as Hu.
    { apply (f_equal (take (length pre - i))) in E.
      rewrite take_app_length' in E by (rewrite length_drop; lia).
      rewrite E, take_app_le by lia. done. }
    rewrite <- (take_drop i pre), open_after_app, Hu in Hs.
    rewrite opening_prefix in Hs by lia. done.
Qed.

(** The blocks of the text a removal leaves are the blocks it kept: none
    of them holds the inner element. *)
Lemma hits_after_removal fuel1 s fuel2 :
  tag_structured s = true ->
  length s < fuel1 ->
  length (kept inner (cut opening closing fuel1 s)) < fuel2 ->
  hits inner (cut opening closing fuel2
                (kept inner (cut opening closing fuel1 s))) = 0.
Proof.
  revert s fuel2. induction fuel1 as [|fuel1 IH]; intros s fuel2 Hs Hf1 Hf2;
    [lia|].
  assert (forall s', cut opening closing (S fuel1) s = [Text s'] -> s' = s ->
                     indexOf opening s = None
                     \/ (exists i, indexOf opening s = Some i
                         /\ indexOf closing (drop (i + length opening) s) = None)
                     -> hits inner (cut opening closing fuel2
                          (kept inner (cut opening closing (S fuel1) s))) = 0)
    as Hnone.
  { intros s' Hc -> Hcase. rewrite Hc. unfold kept, render. simpl.
    rewrite app_nil_r. destruct fuel2 as [|fuel2]; [done|]. cbn [cut].
    destruct Hcase as [->|(i & -> & ->)]; done. }
  destruct (indexOf opening s) as [i|] eqn:Ho.
  2:{ apply (Hnone s); [by cbn [cut]; rewrite Ho|done|by left]. }
  destruct (indexOf closing (drop (i + length opening) s)) as [j|] eqn:Hc.
  2:{ apply (Hnone s); [by cbn [cut]; rewrite Ho, Hc|done|right; eauto]. }
  clear Hnone.
  destruct (decompose s i j Ho Hc) as (pre & mid & after & -> & <- & <-).
  rewrite <- drop_drop, drop_app_length, drop_app_length in Hc.
  rewrite cut_decomposed in Hf2 |- * by done.
  unfold tag_structured in Hs.
  assert (tag_structured after = true) as Hafter.
  { unfold tag_structured.
    replace (pre ++ opening ++ mid ++ closing ++ after)
      with ((pre ++ opening ++ mid ++ closing) ++ after) in Hs
      by (by rewrite <- !app_assoc).
    rewrite structured_app in Hs. apply andb_true_iff in Hs as [_ Hs].
    replace (pre ++ opening ++ mid ++ closing)
      with ((pre ++ opening ++ mid) ++ closing) in Hs
      by (by rewrite <- !app_assoc).
    by rewrite closing_last in Hs. }
  assert (length after < fuel1) as Hlen.
  { rewrite !length_app in Hf1. pose proof opening_nonempty. lia. }
  set (y := kept inner (cut opening closing fuel1 after)) in *.
  assert (kept inner (Text pre :: Match (opening ++ mid ++ closing)
                        :: cut opening closing fuel1 after)
          = pre ++ (if includes inner (opening ++ mid ++ closing)
                    then [] else opening ++ mid ++ closing) ++ y) as Hk by done.
  rewrite Hk in Hf2 |- *.
  destruct (includes inner (opening ++ mid ++ closing)) eqn:Ei.
  - cbn [app] in Hf2 |- *. rewrite length_app in Hf2.
    rewrite hits_cut_skip.
    + apply IH; [done|done|unfold y in *; lia].
    + intros k Hk'. by apply (no_straddle pre (mid ++ closing ++ after)).
  - rewrite <- !app_assoc in Hf2 |- *. rewrite !length_app in Hf2.
    destruct fuel2 as [|fuel2]; [lia|].
    rewrite cut_decomposed.
    + rewrite hits_cons_text, hits_cons_match, Ei.
      apply IH; [done|done|]. pose proof opening_nonempty.
      unfold y in *. lia.
    + replace (pre ++ opening ++ mid ++ closing ++ y)
        with ((pre ++ opening) ++ mid ++ closing ++ y)
        by (by rewrite <- !app_assoc).
      apply (indexOf_app_stable _ _ (mid ++ closing ++ after));
        [by rewrite <- !app_assoc|rewrite length_app; lia].
    + replace (mid ++ closing ++ y) with ((mid ++ closing) ++ y)
        by (by rewrite <- !app_assoc).
      apply (indexOf_app_stable _ _ after);
        [by rewrite <- !app_assoc|rewrite length_app; lia].
Qed.

End Cut.

(** ** Collapsing blank lines does not touch the blocks *)

Section WsEdit.

Lemma ws_edit_refl t : ws_edit t t.
Proof. induction t; by constructor. Qed.

Lemma ws_edit_app a b c d : ws_edit a b -> ws_edit c d -> ws_edit (a ++ c) (b ++ d).
Proof.
  intros H1 H2. induction H1 as [|x t u H IH|m t u Hm Hs H IH].
  - done.
  - by apply ws_keep.
  - rewrite <- app_assoc. by apply ws_repl.
Qed.

Lemma is_space_newline : is_space newline = true.
Proof. done. Qed.

(** A text free of white space starts both texts or neither. *)
Lemma starts_with_ws_edit p t u :
  ws_edit t u -> ws_free p = true -> starts_with p t = starts_with p u.
Proof.
  intros H. revert p. induction H as [|x t u H IH|m t u Hm Hs H IH];
    intros p Hp; [done| |].
  - destruct p as [|c p]; [done|]. simpl in Hp |- *.
    apply andb_true_iff in Hp as [_ Hp]. by rewrite (IH p Hp).
  - destruct p as [|c p]; [by destruct (m ++ t)|].
    destruct m as [|d m]; [done|]. simpl in Hp, Hs |- *.
    apply andb_true_iff in Hp as [Hc _]. apply andb_true_iff in Hs as [Hd _].
    apply negb_true_iff in Hc.
    replace (c =? d)%N with false
      by (symmetry; apply N.eqb_neq; intros ->; congruence).
    replace (c =? newline)%N with false
      by (symmetry; apply N.eqb_neq; intros ->; by rewrite is_space_newline in Hc).
    done.
Qed.

Lemma drop_ws_edit p t u :
  ws_edit t u -> ws_free p = true -> starts_with p t = true ->
  ws_edit (drop (length p) t) (drop (length p) u).
Proof.
  revert t u. induction p as [|c p IH]; intros t u H Hp Hst; [done|].
  simpl in Hp. apply andb_true_iff in Hp as [Hc Hp]. apply negb_true_iff in Hc.
  destruct H as [|x t u H|m t u Hm Hs H]; [done| |].
  - simpl in Hst |- *. apply andb_true_iff in Hst as [_ Hst]. by apply IH.
  - exfalso. destruct m as [|d m]; [done|]. simpl in Hst, Hs.
    apply andb_true_iff in Hs as [Hd _]. apply andb_true_iff in Hst as [Hcd _].
    apply N.eqb_eq in Hcd as ->. congruence.
Qed.

Lemma take_app_add {A} (a b : list A) k :
  take (length a + k) (a ++ b) = a ++ take k b.
Proof.
  rewrite take_app, take_ge by lia. f_equal. f_equal. lia.
Qed.

(** The first occurrence of a text free of white space is the same one in
    both texts. *)
Lemma indexOf_ws_edit p t u :
  ws_edit t u -> ws_free p = true -> p <> [] ->
  match indexOf p t with
  | None => indexOf p u = None
  | Some i =>
      exists i', indexOf p u = Some i'
                 /\ ws_edit (take i t) (take i' u)
                 /\ ws_edit (drop (i + length p) t) (drop (i' + length p) u)
  end.
Proof.
  intros H Hp Hne. induction H as [|x t u H IH|m t u Hm Hs H IH].
  - by rewrite indexOf_nil.
  - pose proof (starts_with_ws_edit p _ _ (ws_keep x _ _ H) Hp) as Hst.
    destruct (starts_with p (x :: t)) eqn:E.
    + rewrite indexOf_here by done. exists 0.
      rewrite indexOf_here by done. split; [done|]. split; [constructor|].
      apply drop_ws_edit; [by constructor|done|done].
    + symmetry in Hst. rewrite !indexOf_cons by done.
      destruct (indexOf p t) as [i|].
      * destruct IH as (i' & -> & H1 & H2). exists (S i').
        split; [done|]. split; [by apply ws_keep|done].
      * by rewrite IH.
  - assert (forall (pre y : str),
               forallb is_space pre = true ->
               forall i, i < length pre ->
                         starts_with p (drop i (pre ++ y)) = false) as Hskip.
    { intros pre y Hpre i Hi. rewrite drop_app_le by lia.
      destruct (drop i pre) as [|d r] eqn:Ed.
      { apply (f_equal length) in Ed. rewrite length_drop in Ed.
        simpl in Ed. lia. }
      destruct p as [|c p]; [done|]. simpl in Hp |- *.
      apply andb_true_iff in Hp as [Hc _]. apply negb_true_iff in Hc.
      assert (is_space d = true) as Hd.
      { rewrite <- (take_drop i pre), forallb_app, Ed in Hpre.
        apply andb_true_iff in Hpre as [_ Hpre]. simpl in Hpre.
        by apply andb_true_iff in Hpre as [Hpre _]. }
      replace (c =? d)%N with false
        by (symmetry; apply N.eqb_neq; intros ->; congruence).
      done. }
    rewrite (indexOf_skip p m t) by (by apply Hskip).
    change (newline :: newline :: u) with ([newline; newline] ++ u).
    rewrite (indexOf_skip p [newline; newline] u) by (by apply Hskip).
    destruct (indexOf p t) as [i|]; simpl.
    + destruct IH as (i' & -> & H1 & H2). exists (S (S i')).
      split; [done|]. split.
      * rewrite take_app_add. simpl. by apply ws_repl.
      * by rewrite <- Nat.add_assoc, drop_app_add.
    + by rewrite IH.
Qed.

Lemma includes_ws_edit p t u :
  ws_edit t u -> ws_free p = true -> p <> [] -> includes p t = includes p u.
Proof.
  intros H Hp Hne. unfold includes.
  pose proof (indexOf_ws_edit p t u H Hp Hne) as Hi.
  destruct (indexOf p t); [by destruct Hi as (i' & -> & _)|by rewrite Hi].
Qed.

End WsEdit.

Section Collapse.

Lemma find_match_Some ic r pos s i e :
  find_match ic r pos s = Some (i, e) ->
  pos <= i /\ i - pos <= length s
  /\ exec ic r i (drop (i - pos) s) accept = Some e.
Proof.
  revert pos. induction s as [|d s IH]; intros pos; cbn [find_match].
  - destruct (exec ic r pos [] accept) eqn:E; [|done]. intros [= <- <-].
    rewrite Nat.sub_diag. by repeat split.
  - destruct (exec ic r pos (d :: s) accept) eqn:E.
    + intros [= <- <-]. rewrite Nat.sub_diag. repeat split; [lia|simpl; lia|done].
    + intros H. apply IH in H as (H1 & H2 & H3).
      replace (i - pos) with (S (i - S pos)) by lia.
      repeat split; [lia|simpl; lia|done].
Qed.

(** Where every match is a non-empty run of white space, replacing the
    matches by two newlines is a [ws_edit]. *)
Lemma segments_ws_edit r fuel pos s :
  (forall i rest e,
      exec false r i rest accept = Some e ->
      exists n, 1 <= n <= length rest
                /\ forallb is_space (take n rest) = true /\ e = i + n) ->
  ws_edit s (render (fun _ => [newline; newline])
                    (segments_from false r fuel pos s)).
Proof.
  intros Hr. revert pos s. induction fuel as [|fuel IH]; intros pos s.
  - unfold render. simpl. rewrite app_nil_r. apply ws_edit_refl.
  - cbn [segments_from].
    destruct (find_match false r pos s) as [[i e]|] eqn:E.
    2:{ unfold render. simpl. rewrite app_nil_r. apply ws_edit_refl. }
    apply find_match_Some in E as (Hi & Hl & E).
    apply Hr in E as (n & Hn & Hs & ->).
    replace (i + n =? i) with false by (symmetry; apply Nat.eqb_neq; lia).
    replace (i + n - i) with n by lia.
    unfold render. cbn [map concat].
    rewrite <- (take_drop (i - pos) s) at 1.
    apply ws_edit_app; [apply ws_edit_refl|].
    rewrite <- (take_drop n (drop (i - pos) s)) at 1.
    apply ws_repl; [|done|apply IH].
    intros Hnil. apply (f_equal length) in Hnil.
    rewrite length_take in Hnil. simpl in Hnil. lia.
Qed.

Lemma collapse_tree :
  regex_literal "\n\s*\n\s*\n"
  = Seq (Char 10)
      (Seq (Star true (CharClass false [CSpace]))
         (Seq (Char 10)
            (Seq (Star true (CharClass false [CSpace]))
               (Seq (Char 10) Empty)))).
Proof. reflexivity. Qed.

Lemma exec_seq_char c r pos s k :
  exec false (Seq (Char c) r) pos s k
  = match s with
    | d :: s' => if char_eq false c d then exec false r (S pos) s' k else None
    | [] => None
    end.
Proof. by destruct s. Qed.

(** The blank-line pattern matches white space only, and at least the
    newline it starts with. *)
Lemma collapse_match i rest e :
  exec false (regex_literal "\n\s*\n\s*\n") i rest accept = Some e ->
  exists n, 1 <= n <= length rest
            /\ forallb is_space (take n rest) = true /\ e = i + n.
Proof.
  rewrite collapse_tree. intros H.
  assert (forall d, xorb false (class_mem false [CSpace] d) = true ->
                    is_space d = true) as Hc.
  { intros d. unfold class_mem. simpl. by rewrite !orb_false_r. }
  pose proof H as H'.
  apply (exec_consumes is_space) in H as (n & Hn & Hs & Ha);
    [|by repeat split].
  injection Ha as <-. exists n. split; [|done]. split; [|done].
  rewrite exec_seq_char in H'. destruct rest as [|d rest]; [done|].
  destruct (char_eq false 10 d); [|done].
  apply (exec_consumes is_space) in H' as (n' & _ & _ & Ha');
    [|by repeat split].
  injection Ha' as Ha'. lia.
Qed.

Lemma collapse_ws_edit t : ws_edit t (collapse_blank_lines t).
Proof.
  unfold collapse_blank_lines, replace_all, replace_map, segments.
  apply (segments_ws_edit _ _ _ _ collapse_match).
Qed.

End Collapse.

Section BlocksUnderWsEdit.
Variables opening closing inner : str.
Hypothesis opening_ws_free : ws_free opening = true.
Hypothesis closing_ws_free : ws_free closing = true.
Hypothesis inner_ws_free : ws_free inner = true.
Hypothesis opening_ne : opening <> [].
Hypothesis closing_ne : closing <> [].
Hypothesis inner_ne : inner <> [].

Lemma block_shape s i j :
  indexOf opening s = Some i ->
  indexOf closing (drop (i + length opening) s) = Some j ->
  take (length opening + j + length closing) (drop i s)
  = opening ++ take j (drop (i + length opening) s) ++ closing.
Proof.
  intros Ho Hc.
  destruct (decompose opening closing s i j Ho Hc)
    as (pre & mid & after & -> & <- & <-).
  rewrite <- drop_drop, !drop_app_length, take_app_length.
  replace (length opening + length mid + length closing)
    with (length (opening ++ mid ++ closing))
    by (rewrite !length_app; lia).
  replace (opening ++ mid ++ closing ++ after)
    with ((opening ++ mid ++ closing) ++ after)
    by (by rewrite <- !app_assoc).
  by rewrite take_app_length.
Qed.

(** Texts that differ in white space only have the same blocks, up to
    white space, and as many of them hold the inner element. *)
Lemma hits_ws_edit fuel t u fuel' :
  ws_edit t u -> length t < fuel -> length u < fuel' ->
  hits inner (cut opening closing fuel t)
  = hits inner (cut opening closing fuel' u).
Proof.
  revert t u fuel'. induction fuel as [|fuel IH]; intros t u fuel' H Ht Hu;
    [lia|].
  destruct fuel' as [|fuel']; [lia|]. cbn [cut].
  pose proof (indexOf_ws_edit opening t u H opening_ws_free opening_ne) as Ho.
  destruct (indexOf opening t) as [i|] eqn:Eo; [|by rewrite Ho].
  destruct Ho as (i' & Eo' & _ & H2). rewrite Eo'.
  pose proof (indexOf_ws_edit closing _ _ H2 closing_ws_free closing_ne) as Hc.
  destruct (indexOf closing (drop (i + length opening) t)) as [j|] eqn:Ec;
    [|by rewrite Hc].
  destruct Hc as (j' & Ec' & H3 & H4). rewrite Ec'.
  rewrite !hits_cons_text, !hits_cons_match.
  rewrite (block_shape t i j), (block_shape u i' j') by done.
  f_equal.
  - rewrite (includes_ws_edit inner _ (opening ++ take j' (drop (i' + length opening) u) ++ closing));
      [done| |done|done].
    apply ws_edit_app; [apply ws_edit_refl|].
    apply ws_edit_app; [done|apply ws_edit_refl].
  - assert (0 < length opening) by (destruct opening; [done|simpl; lia]).
    apply indexOf_Some in Eo as (_ & Eo & _).
    apply indexOf_Some in Eo' as (_ & Eo' & _).
    replace (i + length opening + j + length closing)
      with ((i + length opening) + (j + length closing)) by lia.
    replace (i' + length opening + j' + length closing)
      with ((i' + length opening) + (j' + length closing)) by lia.
    rewrite <- (drop_drop t (j + length closing) (i + length opening)).
    rewrite <- (drop_drop u (j' + length closing) (i' + length opening)).
    apply IH; [done|rewrite !length_drop; lia|rewrite !length_drop; lia].
Qed.

End BlocksUnderWsEdit.

(** ** [processLayouts] twice *)

Section LayoutsTwice.

Lemma is_word_range c :
  is_word c = true ->
  (48 <= c <= 57 \/ 65 <= c <= 90 \/ 97 <= c <= 122 \/ c = 95)%N.
Proof.
  unfold is_word, is_letter, is_upper, is_lower, is_digit.
  rewrite !orb_true_iff, !andb_true_iff, !N.leb_le, N.eqb_eq. lia.
Qed.

Ltac unequal :=
  repeat match goal with
         | |- context [(?a =? ?b)%N] =>
             replace (a =? b)%N with false by (symmetry; apply N.eqb_neq; lia)
         end.

Lemma is_word_not_space c : is_word c = true -> is_space c = false.
Proof.
  intros H. apply is_word_range in H. unfold is_space. cbn [existsb].
  unequal. cbn [orb].
  replace (8192 <=? c)%N with false by (symmetry; apply N.leb_gt; lia). done.
Qed.

Lemma is_word_not_syntax c : is_word c = true -> is_syntax_character c = false.
Proof.
  intros H. apply is_word_range in H. unfold is_syntax_character.
  change syntax_characters
    with [46; 42; 43; 63; 94; 36; 123; 125; 40; 41; 124; 91; 93; 92]%N.
  cbn [existsb]. unequal. done.
Qed.

Lemma is_word_not_dot c : is_word c = true -> (c =? ch ".")%N = false.
Proof.
  intros H. apply is_word_range in H. change (ch ".") with 46%N.
  apply N.eqb_neq. lia.
Qed.

Lemma valid_name_words t : valid_name t = true -> forallb is_word t = true.
Proof.
  destruct t as [|c t]; [done|]. simpl. intros H.
  apply andb_true_iff in H as [Hc Ht]. by rewrite (is_letter_word c Hc).
Qed.

Lemma sanitized_words name :
  sanitizeApiName name = Some name -> forallb is_word name = true.
Proof.
  rewrite sanitizeApiName_spec.
  destruct (valid_name (trim name)) eqn:E; [|done].
  destruct (length (trim name) <=? 80); [|done]. cbn [andb].
  intros [= Ht]. rewrite Ht in E. by apply valid_name_words.
Qed.

Lemma forallb_impl {A} (P Q : A -> bool) (l : list A) :
  (forall x, P x = true -> Q x = true) ->
  forallb P l = true -> forallb Q l = true.
Proof.
  intros H. induction l as [|x l IH]; [done|]. simpl. intros Hl.
  apply andb_true_iff in Hl as [Hx Hl]. by rewrite (H x Hx), IH.
Qed.

Lemma split_on_free sep s :
  forallb (fun c => negb (c =? sep)%N) s = true -> split_on sep s = [s].
Proof.
  induction s as [|c s IH]; [done|]. simpl. intros H.
  apply andb_true_iff in H as [Hc Hs]. apply negb_true_iff in Hc.
  by rewrite Hc, IH.
Qed.

Lemma split_on_app sep a b :
  forallb (fun c => negb (c =? sep)%N) a = true ->
  split_on sep (a ++ sep :: b) = a :: split_on sep b.
Proof.
  induction a as [|c a IH]; simpl.
  - by rewrite N.eqb_refl.
  - intros H. apply andb_true_iff in H as [Hc Ha]. apply negb_true_iff in Hc.
    by rewrite Hc, IH.
Qed.

(** [field.split('.')[1]] of [Object.Field] is the field name. *)
Lemma fieldName_of_reference objectName fieldName :
  forallb is_word objectName = true ->
  forallb is_word fieldName = true ->
  fieldName_of (objectName ++ lit "." ++ fieldName) = Some fieldName.
Proof.
  intros Ho Hf. unfold fieldName_of.
  change (lit "." ++ fieldName) with (ch "." :: fieldName).
  rewrite split_on_app, split_on_free; [done| |].
  - apply (forallb_impl is_word); [|done].
    intros c Hc. by rewrite is_word_not_dot.
  - apply (forallb_impl is_word); [|done].
    intros c Hc. by rewrite is_word_not_dot.
Qed.

(** The callback removes the blocks that hold [<field>name</field>]. *)
Lemma layoutItem_callback_includes name removed block :
  layoutItem_callback (Some name) removed block
  = Some (if includes (element (lit "field") name) block
          then (S removed, []) else (removed, block)).
Proof.
  unfold layoutItem_callback. cbn [mbind option_bind].
  change (lit "<field>" ++ escapeRegex name ++ lit "</field>")
    with (lit "<" ++ lit "field" ++ lit ">" ++ escapeRegex name ++ lit "</"
            ++ lit "field" ++ lit ">").
  rewrite RegExp_element by done. cbn [mbind option_bind].
  rewrite test_lits. by destruct (includes _ block).
Qed.

Lemma replace_pieces_layoutItems name removed ps :
  replace_pieces (layoutItem_callback (Some name)) removed ps
  = Some (removed + hits (element (lit "field") name) ps,
          kept (element (lit "field") name) ps).
Proof.
  revert removed. induction ps as [|[t|m] ps IH]; intros removed.
  - simpl. by rewrite Nat.add_0_r.
  - cbn [replace_pieces]. rewrite IH. done.
  - cbn [replace_pieces]. rewrite layoutItem_callback_includes.
    cbn [mbind option_bind]. rewrite hits_cons_match.
    change (kept ?i (Match m :: ps))
      with ((if includes i m then [] else m) ++ kept i ps).
    destruct (includes _ m); rewrite IH; cbn [mbind option_bind];
      f_equal; f_equal; lia.
Qed.

Lemma layoutItemRegex_block :
  layoutItemRegex = block_regex layoutItems_open layoutItems_close.
Proof. reflexivity. Qed.

(** One pass of [processLayouts] over a text, for one field. *)
Lemma processLayouts_content_one objectName fieldName content :
  forallb is_word objectName = true ->
  forallb is_word fieldName = true ->
  processLayouts_content [objectName ++ lit "." ++ fieldName] content
  = Some (hits (element (lit "field") fieldName)
               (cut layoutItems_open layoutItems_close (S (length content))
                    content),
          collapse_blank_lines
            (kept (element (lit "field") fieldName)
                  (cut layoutItems_open layoutItems_close (S (length content))
                       content))).
Proof.
  intros Ho Hf. unfold processLayouts_content. cbn [processLayouts_fields].
  rewrite fieldName_of_reference by done.
  unfold replace_fn, segments. rewrite layoutItemRegex_block.
  rewrite segments_from_block by done. cbn [fst snd].
  rewrite replace_pieces_layoutItems. done.
Qed.

Lemma element_ws_free tag value :
  ws_free tag = true -> ws_free value = true ->
  ws_free (element tag value) = true.
Proof.
  intros Ht Hv. unfold element, ws_free in *.
  rewrite !forallb_app, Ht, Hv. done.
Qed.

Lemma layoutItems_open_prefix k o :
  0 < k < length layoutItems_open ->
  open_after o (take k layoutItems_open) = true.
Proof.
  intros Hk. change (length layoutItems_open) with 13 in Hk.
  do 13 (destruct k as [|k]; [try lia; by destruct o|]). lia.
Qed.

Lemma layoutItems_close_last o x :
  open_after o (x ++ layoutItems_close) = false.
Proof. rewrite open_after_app. by destruct (open_after o x). Qed.

(** C6, as amended.  For every text in which no [<] follows a [<] without
    a [>] between them (as in well-formed markup) and every field
    [Object.Field] of sanitized names, [processLayouts] applied to the text
    deletes the blocks [<layoutItems>...</layoutItems>] that hold
    [<field>Field</field>] and collapses the blank lines; applied again to
    its own result, with the same field, it removes zero blocks. *)
Theorem processLayouts_second_pass_removes_nothing
    (objectName fieldName content : str) :
  sanitizeApiName objectName = Some objectName ->
  sanitizeApiName fieldName = Some fieldName ->
  tag_structured content = true ->
  exists content1 content2,
    processLayouts_content [objectName ++ lit "." ++ fieldName] content
    = Some (hits (element (lit "field") fieldName)
                 (cut layoutItems_open layoutItems_close (S (length content))
                      content),
            content1)
    /\ content1
       = collapse_blank_lines
           (kept (element (lit "field") fieldName)
                 (cut layoutItems_open layoutItems_close (S (length content))
                      content))
    /\ processLayouts_content [objectName ++ lit "." ++ fieldName] content1
       = Some (0, content2).
Proof.
  intros Ho Hf Hs.
  apply sanitized_words in Ho, Hf.
  set (inner := element (lit "field") fieldName).
  set (t := kept inner (cut layoutItems_open layoutItems_close
                            (S (length content)) content)).
  exists (collapse_blank_lines t), (collapse_blank_lines
    (kept inner (cut layoutItems_open layoutItems_close
                     (S (length (collapse_blank_lines t)))
                     (collapse_blank_lines t)))).
  split; [by apply processLayouts_content_one|]. split; [done|].
  rewrite processLayouts_content_one by done. fold inner. do 2 f_equal.
  assert (ws_free inner = true) as Hin.
  { apply element_ws_free; [done|].
    apply (forallb_impl is_word); [|done].
    intros c Hc. by rewrite is_word_not_space. }
  rewrite <- (hits_ws_edit layoutItems_open layoutItems_close inner
                eq_refl eq_refl Hin ltac:(done) ltac:(done) ltac:(done)
                (S (length t)) t (collapse_blank_lines t));
    [|apply collapse_ws_edit|lia|lia].
  apply (hits_after_removal layoutItems_open layoutItems_close inner);
    [by eexists|apply layoutItems_open_prefix|apply layoutItems_close_last
    |done|lia|fold t; lia].
Qed.

End LayoutsTwice.

Lemma processLayouts_second_pass_removes_nothing_witness :
  tag_structured two_layoutItems = true
  /\ exists content1 content2,
      processLayouts_content [lit "Case" ++ lit "." ++ lit "Name__c"]
                             two_layoutItems
      = Some (1, content1)
      /\ processLayouts_content [lit "Case" ++ lit "." ++ lit "Name__c"]
                                content1
         = Some (0, content2).
Proof.
  split; [reflexivity|].
  destruct (processLayouts_second_pass_removes_nothing
              (lit "Case") (lit "Name__c") two_layoutItems)
    as (content1 & content2 & H1 & _ & H2);
    [by vm_compute|by vm_compute|reflexivity|].
  exists content1, content2. split; [|exact H2].
  rewrite H1. by vm_compute.
Defined.

(** C6 as stated fails on a text that is not well-formed markup: the first
    pass takes out the one block and so joins [<layout] to [Items>]; the
    second pass finds the block this makes and removes it. *)
Lemma second_pass_removes_joined_block :
  processLayouts_content [lit "Case.F"] split_tag_layout
  = Some (1, lit "<layoutItems><field>F</field></layoutItems>")
  /\ processLayouts_content [lit "Case.F"]
       (lit "<layoutItems><field>F</field></layoutItems>")
     = Some (1, []).
Proof. split; by vm_compute. Qed.

(** ** Paths *)

Section Paths.

Lemma is_name_no_slash s : is_name s = true -> no_slash s = true.
Proof. unfold is_name. intros H. by repeat (apply andb_true_iff in H as [H ?]). Qed.

Lemma is_name_nonempty s : is_name s = true -> s <> [].
Proof. by destruct s. Qed.

Lemma split_on_nonempty sep s : split_on sep s <> [].
Proof.
  induction s as [|c s IH]; [done|]. cbn [split_on].
  destruct (c =? sep)%N; [done|]. by destruct (split_on sep s).
Qed.

Lemma split_on_cut sep a b :
  split_on sep (a ++ sep :: b) = split_on sep a ++ split_on sep b.
Proof.
  induction a as [|c a IH].
  - cbn [app split_on]. by rewrite N.eqb_refl.
  - cbn [app split_on]. rewrite IH. destruct (c =? sep)%N; [done|].
    pose proof (split_on_nonempty sep a). by destruct (split_on sep a).
Qed.

Lemma split_on_no_slash s : no_slash s = true -> split_on slash s = [s].
Proof.
  induction s as [|c s IH]; [done|]. cbn [no_slash forallb split_on].
  intros H. apply andb_true_iff in H as [Hc Hs].
  apply negb_true_iff in Hc. rewrite Hc. by rewrite IH.
Qed.

Lemma split_on_segments s : forallb no_slash (split_on slash s) = true.
Proof.
  induction s as [|c s IH]; [done|]. cbn [split_on].
  destruct (c =? slash)%N eqn:E; [done|].
  pose proof (split_on_nonempty slash s).
  destruct (split_on slash s) as [|x xs]; [done|].
  cbn [forallb no_slash] in *. by rewrite E.
Qed.

Lemma join_split s : join_segments (split_on slash s) = s.
Proof.
  induction s as [|c s IH]; [done|]. cbn [split_on].
  pose proof (split_on_nonempty slash s) as Hn.
  destruct (c =? slash)%N eqn:E.
  - apply N.eqb_eq in E as ->.
    destruct (split_on slash s) as [|x xs]; [done|].
    cbn [join_segments app]. by rewrite <- IH.
  - destruct (split_on slash s) as [|x xs]; [done|]. rewrite <- IH.
    by destruct xs.
Qed.

Lemma join_cons a rest :
  rest <> [] -> join_segments (a :: rest) = a ++ slash :: join_segments rest.
Proof. by destruct rest. Qed.

Lemma join_app a b :
  a <> [] -> b <> [] ->
  join_segments (a ++ b) = join_segments a ++ slash :: join_segments b.
Proof.
  intros Ha Hb. induction a as [|x a IH]; [done|].
  destruct a as [|y a].
  - cbn [app]. by rewrite join_cons.
  - change ((x :: y :: a) ++ b) with (x :: ((y :: a) ++ b)).
    rewrite !join_cons by done. rewrite IH by done.
    by rewrite <- app_assoc.
Qed.

Lemma split_join names :
  names <> [] -> forallb no_slash names = true ->
  split_on slash (join_segments names) = names.
Proof.
  induction names as [|x names IH]; [done|]. intros _ H.
  cbn [forallb] in H. apply andb_true_iff in H as [Hx Hn].
  destruct names as [|y names]; [by apply split_on_no_slash|].
  rewrite join_cons by done. rewrite split_on_cut, IH by done.
  by rewrite split_on_no_slash.
Qed.

Lemma names_no_slash names :
  forallb is_name names = true -> forallb no_slash names = true.
Proof.
  intros H. apply forallb_forall. intros x Hx.
  apply is_name_no_slash. by eapply forallb_forall in H.
Qed.

Lemma join_nonempty names :
  names <> [] -> forallb is_name names = true -> join_segments names <> [].
Proof.
  destruct names as [|x names]; [done|]. intros _ H.
  cbn [forallb] in H. apply andb_true_iff in H as [Hx _].
  apply is_name_nonempty in Hx. destruct names; [done|].
  rewrite join_cons by done. by destruct x.
Qed.

(** The last unit of a name is no separator. *)
Lemma last_join names :
  names <> [] -> forallb is_name names = true ->
  match last (join_segments names) with
  | Some d => (d =? slash)%N
  | None => false
  end = false.
Proof.
  intros Hn H.
  destruct (exists_last Hn) as (init & y & ->).
  rewrite forallb_app in H. apply andb_true_iff in H as [_ Hy].
  cbn [forallb] in Hy. rewrite andb_true_r in Hy.
  assert (exists pre, join_segments (init ++ [y]) = pre ++ y) as [pre ->].
  { destruct init as [|x init]; [by exists []|].
    rewrite join_app by done. eexists (_ ++ [slash]).
    by rewrite <- app_assoc. }
  pose proof (is_name_nonempty _ Hy) as Hne.
  apply is_name_no_slash in Hy.
  destruct (exists_last Hne) as (y0 & d & ->).
  rewrite app_assoc, last_snoc.
  unfold no_slash in Hy. rewrite forallb_app in Hy.
  apply andb_true_iff in Hy as [_ Hd]. cbn [forallb] in Hd.
  rewrite andb_true_r in Hd. by apply negb_true_iff in Hd.
Qed.

(** An [fsPath] is the path of its names. *)
Lemma fsPath_names p :
  fsPath p = true ->
  exists names,
    names <> [] /\ forallb is_name names = true /\ p = path_of names.
Proof.
  destruct p as [|c rest]; [done|]. cbn [fsPath]. intros H.
  apply andb_true_iff in H as [Hc Hn]. apply N.eqb_eq in Hc as ->.
  exists (split_on slash rest). split; [apply split_on_nonempty|].
  split; [done|]. unfold path_of. by rewrite join_split.
Qed.

Lemma fsPath_path_of names :
  names <> [] -> forallb is_name names = true -> fsPath (path_of names) = true.
Proof.
  intros Hn H. cbn [fsPath path_of]. rewrite N.eqb_refl.
  by rewrite split_join by (done || by apply names_no_slash).
Qed.

(** *** Normalization *)

Lemma forallb_rev {A} (f : A -> bool) l : forallb f (rev l) = forallb f l.
Proof.
  induction l as [|x l IH]; [done|]. cbn [rev forallb].
  rewrite forallb_app, IH. cbn [forallb]. rewrite andb_true_r. apply andb_comm.
Qed.

Lemma normalize_step_name absolute kept s :
  is_name s = true -> normalize_step absolute kept s = s :: kept.
Proof.
  unfold is_name, normalize_step. intros H.
  repeat (apply andb_true_iff in H as [H ?]).
  repeat match goal with
         | H : negb (bool_decide _) = true |- _ =>
             apply negb_true_iff, bool_decide_eq_false in H
         end.
  by rewrite !bool_decide_eq_false_2 by done.
Qed.

Lemma foldl_normalize_names absolute kept names :
  forallb is_name names = true ->
  foldl (normalize_step absolute) kept names = rev names ++ kept.
Proof.
  revert kept. induction names as [|x names IH]; intros kept H; [done|].
  cbn [forallb] in H. apply andb_true_iff in H as [Hx Hn].
  cbn [foldl]. rewrite normalize_step_name, IH by done.
  cbn [rev]. by rewrite <- app_assoc.
Qed.

(** In an absolute path the segments kept are names. *)
Lemma normalize_step_kept kept s :
  forallb is_name kept = true -> no_slash s = true ->
  forallb is_name (normalize_step true kept s) = true.
Proof.
  intros Hk Hs. unfold normalize_step.
  case_bool_decide as E1; [done|]. case_bool_decide as E2; [done|].
  cbn [orb]. case_bool_decide as E3.
  - destruct kept as [|top below]; [done|].
    case_bool_decide; [done|]. cbn [forallb] in Hk.
    by apply andb_true_iff in Hk as [_ ?].
  - cbn [forallb]. rewrite Hk, andb_true_r. unfold is_name.
    rewrite !bool_decide_eq_false_2 by done. done.
Qed.

Lemma foldl_normalize_kept kept segments :
  forallb is_name kept = true -> forallb no_slash segments = true ->
  forallb is_name (foldl (normalize_step true) kept segments) = true.
Proof.
  revert kept. induction segments as [|s segments IH]; intros kept Hk Hs;
    [done|].
  cbn [forallb] in Hs. apply andb_true_iff in Hs as [Hs Hr].
  cbn [foldl]. apply IH; [|done]. by apply normalize_step_kept.
Qed.

(** The normal form of an absolute path that does not end with a
    separator, from the segments kept. *)
Lemma path_normalize_absolute rest kept :
  foldl (normalize_step true) [] (split_on slash (slash :: rest)) = kept ->
  kept <> [] -> forallb is_name kept = true ->
  match last (slash :: rest) with
  | Some d => (d =? slash)%N
  | None => false
  end = false ->
  path_normalize (slash :: rest) = path_of (rev kept).
Proof.
  intros Hk Hne Hn Hl. unfold path_normalize. cbv zeta.
  change (slash =? slash)%N with true. rewrite Hk, Hl.
  assert (join_segments (rev kept) <> []) as Hj.
  { apply join_nonempty.
    - intros E. apply (f_equal (@rev str)) in E.
      by rewrite rev_involutive in E.
    - by rewrite forallb_rev. }
  unfold path_of.
  destruct (join_segments (rev kept)) as [|c body]; [done|].
  cbn [app]. by rewrite app_nil_r.
Qed.

Lemma last_app_cons {A} (a : list A) x b : last (a ++ x :: b) = last (x :: b).
Proof.
  induction a as [|y a IH]; [done|]. cbn [app]. rewrite <- IH.
  by destruct (a ++ x :: b) eqn:E; [destruct a|].
Qed.

Lemma last_app_nonempty {A} (a b : list A) : b <> [] -> last (a ++ b) = last b.
Proof. destruct b as [|x b]; [done|]. intros _. apply last_app_cons. Qed.

Lemma base_names_names ws folder : forallb is_name (base_names ws folder) = true.
Proof.
  unfold base_names. rewrite forallb_rev.
  apply foldl_normalize_kept; [done|apply split_on_segments].
Qed.

(** [path.join(ws, folder, names...)] *)
Lemma path_join_under ws folder names :
  fsPath ws = true -> folder <> [] ->
  names <> [] -> forallb is_name names = true ->
  path_join [ws; folder; join_segments names]
  = path_of (base_names ws folder ++ names).
Proof.
  intros Hws Hf Hn Hnames.
  pose proof (join_nonempty names Hn Hnames) as Hj.
  destruct ws as [|c wrest]; [done|]. cbn [fsPath] in Hws.
  apply andb_true_iff in Hws as [Hc _]. apply N.eqb_eq in Hc as ->.
  unfold path_join. cbn [List.filter].
  rewrite !bool_decide_eq_false_2 by done. cbn [negb join_segments app].
  rewrite (path_normalize_absolute _ (rev names ++ rev (base_names (slash :: wrest) folder))).
  - by rewrite rev_app_distr, !rev_involutive.
  - replace (slash :: wrest ++ slash :: folder ++ slash :: join_segments names)
      with (((slash :: wrest) ++ slash :: folder)
              ++ slash :: join_segments names)
      by (by rewrite <- app_assoc).
    rewrite split_on_cut, foldl_app.
    rewrite split_join by (done || by apply names_no_slash).
    rewrite foldl_normalize_names by done. unfold base_names.
    by rewrite rev_involutive.
  - destruct (exists_last Hn) as (i & y & ->). rewrite rev_app_distr. done.
  - rewrite forallb_app, !forallb_rev, Hnames. apply base_names_names.
  - replace (slash :: wrest ++ slash :: folder ++ slash :: join_segments names)
      with (((slash :: wrest) ++ slash :: folder ++ [slash])
              ++ join_segments names)
      by (repeat (progress cbn [app] || rewrite <- app_assoc); done).
    rewrite last_app_nonempty by done. by apply last_join.
Qed.

(** [path.join(dir, rel)] for a directory and a path made of names. *)
Lemma path_join_names dir rel names :
  dir <> [] -> forallb is_name dir = true ->
  names <> [] -> forallb is_name names = true ->
  rel = join_segments names \/ rel = path_of names ->
  path_join [path_of dir; rel] = path_of (dir ++ names).
Proof.
  intros Hd Hdn Hn Hnames Hrel.
  pose proof (join_nonempty names Hn Hnames) as Hj.
  assert (rel <> []) as Hr by (destruct Hrel as [->| ->]; done).
  unfold path_join. cbn [List.filter].
  rewrite (bool_decide_eq_false_2 (path_of dir = [])) by done.
  rewrite (bool_decide_eq_false_2 (rel = [])) by done.
  cbn [negb join_segments]. unfold path_of at 1. cbn [app].
  rewrite (path_normalize_absolute _ (rev names ++ rev dir)).
  - by rewrite rev_app_distr, !rev_involutive.
  - cbn [split_on]. rewrite N.eqb_refl. cbn [foldl]. unfold normalize_step at 2.
    rewrite bool_decide_eq_true_2 by done. cbn [orb].
    rewrite split_on_cut, foldl_app.
    rewrite split_join by (done || by apply names_no_slash).
    rewrite (foldl_normalize_names true [] dir), app_nil_r by done.
    destruct Hrel as [->| ->].
    + rewrite split_join by (done || by apply names_no_slash).
      by rewrite foldl_normalize_names.
    + unfold path_of. cbn [split_on]. rewrite N.eqb_refl. cbn [foldl].
      unfold normalize_step at 2. rewrite bool_decide_eq_true_2 by done.
      cbn [orb]. rewrite split_join by (done || by apply names_no_slash).
      by rewrite foldl_normalize_names.
  - destruct (exists_last Hn) as (i & y & ->). rewrite rev_app_distr. done.
  - by rewrite forallb_app, !forallb_rev, Hnames, Hdn.
  - rewrite app_comm_cons, last_app_cons.
    destruct Hrel as [->| ->].
    + change (slash :: join_segments names)
        with ([slash] ++ join_segments names).
      rewrite last_app_nonempty by done. by apply last_join.
    + unfold path_of.
      change (slash :: slash :: join_segments names)
        with ([slash; slash] ++ join_segments names).
      rewrite last_app_nonempty by done. by apply last_join.
Qed.

(** The path of a file below the workspace folder, or the file's own. *)
Lemma asRelativePath_names ws filePath :
  fsPath ws = true -> fsPath filePath = true ->
  exists names,
    names <> [] /\ forallb is_name names = true
    /\ (asRelativePath ws filePath = join_segments names
        \/ asRelativePath ws filePath = path_of names).
Proof.
  intros Hws Hf. unfold asRelativePath.
  destruct (starts_with (ws ++ lit "/") filePath) eqn:E.
  - apply starts_with_spec in E as [x ->].
    rewrite <- app_assoc. cbn [app lit].
    replace (S (length ws)) with (length (ws ++ [slash]))
      by (rewrite length_app; simpl; lia).
    change (ws ++ ch "/" :: x) with (ws ++ [slash] ++ x).
    rewrite app_assoc, drop_app_length.
    destruct ws as [|c wrest]; [done|]. cbn [fsPath app] in Hws, Hf.
    apply andb_true_iff in Hf as [_ Hf].
    rewrite <- app_assoc in Hf.
    change (wrest ++ lit "/" ++ x) with (wrest ++ slash :: x) in Hf.
    rewrite split_on_cut, forallb_app in Hf.
    apply andb_true_iff in Hf as [_ Hx].
    exists (split_on slash x). split; [apply split_on_nonempty|].
    split; [done|]. left. by rewrite join_split.
  - destruct (fsPath_names _ Hf) as (names & Hn & Hnames & ->).
    exists names. by repeat split; [..|right].
Qed.

(** *** The name of the directory of a backup *)

Lemma timestamp_units {C} (w : World C) :
  iso_text (clock w) = true ->
  timestamp_of w <> []
  /\ forallb (fun c => negb (c =? slash)%N && negb (c =? 46)%N) (timestamp_of w)
     = true.
Proof.
  unfold iso_text, timestamp_of. intros H.
  apply andb_true_iff in H as [Hne Hu].
  apply negb_true_iff, bool_decide_eq_false in Hne.
  unfold replace_all, replace_map, segments.
  change (regex_literal "[:.]")
    with (Seq (CharClass false [CChar 58; CChar 46]) Empty).
  change (concat (map ?g ?ps)) with (render (fun _ : str => lit "-") ps).
  rewrite render_segments_class by lia.
  destruct (clock w) as [|c s]; [done|]. split.
  - cbn [flat_map]. by destruct (class_mem false _ c).
  - clear Hne. revert Hu. generalize (c :: s). clear c s.
    intros s. induction s as [|c s IH]; [done|]. cbn [forallb flat_map].
    intros H. apply andb_true_iff in H as [Hc Hs].
    rewrite forallb_app, IH, andb_true_r by done.
    unfold class_mem. cbn [existsb atom_mem andb orb].
    destruct (c =? 58)%N eqn:E1; [done|].
    destruct (c =? 46)%N eqn:E2; [done|]. cbn [orb forallb].
    rewrite E2. destruct (c =? slash)%N eqn:E3; [|done].
    apply N.eqb_eq in E3. by subst c.
Qed.

Lemma timestamp_name {C} (w : World C) :
  iso_text (clock w) = true ->
  is_name (timestamp_of w) = true
  /\ timestamp_of w <> lit "backup-mapping.json".
Proof.
  intros H. apply timestamp_units in H as [Hne Hu]. split.
  - unfold is_name. rewrite bool_decide_eq_false_2 by done.
    rewrite !bool_decide_eq_false_2 by (intros E; by rewrite E in Hu).
    cbn [negb andb]. unfold no_slash. eapply forallb_impl; [|exact Hu].
    intros c Hc. by apply andb_true_iff in Hc as [? _].
  - intros E. by rewrite E in Hu.
Qed.

(** *** Directories above a path *)

Lemma skip_stays f s :
  match s with c :: _ => f c = false | [] => True end -> skip f s = s.
Proof. destruct s as [|c s]; [done|]. cbn [skip]. by intros ->. Qed.

Lemma skip_app_all f a b : forallb f a = true -> skip f (a ++ b) = skip f b.
Proof.
  induction a as [|c a IH]; [done|]. cbn [forallb app skip]. intros H.
  apply andb_true_iff in H as [-> Ha]. by apply IH.
Qed.

Lemma dirname_path_of dir y :
  forallb is_name dir = true -> is_name y = true ->
  dirname (path_of (dir ++ [y]))
  = match dir with [] => lit "/" | _ :: _ => path_of dir end.
Proof.
  intros Hd Hy. pose proof (is_name_nonempty _ Hy) as Hne.
  pose proof (is_name_no_slash _ Hy) as Hs.
  assert (forallb (fun d => negb (d =? slash)%N) (rev y) = true) as Hr
    by (by rewrite forallb_rev).
  assert (skip (fun d => (d =? slash)%N) (rev y) = rev y) as E1.
  { apply skip_stays. destruct (rev y) as [|d r] eqn:E; [done|].
    cbn [forallb] in Hr. apply andb_true_iff in Hr as [Hd' _].
    by apply negb_true_iff in Hd'. }
  destruct dir as [|x dir].
  - unfold path_of, dirname. cbn [app join_segments].
    change (slash =? slash)%N with true.
    rewrite E1. rewrite <- (app_nil_r (rev y)), skip_app_all by done. done.
  - assert (x :: dir <> []) as Hn by done.
    pose proof (join_nonempty _ Hn Hd) as Hj.
    unfold path_of. rewrite join_app by done.
    change (join_segments [y]) with y.
    set (J := join_segments (x :: dir)) in *.
    unfold dirname. change (slash =? slash)%N with true.
    rewrite rev_app_distr. cbn [rev]. rewrite <- !app_assoc.
    rewrite (skip_stays (fun d => (d =? slash)%N)).
    + rewrite (skip_app_all (fun d => negb (d =? slash)%N)) by done.
      cbn [app skip].
      change (negb (slash =? slash)%N) with false. cbv iota.
      rewrite length_rev.
      destruct (length J =? 0) eqn:E0.
      * apply Nat.eqb_eq in E0. by destruct J.
      * cbn [andb]. exact (take_app_length (slash :: J) (slash :: y)).
    + destruct (rev y) as [|d r] eqn:E.
      * apply (f_equal (@rev N)) in E. by rewrite rev_involutive in E.
      * cbn [app]. cbn [forallb] in Hr. apply andb_true_iff in Hr as [Hd' _].
        by apply negb_true_iff in Hd'.
Qed.

Lemma ancestors_from_app before x y :
  ancestors_from before (x ++ y)
  = ancestors_from before x ++ ancestors_from (before ++ x) y.
Proof.
  revert before. induction x as [|c x IH]; intros before.
  - cbn [app ancestors_from]. by rewrite app_nil_r.
  - cbn [app ancestors_from]. rewrite IH, <- !app_assoc. done.
Qed.

Lemma ancestors_from_no_slash before x :
  no_slash x = true -> ancestors_from before x = [].
Proof.
  revert before. induction x as [|c x IH]; intros before; [done|].
  cbn [no_slash forallb ancestors_from]. intros H.
  apply andb_true_iff in H as [Hc Hx]. apply negb_true_iff in Hc.
  rewrite Hc. by apply IH.
Qed.

(** The directories above a path are above every path that goes on from
    it. *)
Lemma ancestors_path_of dir names :
  dir <> [] -> forallb is_name dir = true ->
  names <> [] ->
  exists more,
    ancestors (path_of (dir ++ names))
    = ancestors (path_of dir) ++ path_of dir :: more.
Proof.
  intros Hd Hdn Hn. unfold path_of at 1. rewrite join_app by done.
  rewrite app_comm_cons. fold (path_of dir).
  unfold ancestors. rewrite ancestors_from_app. cbn [app ancestors_from].
  change (slash =? slash)%N with true. cbv iota.
  rewrite bool_decide_eq_false_2 by done. cbn [app]. by eexists.
Qed.

Lemma ancestors_root names :
  exists more, ancestors (path_of names) = lit "/" :: more.
Proof.
  unfold ancestors, path_of. cbn [ancestors_from].
  change (slash =? slash)%N with true. cbv iota. by eexists.
Qed.

Lemma ancestors_path_of_snoc dir y :
  dir <> [] -> forallb is_name dir = true -> is_name y = true ->
  ancestors (path_of (dir ++ [y])) = ancestors (path_of dir) ++ [path_of dir].
Proof.
  intros Hd Hdn Hy. unfold path_of at 1. rewrite join_app by done.
  rewrite app_comm_cons. fold (path_of dir).
  unfold ancestors. rewrite ancestors_from_app. cbn [app ancestors_from].
  change (slash =? slash)%N with true. cbv iota.
  rewrite bool_decide_eq_false_2 by done. cbn [app join_segments].
  rewrite (ancestors_from_no_slash _ y); [done|by apply is_name_no_slash].
Qed.

Lemma ancestors_path_of_one y :
  is_name y = true -> ancestors (path_of [y]) = [lit "/"].
Proof.
  intros Hy. unfold ancestors, path_of. cbn [ancestors_from join_segments].
  change (slash =? slash)%N with true. cbv iota. cbn [app].
  rewrite (ancestors_from_no_slash _ y); [done|by apply is_name_no_slash].
Qed.

(** A directory above a path has a shorter path. *)
Lemma ancestors_from_shorter before rest q :
  In q (ancestors_from before rest) ->
  length q < length before + length rest \/ (before = [] /\ q = [slash]).
Proof.
  revert before. induction rest as [|c rest IH]; intros before; [done|].
  cbn [ancestors_from]. intros H. apply in_app_or in H as [H|H].
  - destruct (c =? slash)%N; [|done]. destruct H as [<-|[]].
    case_bool_decide as E; [right; by subst|]. left. simpl. lia.
  - apply IH in H as [H|[H _]]; [|by destruct before].
    left. rewrite length_app in H. simpl in *. lia.
Qed.

Lemma ancestors_not_self names q :
  names <> [] -> forallb is_name names = true ->
  In q (ancestors (path_of names)) -> q <> path_of names.
Proof.
  intros Hn Hnames H E. apply ancestors_from_shorter in H.
  pose proof (join_nonempty _ Hn Hnames) as Hj.
  subst q. unfold path_of in H. destruct (join_segments names); [done|].
  simpl in H. destruct H as [H|[_ H]]; [lia|done].
Qed.

(** *** Paths side by side *)

Lemma starts_with_app_both x y z : starts_with (x ++ y) (x ++ z) = starts_with y z.
Proof. induction x as [|c x IH]; [done|]. simpl. by rewrite N.eqb_refl. Qed.

Lemma starts_with_name a b t :
  no_slash a = true -> no_slash b = true ->
  starts_with (a ++ [slash]) (b ++ slash :: t) = true -> a = b.
Proof.
  revert b. induction a as [|d a IH]; intros [|c b] Ha Hb H; [done|..].
  - cbn [app starts_with] in H. apply andb_true_iff in H as [H _].
    apply N.eqb_eq in H as <-. cbn [no_slash forallb] in Hb.
    by rewrite N.eqb_refl in Hb.
  - cbn [app starts_with] in H. apply andb_true_iff in H as [H _].
    apply N.eqb_eq in H as ->. cbn [no_slash forallb] in Ha.
    by rewrite N.eqb_refl in Ha.
  - cbn [app starts_with] in H. apply andb_true_iff in H as [H1 H2].
    apply N.eqb_eq in H1 as ->. cbn [no_slash forallb] in Ha, Hb.
    apply andb_true_iff in Ha as [_ Ha]. apply andb_true_iff in Hb as [_ Hb].
    f_equal. by apply IH.
Qed.

(** The text a path starts with, for the names it starts with. *)
Lemma path_of_app dir :
  exists pre, forall names,
    names <> [] -> path_of (dir ++ names) = pre ++ join_segments names.
Proof.
  destruct dir as [|x dir].
  - exists [slash]. intros names _. done.
  - exists (path_of (x :: dir) ++ [slash]). intros names Hn.
    unfold path_of. rewrite join_app by done.
    by rewrite <- !app_assoc.
Qed.

(** Two files in one directory: neither is the other, and neither lies
    below the other. *)
Lemma sibling_paths dir a b rest :
  is_name a = true -> is_name b = true -> a <> b ->
  path_of (dir ++ b :: rest) <> path_of (dir ++ [a])
  /\ starts_with (path_of (dir ++ [a]) ++ [slash]) (path_of (dir ++ b :: rest))
     = false.
Proof.
  intros Ha Hb Hab. destruct (path_of_app dir) as [pre Hpre].
  rewrite !Hpre by done. change (join_segments [a]) with a.
  apply is_name_no_slash in Ha, Hb.
  assert (forall x t, no_slash (x ++ slash :: t) = false) as Hno.
  { intros x t. unfold no_slash. rewrite forallb_app. cbn [forallb].
    rewrite N.eqb_refl. apply andb_false_r. }
  split.
  - intros E. apply app_inv_head in E. destruct rest as [|r rest].
    + change (join_segments [b]) with b in E. by subst.
    + rewrite join_cons in E by done. rewrite <- E, Hno in Ha. done.
  - rewrite <- app_assoc, starts_with_app_both.
    destruct (starts_with _ _) eqn:E; [|done]. destruct Hab.
    destruct rest as [|r rest].
    + apply starts_with_spec in E as [t E]. rewrite <- app_assoc in E.
      change (join_segments [b]) with b in E. cbn [app] in E.
      rewrite E, Hno in Hb. done.
    + rewrite join_cons in E by done. by apply starts_with_name in E.
Qed.

(** *** The store *)

Lemma is_directory_spec {C} (p : str) (fs : gmap str (node C)) :
  is_directory p fs = true
  <-> exists q, is_Some (fs !! q) /\ starts_with (p ++ [slash]) q = true.
Proof.
  unfold is_directory. rewrite existsb_exists. split.
  - intros (q & Hq & Hs). exists q. split; [|done].
    apply in_map_iff in Hq as ([q' v] & <- & Hv).
    apply list_elem_of_In, elem_of_map_to_list in Hv. by eexists.
  - intros (q & [v Hv] & Hs). exists q. split; [|done].
    apply in_map_iff. exists (q, v). split; [done|].
    by apply list_elem_of_In, elem_of_map_to_list.
Qed.

Lemma is_directory_insert {C} (p k : str) (v : node C)
    (fs : gmap str (node C)) :
  is_directory p fs = false ->
  starts_with (p ++ [slash]) k = false ->
  is_directory p (<[k := v]> fs) = false.
Proof.
  intros Hd Hk. destruct (is_directory p (<[k:=v]> fs)) eqn:E; [|done].
  apply is_directory_spec in E as (q & Hq & Hs).
  destruct (decide (q = k)) as [->|Hne]; [congruence|].
  rewrite lookup_insert_ne in Hq by done.
  assert (is_directory p fs = true) by (apply is_directory_spec; eauto).
  congruence.
Qed.

Lemma is_file_insert {C} (q k : str) (v : node C)
    (fs : gmap str (node C)) :
  is_file q (<[k := v]> fs) = bool_decide (q = k) || is_file q fs.
Proof.
  unfold is_file. case_bool_decide as E.
  - subst. by rewrite lookup_insert_eq.
  - by rewrite lookup_insert_ne.
Qed.

End Paths.

(** ** Undo *)

Section Undo.
Context {C : Type}.
Implicit Types (w : World C).

Lemma restoreBackup_globalState p w :
  globalState (snd (restoreBackup p w)) = globalState w.
Proof.
  unfold restoreBackup. destruct (getBackupPath p w) as [b|]; [|done].
  destruct (_ || _); [done|].
  unfold copyFileSync. destruct (files w !! b); [|done].
  cbn [mbind option_bind]. by destruct (writable p (files w)).
Qed.

Lemma restores_globalState paths w :
  globalState (restores paths w) = globalState w.
Proof.
  revert w. induction paths as [|p paths IH]; intros w; [done|].
  unfold restores in *. cbn [foldl]. by rewrite IH, restoreBackup_globalState.
Qed.

(** The workspace the loop leaves is the one the restores leave, made one
    after the other. *)
Lemma restoreAll_restores paths w : snd (restoreAll paths w) = restores paths w.
Proof.
  revert w. induction paths as [|p paths IH]; intros w; [done|].
  cbn [restoreAll]. unfold restores. cbn [foldl].
  destruct (restoreBackup p w) as [ok w1]. specialize (IH w1).
  destruct (restoreAll paths w1) as [oks w2]. exact IH.
Qed.

Lemma restoreAll_globalState paths w :
  globalState (snd (restoreAll paths w)) = globalState w.
Proof. by rewrite restoreAll_restores, restores_globalState. Qed.

Lemma restoreAll_app a b w :
  restoreAll (a ++ b) w
  = (fst (restoreAll a w) ++ fst (restoreAll b (snd (restoreAll a w))),
     snd (restoreAll b (snd (restoreAll a w)))).
Proof.
  revert w. induction a as [|p a IH]; intros w.
  - simpl. by destruct (restoreAll b w).
  - cbn [app restoreAll]. destruct (restoreBackup p w) as [ok w1].
    rewrite IH. destruct (restoreAll a w1) as [oks w2]. done.
Qed.

Lemma restoreAll_length paths w :
  length (fst (restoreAll paths w)) = length paths.
Proof.
  revert w. induction paths as [|p paths IH]; intros w; [done|].
  cbn [restoreAll]. destruct (restoreBackup p w) as [ok w1].
  specialize (IH w1). destruct (restoreAll paths w1). simpl in *. lia.
Qed.

(** C9.  When the head entry of the history has a [filesModified] list and
    the user confirms, [undoLast] returns [true].  The workspace it leaves
    is the one that [restoreBackup], called on every path of the list in
    turn, leaves, each call made on the workspace of the calls before it,
    with the history cut by its head.  Every path gets its call whatever
    the calls before it returned: the result at index [i] is the result of
    [restoreBackup] on the workspace the first [i] restores have left. *)
Theorem undoLast_restores_every_path (w : World C) (lastEntry : HistoryEntry)
    (rest : list HistoryEntry) (paths : list str) :
  getHistory w = lastEntry :: rest ->
  d_filesModified (details lastEntry) = Some paths ->
  undoLast (Some (lit "Yes, Undo")) w
  = (true,
     saveHistory rest
       (foldl (fun w' filePath => snd (restoreBackup filePath w')) w paths))
  /\ length (fst (restoreAll paths w)) = length paths
  /\ forall i p,
      paths !! i = Some p ->
      fst (restoreAll paths w) !! i
      = Some (fst (restoreBackup p
                     (foldl (fun w' filePath => snd (restoreBackup filePath w'))
                            w (take i paths)))).
Proof.
  intros Hh Hp. fold (restores paths w). split; [|split].
  - unfold undoLast, getLastEntry. rewrite Hh. cbn [head]. rewrite Hp.
    rewrite (bool_decide_eq_true_2 (is_Some (Some paths))) by eauto.
    rewrite andb_false_r. cbn [negb bool_decide].
    rewrite bool_decide_eq_true_2 by done. cbn [negb].
    rewrite restoreAll_restores.
    rewrite getHistory_globalState, restores_globalState,
      <- getHistory_globalState, Hh. done.
  - apply restoreAll_length.
  - intros i p Hi. fold (restores (take i paths) w).
    rewrite <- restoreAll_restores.
    rewrite <- (take_drop_middle paths i p Hi) at 1.
    rewrite restoreAll_app. cbn [fst].
    rewrite lookup_app_r by (rewrite restoreAll_length, length_take; lia).
    rewrite restoreAll_length, length_take.
    apply lookup_lt_Some in Hi as Hlt.
    replace (i - i `min` length paths) with 0 by lia.
    cbn [restoreAll].
    destruct (restoreBackup p _) as [ok w1].
    by destruct (restoreAll (drop (S i) paths) w1).
Qed.

End Undo.

Lemma undoLast_restores_every_path_witness :
  fst (undoLast (Some (lit "Yes, Undo")) undo_world) = true
  /\ fst (restoreAll undo_paths undo_world) = [true; false; false; true]
  /\ getHistory (snd (undoLast (Some (lit "Yes, Undo")) undo_world))
     = [sample_entry 1 None]
  /\ map (fun p => files (snd (undoLast (Some (lit "Yes, Undo")) undo_world))
                     !! p) undo_paths
     = [Some (Data (lit "<old-a/>")); Some (Data (lit "<new-b/>"));
        Some (Data (lit "<new-c/>")); Some (Data (lit "<old-d/>"))].
Proof.
  destruct (undoLast_restores_every_path undo_world
              (sample_entry 2 (Some undo_paths)) [sample_entry 1 None]
              undo_paths eq_refl eq_refl) as (H1 & _ & _).
  rewrite H1. split; [reflexivity|]. split; [by vm_compute|].
  split; [reflexivity|]. by vm_compute.
Defined.

(** ** Backup and restore *)

Section Backup.
Context {C : Type}.
Implicit Types (w : World C).

Lemma configured_backupFolder_nonempty w : configured_backupFolder w <> [].
Proof. unfold configured_backupFolder. by case_bool_decide. Qed.

(** The mapping file and the copy lie below one directory, the copy under
    the name of the moment. *)
Lemma backup_paths w ws filePath :
  fsPath ws = true -> fsPath filePath = true -> iso_text (clock w) = true ->
  exists base rel,
    forallb is_name base = true /\ rel <> [] /\ forallb is_name rel = true
    /\ configured_mappingFile ws w
       = path_of (base ++ [lit "backup-mapping.json"])
    /\ backupPath_of ws filePath w = path_of (base ++ timestamp_of w :: rel).
Proof.
  intros Hws Hf Hc. apply timestamp_name in Hc as [Hts _].
  pose proof (configured_backupFolder_nonempty w) as Hb.
  destruct (asRelativePath_names ws filePath Hws Hf) as (rel & Hr & Hn & Hrel).
  exists (base_names ws (configured_backupFolder w)), rel.
  split; [apply base_names_names|]. split; [done|]. split; [done|]. split.
  - unfold configured_mappingFile.
    by rewrite <- (path_join_under ws _ [lit "backup-mapping.json"]).
  - unfold backupPath_of.
    change (timestamp_of w) with (join_segments [timestamp_of w]) at 1.
    rewrite path_join_under by (done || by cbn [forallb]; rewrite Hts).
    rewrite (path_join_names _ _ rel); [by rewrite <- app_assoc|..|done];
      [by destruct (base_names _ _)| |done|done].
    rewrite forallb_app, base_names_names. cbn [forallb]. by rewrite Hts.
Qed.

(** The directories [createBackup] and [storeBackupMapping] make lie
    above the copy. *)
Lemma backup_directories base ts rel :
  forallb is_name base = true -> is_name ts = true ->
  rel <> [] -> forallb is_name rel = true ->
  let bp := path_of (base ++ ts :: rel) in
  let mf := path_of (base ++ [lit "backup-mapping.json"]) in
  incl (dirname bp :: ancestors (dirname bp)) (ancestors bp)
  /\ incl (dirname mf :: ancestors (dirname mf)) (ancestors bp)
  /\ incl (ancestors mf) (ancestors bp).
Proof.
  intros Hb Hts Hr Hn bp mf.
  assert (is_name (lit "backup-mapping.json") = true) as Hbm by done.
  split; [|destruct base as [|x base]].
  - destruct (exists_last Hr) as (init & y & ->).
    rewrite forallb_app in Hn. apply andb_true_iff in Hn as [Hi Hy].
    cbn [forallb] in Hy. rewrite andb_true_r in Hy.
    assert (forallb is_name (base ++ ts :: init) = true) as Ha.
    { rewrite forallb_app, Hb. cbn [forallb]. by rewrite Hts, Hi. }
    assert (base ++ ts :: init <> []) as Hne by (by destruct base).
    unfold bp.
    replace (base ++ ts :: init ++ [y]) with ((base ++ ts :: init) ++ [y])
      by (by rewrite <- app_assoc).
    rewrite dirname_path_of, ancestors_path_of_snoc by done.
    destruct (base ++ ts :: init) as [|a l] eqn:E; [done|]. rewrite <- E.
    intros q [<-|Hq]; apply in_or_app; [right; by left|by left].
  - unfold mf, bp. cbn [app].
    pose proof (dirname_path_of [] _ eq_refl Hbm) as E. cbn [app] in E.
    rewrite E, ancestors_path_of_one by done.
    destruct (ancestors_root (ts :: rel)) as [more ->].
    split; intros q Hq.
    + left. vm_compute in Hq. destruct Hq as [<-|[<-|[]]]; done.
    + left. by destruct Hq as [<-|[]].
  - unfold mf, bp.
    rewrite (dirname_path_of (x :: base)), ancestors_path_of_snoc by done.
    destruct (ancestors_path_of (x :: base) (ts :: rel)) as [more ->];
      [done..|].
    split; intros q Hq.
    + destruct Hq as [<-|Hq]; apply in_or_app; [right; by left|by left].
    + apply in_app_or in Hq as [Hq|[<-|[]]]; apply in_or_app;
        [by left|right; by left].
Qed.

Lemma no_file_among (fs : gmap str (node C)) l l' :
  forallb (fun q => negb (is_file q fs)) l' = true -> incl l l' ->
  existsb (fun q => is_file q fs) l = false.
Proof.
  intros H Hi. destruct (existsb _ l) eqn:E; [|done].
  apply existsb_exists in E as (q & Hq & Hf).
  eapply forallb_forall in H; [|by apply Hi]. by rewrite Hf in H.
Qed.

(** What a successful [createBackup] returns and leaves: the copy and the
    new entry of the mapping file. *)
Lemma createBackup_at w ws filePath n :
  workspaceFolder w = Some ws ->
  fsPath ws = true -> fsPath filePath = true -> iso_text (clock w) = true ->
  files w !! filePath = Some n ->
  (forall d, files w !! configured_mappingFile ws w <> Some (Data d)) ->
  free (backupPath_of ws filePath w) (files w) = true ->
  is_directory (configured_mappingFile ws w) (files w) = false ->
  backupPath_of ws filePath w <> configured_mappingFile ws w
  /\ exists mappings,
      createBackup filePath w
      = (Some (backupPath_of ws filePath w),
         set_files
           (<[configured_mappingFile ws w
                := Mappings (<[filePath := backupPath_of ws filePath w]>
                               mappings)]>
              (<[backupPath_of ws filePath w := n]> (files w)))
           (set_backupFolder (configured_backupFolder w) w)).
Proof.
  intros Hws Hfw Hfp Hc Hf Hm Hfree Hdir.
  destruct (backup_paths w ws filePath Hfw Hfp Hc)
    as (base & rel & Hb & Hr & Hn & Emf & Ebp).
  pose proof (timestamp_name w Hc) as [Hts Hne].
  pose proof (backup_directories base (timestamp_of w) rel Hb Hts Hr Hn) as I.
  pose proof (sibling_paths base (lit "backup-mapping.json") (timestamp_of w)
                rel eq_refl Hts (not_eq_sym Hne)) as S.
  pose proof (ancestors_not_self (base ++ timestamp_of w :: rel)) as Hself.
  cbv zeta in I. rewrite <- Emf in I, S. rewrite <- Ebp in I, S, Hself.
  destruct I as (I1 & I2 & I3). destruct S as [Hbm Hbelow].
  set (bp := backupPath_of ws filePath w) in *.
  set (mf := configured_mappingFile ws w) in *.
  apply andb_true_iff in Hfree as [Habove Hnd].
  apply negb_true_iff in Hnd.
  assert (forall q, In q (ancestors bp) -> q <> bp) as Hself'.
  { intros q. apply Hself; [by destruct base|].
    rewrite forallb_app, Hb. cbn [forallb]. by rewrite Hts, Hn. }
  clear Hself. rename Hself' into Hself.
  assert (forallb (fun q => negb (is_file q (<[bp := n]> (files w))))
                  (ancestors bp) = true) as Habove'.
  { apply forallb_forall. intros q Hq. rewrite is_file_insert.
    rewrite bool_decide_eq_false_2 by by apply Hself.
    by eapply forallb_forall in Habove. }
  split; [done|].
  assert (exists m0,
             match files w !! mf with
             | Some (Data _) => None
             | Some (Mappings m) => Some m
             | None => Some ∅
             end = Some m0) as [m0 Hm0].
  { destruct (files w !! mf) as [[d|m]|] eqn:E; [by destruct (Hm d)|eauto..]. }
  exists m0. unfold createBackup. rewrite Hws.
  change (path_join [path_join [ws; backupFolder (set_backupFolder _ w); _];
                     asRelativePath ws filePath]) with bp.
  set (w1 := set_backupFolder (configured_backupFolder w) w).
  assert (ensure_directory (dirname bp) w1 = Some w1) as ->.
  { unfold ensure_directory, existsSync, mkdirSync.
    change (files w1) with (files w).
    pose proof (no_file_among (files w) _ _ Habove I1) as E.
    cbn [existsb] in E. apply orb_false_iff in E as [E1 E2].
    cbn [existsb]. by rewrite E1, E2. }
  unfold copyFileSync. change (files w1) with (files w). rewrite Hf.
  cbn [mbind option_bind].
  assert (writable bp (files w) = true) as ->.
  { unfold writable. by rewrite Habove, Hnd, orb_true_r. }
  f_equal. unfold storeBackupMapping.
  cbn [workspaceFolder set_files set_backupFolder w1]. rewrite Hws.
  change (mappingFile ws (set_files _ w1)) with mf.
  cbn [files set_files]. rewrite lookup_insert_ne by done. rewrite Hm0.
  assert (object_set filePath bp m0 = <[filePath := bp]> m0) as ->.
  { unfold object_set. rewrite bool_decide_eq_false_2; [done|].
    intros ->. done. }
  assert (ensure_directory (dirname mf)
            (set_files (<[bp := n]> (files w)) w1)
          = Some (set_files (<[bp := n]> (files w)) w1)) as ->.
  { unfold ensure_directory, existsSync, mkdirSync. cbn [files set_files].
    pose proof (no_file_among _ _ _ Habove' I2) as E.
    cbn [existsb] in E. apply orb_false_iff in E as [E1 E2].
    cbn [existsb]. by rewrite E1, E2. }
  cbn [files set_files].
  assert (writable mf (<[bp := n]> (files w)) = true) as ->.
  { unfold writable. apply orb_true_iff. right. apply andb_true_iff. split.
    - apply forallb_forall. intros q Hq.
      eapply forallb_forall in Habove'; [exact Habove'|by apply I3].
    - apply negb_true_iff. by apply is_directory_insert. }
  done.
Qed.

(** A restore of a file whose copy is on record and in place. *)
Lemma restore_recorded w ws originalPath backupPath n mappings :
  workspaceFolder w = Some ws ->
  files w !! mappingFile ws w = Some (Mappings mappings) ->
  mappings !! originalPath = Some backupPath ->
  backupPath <> [] ->
  files w !! backupPath = Some n ->
  writable originalPath (files w) = true ->
  restoreBackup originalPath w
  = (true, set_files (<[originalPath := n]> (files w)) w).
Proof.
  intros Hws Hm Hp Hb Hn Hw.
  unfold restoreBackup, getBackupPath, existsSync, copyFileSync, object_get,
    is_file.
  rewrite Hws, Hm, Hp, Hn. rewrite bool_decide_eq_false_2 by done.
  cbn [negb orb mbind option_bind]. by rewrite Hw.
Qed.


End Backup.



(** ** [sanitizeForDisplay] *)

Section Display.

(** A regex that matches one unit, the units that satisfy [P]: every such
    unit goes through [f], the others stay. *)
Lemma render_segments_unit r (P : N -> bool) f fuel pos s :
  (forall p d t, exec false r p (d :: t) accept
                 = if P d then Some (S p) else None) ->
  (forall p, exec false r p [] accept = None) ->
  length s < fuel ->
  render f (segments_from false r fuel pos s)
  = flat_map (fun c => if P c then f [c] else [c]) s.
Proof.
  intros Hr Hnil. revert fuel pos. induction s as [|d s IH]; intros fuel pos Hf.
  - destruct fuel; [lia|]. cbn [segments_from find_match]. by rewrite Hnil.
  - destruct fuel as [|fuel]; [lia|]. simpl in Hf.
    destruct (P d) eqn:E.
    + cbn [segments_from find_match]. rewrite Hr, E.
      replace (S pos =? pos) with false by (symmetry; apply Nat.eqb_neq; lia).
      replace (pos - pos) with 0 by lia.
      replace (S pos - pos) with 1 by lia.
      cbn [take drop]. unfold render in *. cbn [map concat flat_map app].
      rewrite IH by lia. rewrite E. done.
    + rewrite segments_from_skip by (by rewrite Hr, E).
      rewrite render_push_text by apply segments_from_nonempty.
      rewrite IH by lia. simpl. by rewrite E.
Qed.

Lemma replace_all_char c rep s :
  replace_all false (Seq (Char c) Empty) rep s
  = flat_map (fun d => if (d =? c)%N then rep else [d]) s.
Proof.
  unfold replace_all, replace_map, segments.
  change (concat (map ?g ?ps)) with (render (fun _ : str => rep) ps).
  apply (render_segments_unit _ (fun d => (d =? c)%N)); [| |lia].
  - intros p d t. cbn [exec]. unfold char_eq, canonicalize. cbn [andb].
    rewrite (N.eqb_sym c d). by destruct (d =? c)%N.
  - done.
Qed.

Lemma flat_map_flat_map {A B C} (f : A -> list B) (g : B -> list C) l :
  flat_map g (flat_map f l) = flat_map (fun a => flat_map g (f a)) l.
Proof.
  induction l as [|a l IH]; [done|]. simpl. by rewrite flat_map_app, IH.
Qed.

Lemma sanitizeForDisplay_flat_map s :
  sanitizeForDisplay s = flat_map display_unit s.
Proof.
  unfold sanitizeForDisplay. case_bool_decide as E; [by subst|].
  change (regex_literal "<") with (Seq (Char 60) Empty).
  change (regex_literal ">") with (Seq (Char 62) Empty).
  change (regex_literal double_quote) with (Seq (Char 34) Empty).
  change (regex_literal "'") with (Seq (Char 39) Empty).
  rewrite !replace_all_char, !flat_map_flat_map.
  apply flat_map_ext. intros c. unfold display_unit.
  destruct (c =? 60)%N eqn:E1; [reflexivity|].
  cbn [flat_map app]. rewrite app_nil_r.
  destruct (c =? 62)%N eqn:E2; [reflexivity|].
  cbn [flat_map app]. rewrite app_nil_r.
  destruct (c =? 34)%N eqn:E3; [reflexivity|].
  cbn [flat_map app]. rewrite app_nil_r.
  by destruct (c =? 39)%N.
Qed.

Lemma display_unit_plain c : is_markup c = false -> display_unit c = [c].
Proof.
  unfold is_markup, markup_units, display_unit. cbn [existsb].
  rewrite !orb_false_iff. intros (-> & -> & -> & -> & _). done.
Qed.

Lemma display_unit_clean c : forallb (fun d => negb (is_markup d)) (display_unit c) = true.
Proof.
  unfold display_unit.
  destruct (c =? 60)%N eqn:E1; [done|].
  destruct (c =? 62)%N eqn:E2; [done|].
  destruct (c =? 34)%N eqn:E3; [done|].
  destruct (c =? 39)%N eqn:E4; [done|].
  cbn [forallb]. unfold is_markup, markup_units. cbn [existsb].
  by rewrite E1, E2, E3, E4.
Qed.

Lemma flat_map_display_plain s :
  forallb (fun c => negb (is_markup c)) s = true -> flat_map display_unit s = s.
Proof.
  induction s as [|c s IH]; [done|]. cbn [forallb flat_map]. intros H.
  apply andb_true_iff in H as [Hc Hs]. apply negb_true_iff in Hc.
  by rewrite display_unit_plain, IH.
Qed.

(** X1.  [sanitizeForDisplay] replaces each of [<], [>], the double and the
    single quote by its entity and leaves every other unit, the ampersand
    included, as it is: the result holds none of the four characters, a
    second application changes nothing more, and a text without them comes
    back as it was. *)
Theorem sanitizeForDisplay_escapes_markup (s : str) :
  sanitizeForDisplay s = flat_map display_unit s
  /\ forallb (fun c => negb (is_markup c)) (sanitizeForDisplay s) = true
  /\ sanitizeForDisplay (sanitizeForDisplay s) = sanitizeForDisplay s
  /\ (forallb (fun c => negb (is_markup c)) s = true ->
      sanitizeForDisplay s = s)
  /\ sanitizeForDisplay (lit "&lt;") = sanitizeForDisplay (lit "<").
Proof.
  assert (forallb (fun c => negb (is_markup c)) (flat_map display_unit s)
          = true) as Hclean.
  { induction s as [|c s IH]; [done|]. cbn [flat_map].
    by rewrite forallb_app, display_unit_clean, IH. }
  rewrite !sanitizeForDisplay_flat_map.
  split; [done|]. split; [done|]. split; [by apply flat_map_display_plain|].
  split; [apply flat_map_display_plain|]; reflexivity.
Qed.

End Display.

(** ** Names that passed [sanitizeApiName] *)

Section Sanitized.

Lemma trimStart_word c t : is_space c = false -> trimStart (c :: t) = c :: t.
Proof. intros H. simpl. by rewrite H. Qed.

(** A text that neither starts nor ends with white space is its own
    [trim]. *)
Lemma trim_words t : forallb is_word t = true -> trim t = t.
Proof.
  intros H. unfold trim, trimEnd.
  assert (forall u, forallb is_word u = true -> trimStart u = u) as Hs.
  { intros [|c u]; [done|]. cbn [forallb]. intros Hu.
    apply andb_true_iff in Hu as [Hc _].
    by rewrite trimStart_word by by apply is_word_not_space. }
  rewrite (Hs t H), Hs, rev_involutive; [done|].
  by rewrite forallb_rev.
Qed.

Lemma words_plain t : forallb is_word t = true -> plain t = true.
Proof.
  apply forallb_impl. intros c Hc. by rewrite is_word_not_syntax.
Qed.

Lemma sanitizeApiName_Some name t :
  sanitizeApiName name = Some t ->
  t = trim name /\ valid_name t = true /\ length t <= 80.
Proof.
  rewrite sanitizeApiName_spec.
  destruct (valid_name (trim name)) eqn:E; [|done].
  destruct (length (trim name) <=? 80) eqn:L; [|done]. cbn [andb].
  intros [= <-]. apply Nat.leb_le in L. done.
Qed.

Lemma sanitizeApiName_fixed t :
  valid_name t = true -> length t <= 80 -> sanitizeApiName t = Some t.
Proof.
  intros Hv Hl. rewrite sanitizeApiName_spec.
  rewrite (trim_words t) by by apply valid_name_words.
  rewrite Hv. apply Nat.leb_le in Hl. by rewrite Hl.
Qed.

(** X2.  A name that [sanitizeApiName] accepts comes back trimmed, is made
    of letters, digits and underscores only, between 1 and 80 of them, is
    accepted again unchanged, and is left alone by [escapeRegex]: in a
    generated pattern it stands for itself. *)
Theorem sanitizeApiName_result_is_stable (name t : str) :
  sanitizeApiName name = Some t ->
  t = trim name
  /\ forallb is_word t = true
  /\ 1 <= length t <= 80
  /\ sanitizeApiName t = Some t
  /\ escapeRegex t = t
  /\ RegExp (escapeRegex t) = Some (lits t Empty).
Proof.
  intros H. apply sanitizeApiName_Some in H as (Ht & Hv & Hl).
  pose proof (valid_name_words t Hv) as Hw.
  split; [done|]. split; [done|]. split.
  { split; [|done]. destruct t; [done|simpl; lia]. }
  split; [by apply sanitizeApiName_fixed|].
  split; [by apply escapeRegex_plain, words_plain|].
  apply RegExp_escapeRegex.
Qed.




End Sanitized.

Lemma sanitizeApiName_result_is_stable_witness :
  sanitizeApiName (lit "  Custom_Field__c ") = Some (lit "Custom_Field__c")
  /\ escapeRegex (lit "Custom_Field__c") = lit "Custom_Field__c"
  /\ sanitizeApiName (lit "Custom_Field__c") = Some (lit "Custom_Field__c").
Proof.
  assert (sanitizeApiName (lit "  Custom_Field__c ")
          = Some (lit "Custom_Field__c")) as H by by vm_compute.
  destruct (sanitizeApiName_result_is_stable _ _ H) as (_ & _ & _ & H1 & H2 & _).
  done.
Defined.

(** ** What a backup and a restore leave alone *)

Section BackupFrame.
Context {C : Type}.
Implicit Types (w : World C).

Lemma storeBackupMapping_frame originalPath backupPath w q :
  (forall ws, workspaceFolder w = Some ws -> q <> mappingFile ws w) ->
  files (storeBackupMapping originalPath backupPath w) !! q = files w !! q.
Proof.
  intros Hq. unfold storeBackupMapping.
  destruct (workspaceFolder w) as [ws|] eqn:Hws; [|done].
  specialize (Hq ws eq_refl).
  assert (forall m : gmap str str,
      files match ensure_directory (dirname (mappingFile ws w)) w with
            | Some w1 =>
                if writable (mappingFile ws w) (files w1)
                then set_files (<[mappingFile ws w := Mappings m]> (files w1)) w1
                else w
            | None => w
            end !! q = files w !! q) as H.
  { intros m. unfold ensure_directory, mkdirSync.
    destruct (existsSync _ w); [|destruct (existsb _ _); [done|]];
      (destruct (writable _ _); [|done]); cbn [files set_files];
      by rewrite lookup_insert_ne. }
  destruct (files w !! mappingFile ws w) as [[d|m]|]; [done|apply H..].
Qed.

Lemma storeBackupMapping_rest originalPath backupPath w :
  globalState (storeBackupMapping originalPath backupPath w) = globalState w
  /\ config (storeBackupMapping originalPath backupPath w) = config w
  /\ workspaceFolder (storeBackupMapping originalPath backupPath w)
     = workspaceFolder w.
Proof.
  unfold storeBackupMapping.
  destruct (workspaceFolder w) as [ws|] eqn:Hws; [|done].
  assert (forall m : gmap str str,
      let w' := match ensure_directory (dirname (mappingFile ws w)) w with
                | Some w1 =>
                    if writable (mappingFile ws w) (files w1)
                    then set_files (<[mappingFile ws w := Mappings m]>
                                      (files w1)) w1
                    else w
                | None => w
                end in
      globalState w' = globalState w /\ config w' = config w
      /\ workspaceFolder w' = Some ws) as H.
  { intros m. unfold ensure_directory, mkdirSync.
    destruct (existsSync _ w); [|destruct (existsb _ _); [done|]];
      by destruct (writable _ _). }
  destruct (files w !! mappingFile ws w) as [[d|m]|]; [done|apply H..].
Qed.

Lemma ensure_directory_same dir w w' :
  ensure_directory dir w = Some w' -> w' = w.
Proof.
  unfold ensure_directory, mkdirSync. destruct (existsSync dir w); [congruence|].
  destruct (existsb _ _); [done|congruence].
Qed.

Lemma copyFileSync_Some src dest w w' :
  copyFileSync src dest w = Some w' ->
  exists n, files w !! src = Some n
            /\ w' = set_files (<[dest := n]> (files w)) w.
Proof.
  unfold copyFileSync. destruct (files w !! src) as [n|]; [|done].
  cbn [mbind option_bind]. destruct (writable dest (files w)); [|done].
  intros [= <-]. by exists n.
Qed.

(** X4.  [createBackup] writes two files at most, the copy, whose path it
    returns, and the mapping file of the configured backup folder: every
    other file, the one backed up included, the history and the settings
    are as before, and when it returns nothing no file has changed. *)
Theorem createBackup_keeps_other_files (w : World C) (filePath q : str) :
  globalState (snd (createBackup filePath w)) = globalState w
  /\ config (snd (createBackup filePath w)) = config w
  /\ workspaceFolder (snd (createBackup filePath w)) = workspaceFolder w
  /\ (fst (createBackup filePath w) = None ->
      files (snd (createBackup filePath w)) = files w)
  /\ (fst (createBackup filePath w) <> Some q ->
      (forall ws, workspaceFolder w = Some ws ->
                  q <> configured_mappingFile ws w) ->
      files (snd (createBackup filePath w)) !! q = files w !! q)
  /\ ((forall ws, workspaceFolder w = Some ws ->
                  filePath <> configured_mappingFile ws w) ->
      files (snd (createBackup filePath w)) !! filePath = files w !! filePath).
Proof.
  unfold createBackup.
  destruct (workspaceFolder w) as [ws|] eqn:Hws; [|done].
  set (w1 := set_backupFolder (configured_backupFolder w) w).
  set (bp := path_join [path_join [ws; backupFolder w1; _]; _]).
  destruct (ensure_directory (dirname bp) w1) as [w2|] eqn:Hd; cbn [fst snd];
    [|unfold w1; cbn [globalState config workspaceFolder files
                        set_backupFolder]; by rewrite Hws].
  apply ensure_directory_same in Hd as ->.
  destruct (copyFileSync filePath bp w1) as [w3|] eqn:Hc; cbn [fst snd];
    [|unfold w1; cbn [globalState config workspaceFolder files
                        set_backupFolder]; by rewrite Hws].
  apply copyFileSync_Some in Hc as (n & Hn & ->).
  change (files w1) with (files w) in *.
  destruct (storeBackupMapping_rest filePath bp
              (set_files (<[bp := n]> (files w)) w1)) as (-> & -> & ->).
  cbn [globalState config workspaceFolder set_files set_backupFolder w1].
  rewrite Hws.
  assert (forall x,
             x <> configured_mappingFile ws w ->
             files (storeBackupMapping filePath bp
                      (set_files (<[bp := n]> (files w)) w1)) !! x
             = <[bp := n]> (files w) !! x) as Hframe.
  { intros x Hx. rewrite storeBackupMapping_frame; [done|].
    cbn [workspaceFolder set_files set_backupFolder w1]. rewrite Hws.
    by intros ws' [= <-]. }
  split; [done|]. split; [done|]. split; [done|]. split; [done|]. split.
  - intros Hq Hm. rewrite Hframe by by apply Hm.
    apply lookup_insert_ne. congruence.
  - intros Hm. rewrite Hframe by by apply Hm.
    destruct (decide (bp = filePath)) as [E|E].
    + by rewrite E, lookup_insert_eq.
    + by rewrite lookup_insert_ne.
Qed.

Lemma restoreBackup_cases originalPath w :
  restoreBackup originalPath w = (false, w)
  \/ exists backupPath n,
       getBackupPath originalPath w = Some backupPath
       /\ files w !! backupPath = Some n
       /\ writable originalPath (files w) = true
       /\ restoreBackup originalPath w
          = (true, set_files (<[originalPath := n]> (files w)) w).
Proof.
  unfold restoreBackup.
  destruct (getBackupPath originalPath w) as [b|] eqn:Hb; [|by left].
  case_bool_decide as E; [by left|]. cbn [orb].
  unfold existsSync, copyFileSync, is_file.
  destruct (files w !! b) as [n|] eqn:Hn; [|by left].
  cbn [negb mbind option_bind].
  destruct (writable originalPath (files w)) eqn:Hw; [|by left].
  right. by exists b, n.
Qed.

(** X5.  [restoreBackup] writes one file at most, the one it is asked to
    restore, and only from the copy the mapping file names for it; when it
    returns [false] nothing at all has changed. *)
Theorem restoreBackup_touches_one_file (w : World C) (originalPath q : str) :
  (fst (restoreBackup originalPath w) = false ->
   snd (restoreBackup originalPath w) = w)
  /\ (fst (restoreBackup originalPath w) = true ->
      exists backupPath,
        getBackupPath originalPath w = Some backupPath
        /\ is_Some (files w !! backupPath)
        /\ files (snd (restoreBackup originalPath w)) !! originalPath
           = files w !! backupPath)
  /\ (q <> originalPath ->
      files (snd (restoreBackup originalPath w)) !! q = files w !! q)
  /\ globalState (snd (restoreBackup originalPath w)) = globalState w
  /\ config (snd (restoreBackup originalPath w)) = config w.
Proof.
  destruct (restoreBackup_cases originalPath w)
    as [->|(b & n & Hb & Hn & _ & ->)]; cbn [fst snd].
  - done.
  - split; [done|]. split.
    + intros _. exists b. rewrite Hn. split; [done|]. split; [by eexists|].
      cbn [files set_files]. by rewrite lookup_insert_eq.
    + split; [|done]. intros Hq. cbn [files set_files].
      by rewrite lookup_insert_ne.
Qed.

(** A backup made, the file may be overwritten: the restore still brings
    back what the backup copied. *)
Lemma backup_overwrite_restore w ws filePath n content :
  workspaceFolder w = Some ws ->
  fsPath ws = true -> fsPath filePath = true -> iso_text (clock w) = true ->
  files w !! filePath = Some n ->
  (forall d, files w !! configured_mappingFile ws w <> Some (Data d)) ->
  free (backupPath_of ws filePath w) (files w) = true ->
  is_directory (configured_mappingFile ws w) (files w) = false ->
  backupPath_of ws filePath w <> filePath ->
  filePath <> configured_mappingFile ws w ->
  exists w',
    restoreBackup filePath
      (writeFileSync filePath content (snd (createBackup filePath w)))
    = (true, w')
    /\ files w' !! filePath = Some n.
Proof.
  intros Hws Hfw Hfp Hc Hf Hm Hfree Hdir Hbf Hne.
  destruct (createBackup_at w ws filePath n Hws Hfw Hfp Hc Hf Hm Hfree Hdir)
    as (Hbm & m0 & ->).
  set (bp := backupPath_of ws filePath w) in *.
  set (mf := configured_mappingFile ws w) in *.
  assert (bp <> []) as Hbp.
  { destruct (backup_paths w ws filePath Hfw Hfp Hc)
      as (base & rel & _ & _ & _ & _ & E). unfold bp. by rewrite E. }
  cbn [fst snd].
  unfold restoreBackup, getBackupPath, existsSync, copyFileSync, object_get,
    writeFileSync.
  cbn [workspaceFolder backupFolder files set_files set_backupFolder].
  rewrite Hws.
  change (mappingFile ws (set_files _ (set_files _ (set_backupFolder _ w))))
    with mf.
  set (fs := <[filePath := Data content]>
               (<[mf := Mappings (<[filePath := bp]> m0)]>
                  (<[bp := n]> (files w)))).
  assert (fs !! mf = Some (Mappings (<[filePath := bp]> m0))) as E0.
  { unfold fs. by rewrite lookup_insert_ne, lookup_insert_eq by done. }
  assert (fs !! bp = Some n) as E2.
  { unfold fs. by rewrite !lookup_insert_ne, lookup_insert_eq by done. }
  assert (is_file bp fs = true) as E1 by (unfold is_file; by rewrite E2).
  assert (writable filePath fs = true) as E3.
  { unfold writable, fs. rewrite is_file_insert.
    by rewrite bool_decide_eq_true_2. }
  rewrite E0, lookup_insert_eq. rewrite bool_decide_eq_false_2 by done.
  rewrite E1, E2. cbn [negb orb mbind option_bind]. rewrite E3.
  eexists. split; [done|]. cbn [files set_files]. by rewrite lookup_insert_eq.
Qed.

End BackupFrame.

(** ** A rewritten file and its backup *)

Section RewriteAndRestore.

Lemma processLayouts_file_rewrite fieldsToRemove :
  processLayouts_file fieldsToRemove
  = rewrite_file (processLayouts_content fieldsToRemove).
Proof. reflexivity. Qed.

(** X6.  With backups switched on, a file that a rewriter changes is
    copied before it is written: where the copy can be made and recorded,
    and is not made onto the file itself, [restoreBackup] called on the
    file afterwards returns [true] and the file holds its original text
    again.  The end of the loop body is the same in [processLayouts],
    [processRecordTypes], [processCompactLayouts] and
    [processListViews]. *)
Theorem rewritten_file_is_restored
    (compute : str -> option (nat * str))
    (file ws originalContent content : str) (n : nat) (t : Totals)
    (w : World str) :
  workspaceFolder w = Some ws ->
  fsPath ws = true -> fsPath file = true -> iso_text (clock w) = true ->
  cfg_createBackup (config w) = true ->
  readFileSync file w = Some originalContent ->
  (forall d, files w !! configured_mappingFile ws w <> Some (Data d)) ->
  free (backupPath_of ws file w) (files w) = true ->
  is_directory (configured_mappingFile ws w) (files w) = false ->
  backupPath_of ws file w <> file ->
  compute originalContent = Some (n, content) ->
  content <> originalContent ->
  exists t' w' w'',
    rewrite_file compute file t w = (t', w')
    /\ readFileSync file w' = Some content
    /\ removed t' = removed t + n
    /\ modifiedFiles t' = modifiedFiles t ++ [file]
    /\ restoreBackup file w' = (true, w'')
    /\ readFileSync file w'' = Some originalContent.
Proof.
  intros Hws Hfw Hfp Hclock Hb Hr Hm Hfree Hdir Hbf Hc Hne.
  assert (files w !! file = Some (Data originalContent)) as Hf.
  { unfold readFileSync in Hr.
    by destruct (files w !! file) as [[c|m]|]; simplify_eq. }
  assert (file <> configured_mappingFile ws w) as Hfm.
  { intros E. rewrite E in Hf. by apply Hm in Hf. }
  destruct (backup_overwrite_restore w ws file _ content Hws Hfw Hfp Hclock
              Hf Hm Hfree Hdir Hbf Hfm)
    as (w'' & Hrestore & Hfile).
  unfold rewrite_file. rewrite Hr, Hc, Hb.
  rewrite bool_decide_eq_true_2 by done.
  eexists _, _, w''. split; [done|]. split.
  { unfold readFileSync, writeFileSync. cbn [files set_files].
    by rewrite lookup_insert_eq. }
  split; [done|]. split; [done|]. split; [done|].
  unfold readFileSync. by rewrite Hfile.
Qed.

End RewriteAndRestore.

Lemma rewritten_file_is_restored_witness :
  exists t' w' w'',
    processRecordTypes_file [lit "Case.Foo__c"] recordType_path no_totals
      recordType_world = (t', w')
    /\ removed t' = 1
    /\ readFileSync recordType_path w'
       = Some (lit "<RecordType><picklistValues><picklist>Other__c</picklist></picklistValues></RecordType>")
    /\ restoreBackup recordType_path w' = (true, w'')
    /\ readFileSync recordType_path w'' = Some recordType_text.
Proof.
  destruct (rewritten_file_is_restored
              (processRecordTypes_content [lit "Case.Foo__c"])
              recordType_path (lit "/ws") recordType_text
              (lit "<RecordType><picklistValues><picklist>Other__c</picklist></picklistValues></RecordType>")
              1 no_totals recordType_world)
    as (t' & w' & w'' & H1 & H2 & H3 & _ & H4 & H5);
    [reflexivity|reflexivity|reflexivity|reflexivity|reflexivity
    |by vm_compute| |by vm_compute|by vm_compute|by vm_compute
    |by vm_compute|by vm_compute|].
  - intros d. by vm_compute.
  - exists t', w', w''. split; [exact H1|]. split; [exact H3|].
    split; [exact H2|]. split; [exact H4|exact H5].
Defined.

(** ** A restore in a later session *)

Section Restart.
Context {C : Type}.
Implicit Types (w : World C).

(** X7.  [restoreBackup] reads the mapping file of the folder the manager
    last made a backup in, and a new manager starts from the default
    folder whatever the settings say.  So with a custom [backupLocation],
    where the default folder holds no mapping file and the copy is made
    neither onto it nor onto the file itself, a backup is restored in the
    session that made it and is not found by a manager created
    afterwards: its [restoreBackup] returns [false] and changes
    nothing. *)
Theorem restore_in_new_session_misses_custom_folder
    (w : World C) (ws filePath : str) (n : node C) :
  workspaceFolder w = Some ws ->
  fsPath ws = true -> fsPath filePath = true -> iso_text (clock w) = true ->
  files w !! filePath = Some n ->
  (forall d, files w !! configured_mappingFile ws w <> Some (Data d)) ->
  free (backupPath_of ws filePath w) (files w) = true ->
  is_directory (configured_mappingFile ws w) (files w) = false ->
  backupPath_of ws filePath w <> filePath ->
  configured_mappingFile ws w <> default_mappingFile ws ->
  backupPath_of ws filePath w <> default_mappingFile ws ->
  files w !! default_mappingFile ws = None ->
  fst (restoreBackup filePath (snd (createBackup filePath w))) = true
  /\ restoreBackup filePath (new_BackupManager (snd (createBackup filePath w)))
     = (false, new_BackupManager (snd (createBackup filePath w))).
Proof.
  intros Hws Hfw Hfp Hc Hf Hm Hfree Hdir _ Hmm Hbd Habs.
  destruct (createBackup_at w ws filePath n Hws Hfw Hfp Hc Hf Hm Hfree Hdir)
    as (Hbm & m0 & ->).
  set (bp := backupPath_of ws filePath w) in *.
  set (mf := configured_mappingFile ws w) in *.
  assert (bp <> []) as Hbp.
  { destruct (backup_paths w ws filePath Hfw Hfp Hc)
      as (base & rel & _ & _ & _ & _ & E). unfold bp. by rewrite E. }
  cbn [fst snd]. split.
  - set (fs := <[mf := Mappings (<[filePath := bp]> m0)]>
                 (<[bp := n]> (files w))).
    rewrite (restore_recorded _ ws filePath bp n (<[filePath := bp]> m0));
      [|done| |by rewrite lookup_insert_eq|done| |].
    + done.
    + cbn [files set_files]. unfold mappingFile.
      cbn [backupFolder set_files set_backupFolder]. fold mf. unfold fs.
      by rewrite lookup_insert_eq.
    + cbn [files set_files]. unfold fs.
      by rewrite lookup_insert_ne, lookup_insert_eq.
    + cbn [files set_files]. unfold writable, fs. rewrite !is_file_insert.
      unfold is_file. by rewrite Hf, !orb_true_r.
  - unfold restoreBackup, getBackupPath, mappingFile, new_BackupManager.
    cbn [workspaceFolder backupFolder files set_files set_backupFolder].
    rewrite Hws.
    change (path_join [ws; lit ".cleanforce/backups";
                       lit "backup-mapping.json"])
      with (default_mappingFile ws).
    rewrite lookup_insert_ne by done.
    rewrite lookup_insert_ne by done.
    by rewrite Habs.
Qed.

End Restart.

Lemma restore_in_new_session_misses_custom_folder_witness :
  fst (restoreBackup (lit "/ws/a.xml")
         (snd (createBackup (lit "/ws/a.xml") custom_world))) = true
  /\ fst (restoreBackup (lit "/ws/a.xml")
            (new_BackupManager
               (snd (createBackup (lit "/ws/a.xml") custom_world)))) = false.
Proof.
  destruct (restore_in_new_session_misses_custom_folder
              custom_world (lit "/ws") (lit "/ws/a.xml") (Data (lit "<a/>")))
    as [H1 H2];
    [reflexivity|reflexivity|reflexivity|reflexivity|by vm_compute|
    |by vm_compute|by vm_compute|by vm_compute|by vm_compute|by vm_compute
    |by vm_compute|].
  - intros d. by vm_compute.
  - split; [exact H1|]. by rewrite H2.
Defined.

(** ** Undo: what it changes and what it reports *)

Section UndoFrame.
Context {C : Type}.
Implicit Types (w : World C).

Lemma restoreBackup_other p q w :
  q <> p -> files (snd (restoreBackup p w)) !! q = files w !! q.
Proof.
  intros Hq. destruct (restoreBackup_cases p w)
    as [->|(b & n & _ & _ & _ & ->)]; [done|].
  cbn [snd files set_files]. by rewrite lookup_insert_ne.
Qed.

Lemma restoreBackup_config p w :
  config (snd (restoreBackup p w)) = config w.
Proof.
  by destruct (restoreBackup_cases p w) as [->|(b & n & _ & _ & _ & ->)].
Qed.

Lemma restoreAll_other paths q w :
  q ∉ paths -> files (snd (restoreAll paths w)) !! q = files w !! q.
Proof.
  revert w. induction paths as [|p paths IH]; intros w Hq; [done|].
  apply not_elem_of_cons in Hq as [Hp Hq]. cbn [restoreAll].
  pose proof (restoreBackup_other p q w Hp) as H.
  destruct (restoreBackup p w) as [ok w1]. specialize (IH w1 Hq).
  destruct (restoreAll paths w1) as [oks w2]. simpl in *. congruence.
Qed.

Lemma restoreAll_config paths w :
  config (snd (restoreAll paths w)) = config w.
Proof.
  revert w. induction paths as [|p paths IH]; intros w; [done|].
  cbn [restoreAll]. pose proof (restoreBackup_config p w) as H.
  destruct (restoreBackup p w) as [ok w1]. specialize (IH w1).
  destruct (restoreAll paths w1) as [oks w2]. simpl in *. congruence.
Qed.

(** Paths without a backup on record: every restore fails and leaves the
    workspace as it is. *)
Lemma restoreAll_no_backup paths w :
  (forall p, p ∈ paths -> getBackupPath p w = None) ->
  restoreAll paths w = (repeat false (length paths), w).
Proof.
  induction paths as [|p paths IH]; intros H; [done|].
  cbn [restoreAll]. unfold restoreBackup at 1.
  rewrite (H p) by by left.
  rewrite IH; [done|]. intros q Hq. apply H. by right.
Qed.

(** X8.  [undoLast] either returns [false] and changes nothing, or returns
    [true]: then the user has confirmed, the history has lost its head
    entry and nothing else, and the only files that can differ are those
    listed in [filesModified] of that entry. *)
Theorem undoLast_changes_only_listed_files
    (answer : option str) (w : World C) (q : str) :
  (fst (undoLast answer w) = false -> snd (undoLast answer w) = w)
  /\ (fst (undoLast answer w) = true ->
      answer = Some (lit "Yes, Undo")
      /\ getHistory w <> []
      /\ getHistory (snd (undoLast answer w)) = tail (getHistory w))
  /\ config (snd (undoLast answer w)) = config w
  /\ ((forall lastEntry paths,
          getLastEntry w = Some lastEntry ->
          d_filesModified (details lastEntry) = Some paths -> q ∉ paths) ->
      files (snd (undoLast answer w)) !! q = files w !! q).
Proof.
  unfold undoLast, getLastEntry.
  destruct (getHistory w) as [|lastEntry rest] eqn:Hh; [done|]. cbn [head].
  destruct (negb (truthy _) && negb _); [done|].
  case_bool_decide as Ha; cbn [negb fst snd]; [|done].
  split; [done|]. split.
  { intros _. split; [done|]. split; [done|].
    rewrite getHistory_saveHistory.
    destruct (d_filesModified (details lastEntry)) as [paths|].
    - by rewrite getHistory_globalState, restoreAll_globalState,
        <- getHistory_globalState, Hh.
    - by rewrite Hh. }
  split.
  { destruct (d_filesModified (details lastEntry)) as [paths|]; [|done].
    cbn [config saveHistory set_globalState]. apply restoreAll_config. }
  intros Hq. cbn [files saveHistory set_globalState].
  destruct (d_filesModified (details lastEntry)) as [paths|] eqn:Hp; [|done].
  apply restoreAll_other. by apply (Hq lastEntry).
Qed.

(** X9.  [undoLast] does not look at what the restores return: when no
    path of the head entry has a backup on record (backups were switched
    off, or no folder is open) it still returns [true] and drops the
    entry, and not one file has changed. *)
Theorem undoLast_without_backups (w : World C) (lastEntry : HistoryEntry)
    (rest : list HistoryEntry) (paths : list str) :
  getHistory w = lastEntry :: rest ->
  d_filesModified (details lastEntry) = Some paths ->
  (forall p, p ∈ paths -> getBackupPath p w = None) ->
  undoLast (Some (lit "Yes, Undo")) w = (true, saveHistory rest w)
  /\ files (snd (undoLast (Some (lit "Yes, Undo")) w)) = files w
  /\ fst (restoreAll paths w) = repeat false (length paths).
Proof.
  intros Hh Hp Hn.
  assert (undoLast (Some (lit "Yes, Undo")) w = (true, saveHistory rest w))
    as E.
  { unfold undoLast, getLastEntry. rewrite Hh. cbn [head]. rewrite Hp.
    rewrite (bool_decide_eq_true_2 (is_Some (Some paths))) by eauto.
    rewrite andb_false_r. cbn [negb].
    rewrite bool_decide_eq_true_2 by done. cbn [negb].
    rewrite restoreAll_no_backup by done. cbn [snd]. by rewrite Hh. }
  rewrite E. split; [done|]. split; [done|].
  by rewrite restoreAll_no_backup.
Qed.

(** X10.  An entry with a [filesModified] list that [addEntry] has just
    put in is the one [undoLast] takes out: what is left is the history
    from before, short of the entries the maximum pushed out. *)
Theorem undoLast_after_addEntry (w : World C) (fresh : str)
    (entry : HistoryEntry) (paths : list str) :
  d_filesModified (details entry) = Some paths ->
  (1 <= maxItems w)%Z ->
  fst (undoLast (Some (lit "Yes, Undo")) (addEntry fresh entry w)) = true
  /\ getHistory (snd (undoLast (Some (lit "Yes, Undo"))
                        (addEntry fresh entry w)))
     = take (Z.to_nat (maxItems w) - 1) (getHistory w)
  /\ (Z.of_nat (length (getHistory w)) < maxItems w ->
      getHistory (snd (undoLast (Some (lit "Yes, Undo"))
                         (addEntry fresh entry w)))
      = getHistory w)%Z.
Proof.
  intros Hp Hm.
  pose proof (getHistory_addEntry fresh entry w Hm) as Hh.
  destruct (Z.to_nat (maxItems w)) as [|k] eqn:Hk; [lia|].
  cbn [take] in Hh.
  assert (undoLast (Some (lit "Yes, Undo")) (addEntry fresh entry w)
          = (true, saveHistory (take k (getHistory w))
                     (snd (restoreAll paths (addEntry fresh entry w)))))
    as E.
  { unfold undoLast, getLastEntry. rewrite Hh. cbn [head stamp fst snd details].
    rewrite Hp.
    rewrite (bool_decide_eq_true_2 (is_Some (Some paths))) by eauto.
    rewrite andb_false_r. cbn [negb].
    rewrite bool_decide_eq_true_2 by done. cbn [negb].
    rewrite (getHistory_globalState (snd _)), restoreAll_globalState,
      <- getHistory_globalState, Hh. done. }
  rewrite E. cbn [fst snd]. rewrite getHistory_saveHistory.
  replace (S k - 1) with k by lia.
  split; [done|]. split; [done|]. intros Hl. apply take_ge. lia.
Qed.

(** X11.  A negative [maxHistoryItems] is taken as it is: [splice] then
    counts from the end, and [addEntry] keeps the new entry and the old
    ones short of the last [-n] of them; a history shorter than [-n] is
    emptied, the new entry included. *)
Theorem addEntry_negative_maximum (w : World C) (n : Z) (fresh : str)
    (entry : HistoryEntry) :
  cfg_maxHistoryItems (config w) = Some n ->
  (n < 0)%Z ->
  getHistory (addEntry fresh entry w)
  = take (S (length (getHistory w)) - Z.to_nat (- n))
         (stamp (fresh, entry) :: getHistory w)
  /\ (length (getHistory w) < Z.to_nat (- n) ->
      getHistory (addEntry fresh entry w) = []
      /\ getLastEntry (addEntry fresh entry w) = None).
Proof.
  intros Hc Hn.
  assert (maxItems w = n) as Hm.
  { unfold maxItems. rewrite Hc.
    by replace (n =? 0)%Z with false by lia. }
  assert (getHistory (addEntry fresh entry w)
          = take (S (length (getHistory w)) - Z.to_nat (- n))
                 (stamp (fresh, entry) :: getHistory w)) as E.
  { unfold addEntry. rewrite getHistory_saveHistory, Hm.
    change {| id := Some fresh; type := type entry;
              timestamp := timestamp entry; details := details entry |}
      with (stamp (fresh, entry)).
    replace (n <? Z.of_nat (length (stamp (fresh, entry) :: getHistory w)))%Z
      with true by (symmetry; apply Z.ltb_lt; lia).
    unfold splice. replace (n <? 0)%Z with true by (symmetry; by apply Z.ltb_lt).
    f_equal. rewrite length_cons. lia. }
  split; [done|]. intros Hl. unfold getLastEntry. rewrite E.
  replace (S (length (getHistory w)) - Z.to_nat (- n)) with 0 by lia.
  done.
Qed.

End UndoFrame.

Lemma undoLast_without_backups_witness :
  let w := sample_world (C := str) (Some (lit "/ws")) false None
             (<[lit "/ws/a.xml" := Data (lit "<new/>")]> ∅)
             (Some [sample_entry 2 (Some [lit "/ws/a.xml"]);
                    sample_entry 1 None]) in
  fst (undoLast (Some (lit "Yes, Undo")) w) = true
  /\ getHistory (snd (undoLast (Some (lit "Yes, Undo")) w))
     = [sample_entry 1 None]
  /\ files (snd (undoLast (Some (lit "Yes, Undo")) w)) !! lit "/ws/a.xml"
     = Some (Data (lit "<new/>")).
Proof.
  intros w.
  destruct (undoLast_without_backups w
              (sample_entry 2 (Some [lit "/ws/a.xml"])) [sample_entry 1 None]
              [lit "/ws/a.xml"] eq_refl eq_refl) as (H1 & H2 & _).
  { intros p Hp. by vm_compute. }
  rewrite H2, H1. split; [reflexivity|]. split; [reflexivity|]. by vm_compute.
Defined.

Lemma undoLast_after_addEntry_witness :
  let w := sample_world (C := str) None true (Some 2%Z) ∅
             (Some [sample_entry 1 None]) in
  let e := sample_entry 2 (Some [lit "/ws/a.xml"]) in
  fst (undoLast (Some (lit "Yes, Undo")) (addEntry (lit "id") e w)) = true
  /\ getHistory (snd (undoLast (Some (lit "Yes, Undo"))
                        (addEntry (lit "id") e w)))
     = [sample_entry 1 None].
Proof.
  intros w e.
  destruct (undoLast_after_addEntry w (lit "id") e [lit "/ws/a.xml"])
    as (H1 & H2 & _); [reflexivity|by vm_compute|].
  split; [exact H1|]. rewrite H2. reflexivity.
Defined.

Lemma addEntry_negative_maximum_witness :
  let w := sample_world (C := str) None true (Some (-3)%Z) ∅
             (Some [sample_entry 1 None]) in
  getHistory (addEntry (lit "id") (sample_entry 2 None) w) = []
  /\ getLastEntry (addEntry (lit "id") (sample_entry 2 None) w) = None.
Proof.
  intros w.
  destruct (addEntry_negative_maximum w (-3) (lit "id") (sample_entry 2 None))
    as (_ & H); [reflexivity|lia|].
  apply H. vm_compute. lia.
Defined.

(** ** Statistics and grouping of the history *)

Section MapList.
Context {K V : Type} `{EqDecision K}.
Implicit Types (m : list (K * V)).

Lemma map_get_cons (k k' : K) (v : V) m :
  map_get k ((k', v) :: m) = if bool_decide (k' = k) then Some v else map_get k m.
Proof. unfold map_get. cbn [List.find fst]. by case_bool_decide. Qed.

Lemma map_get_set_eq (k : K) (v : V) m : map_get k (map_set k v m) = Some v.
Proof.
  induction m as [|[k' v'] m IH].
  - cbn [map_set]. rewrite map_get_cons. by rewrite bool_decide_eq_true_2.
  - cbn [map_set]. case_bool_decide as E.
    + rewrite map_get_cons. by rewrite bool_decide_eq_true_2.
    + rewrite map_get_cons. by rewrite bool_decide_eq_false_2.
Qed.

Lemma map_get_set_ne (k k' : K) (v : V) m :
  k' <> k -> map_get k' (map_set k v m) = map_get k' m.
Proof.
  intros Hk. induction m as [|[k0 v0] m IH].
  - cbn [map_set]. rewrite map_get_cons. by rewrite bool_decide_eq_false_2.
  - cbn [map_set]. case_bool_decide as E.
    + subst k0. rewrite !map_get_cons. by rewrite !bool_decide_eq_false_2.
    + rewrite !map_get_cons. by rewrite IH.
Qed.

Lemma map_set_keys (k : K) (v : V) m :
  map fst (map_set k v m)
  = if bool_decide (k ∈ map fst m) then map fst m else map fst m ++ [k].
Proof.
  induction m as [|[k' v'] m IH].
  - cbn [map_set map fst app]. rewrite bool_decide_eq_false_2; [done|].
    apply not_elem_of_nil.
  - cbn [map_set map fst]. destruct (decide (k' = k)) as [->|E].
    + rewrite (bool_decide_eq_true_2 (k = k)) by done. cbn [map fst].
      rewrite bool_decide_eq_true_2; [done|]. by left.
    + rewrite (bool_decide_eq_false_2 (k' = k)) by done. cbn [map fst].
      rewrite IH. destruct (decide (k ∈ map fst m)) as [Hin|Hin].
      * rewrite !bool_decide_eq_true_2; [done|by right|done].
      * rewrite !bool_decide_eq_false_2; [done| |done].
        rewrite not_elem_of_cons. by split; [intros ->|].
Qed.

Lemma map_set_NoDup (k : K) (v : V) m : NoDup (map fst m) -> NoDup (map fst (map_set k v m)).
Proof.
  intros Hn. rewrite map_set_keys. case_bool_decide as E; [done|].
  apply NoDup_app. split; [done|]. split.
  - intros x Hx Hk. apply list_elem_of_singleton in Hk. by subst.
  - apply NoDup_singleton.
Qed.

End MapList.

Section Statistics.
Context {C : Type}.
Implicit Types (w : World C) (h : list HistoryEntry).

(** The number a [Map] of counts holds for a key, [0] for none. *)
Lemma count_set_sum (k : OperationType) (m : list (OperationType * nat)) :
  NoDup (map fst m) ->
  sum_list (map snd (map_set k (default 0 (map_get k m) + 1) m))
  = S (sum_list (map snd m)).
Proof.
  induction m as [|[k' v'] m IH]; intros Hn.
  - done.
  - cbn [map fst] in Hn. apply NoDup_cons in Hn as [Hk Hn].
    cbn [map_set]. rewrite map_get_cons. case_bool_decide as E.
    + simpl. lia.
    + simpl. rewrite IH by done. lia.
Qed.

Lemma foldl_count h st :
  NoDup (map fst (operationsByType st)) ->
  let st' := foldl count_entry st h in
  totalFieldsRemoved st'
  = totalFieldsRemoved st
    + sum_list (map (fun e => default 0 (d_totalRemoved (details e))) h)
  /\ totalFilesModified st'
     = totalFilesModified st
       + sum_list (map (fun e => length (default [] (d_filesModified
                                                      (details e)))) h)
  /\ NoDup (map fst (operationsByType st'))
  /\ sum_list (map snd (operationsByType st'))
     = sum_list (map snd (operationsByType st)) + length h
  /\ forall ty,
       default 0 (map_get ty (operationsByType st'))
       = default 0 (map_get ty (operationsByType st))
         + length (filter (fun e => type e = ty) h).
Proof.
  revert st. induction h as [|e h IH]; intros st Hn.
  - simpl. rewrite !Nat.add_0_r.
    split; [done|]. split; [done|]. split; [done|]. split; [done|].
    intros ty. simpl. by rewrite Nat.add_0_r.
  - cbn zeta. cbn [foldl].
    assert (NoDup (map fst (operationsByType (count_entry st e)))) as Hn'
      by by apply map_set_NoDup.
    destruct (IH (count_entry st e) Hn') as (H1 & H2 & H3 & H4 & H5).
    rewrite H1, H2, H4. split; [|split; [|split; [done|split]]].
    + simpl. destruct (d_totalRemoved (details e)); simpl; lia.
    + simpl. destruct (d_filesModified (details e)); simpl; lia.
    + cbn [count_entry operationsByType].
      rewrite count_set_sum by done. simpl. lia.
    + intros ty. rewrite H5. cbn [count_entry operationsByType].
      rewrite filter_cons. destruct (decide (type e = ty)) as [<-|Hne].
      * rewrite map_get_set_eq. simpl. lia.
      * rewrite map_get_set_ne by done. lia.
Qed.

(** X12.  [getStatistics] counts every entry of the history once: the
    total is the length of the history, the counts by type add up to it,
    each type carries the number of entries of that type, and the two
    other totals are the sums of [totalRemoved] and of the lengths of
    [filesModified] over the entries that have them. *)
Theorem getStatistics_counts_every_entry (w : World C) :
  totalOperations (getStatistics w) = length (getHistory w)
  /\ sum_list (map snd (operationsByType (getStatistics w)))
     = length (getHistory w)
  /\ NoDup (map fst (operationsByType (getStatistics w)))
  /\ (forall ty,
         default 0 (map_get ty (operationsByType (getStatistics w)))
         = length (filter (fun e => type e = ty) (getHistory w)))
  /\ totalFieldsRemoved (getStatistics w)
     = sum_list (map (fun e => default 0 (d_totalRemoved (details e)))
                     (getHistory w))
  /\ totalFilesModified (getStatistics w)
     = sum_list (map (fun e => length (default [] (d_filesModified
                                                     (details e))))
                     (getHistory w)).
Proof.
  unfold getStatistics.
  cbn [totalOperations totalFieldsRemoved totalFilesModified operationsByType].
  destruct (foldl_count (getHistory w)
              {| totalOperations := 0; totalFieldsRemoved := 0;
                 totalFilesModified := 0; operationsByType := [] |})
    as (H1 & H2 & H3 & H4 & H5); [apply NoDup_nil_2|].
  cbn zeta in *. split; [done|]. split; [by rewrite H4|]. split; [done|].
  split; [intros ty; by rewrite H5|]. by rewrite H1, H2.
Qed.

(** The groups after one more entry. *)
Lemma group_step (key : HistoryEntry -> str) (g : list (str * list HistoryEntry))
    (h : list HistoryEntry) (e : HistoryEntry) :
  (forall k, default [] (map_get k g) = filter (fun x => key x = k) h) ->
  forall k,
    default [] (map_get k (map_set (key e)
                             (default [] (map_get (key e) g) ++ [e]) g))
    = filter (fun x => key x = k) (h ++ [e]).
Proof.
  intros Hg k. rewrite filter_app, filter_cons, filter_nil.
  destruct (decide (key e = k)) as [<-|Hne].
  - rewrite map_get_set_eq. cbn [default]. by rewrite Hg.
  - rewrite map_get_set_ne by done. by rewrite Hg, app_nil_r.
Qed.

Lemma group_concat (g : list (str * list HistoryEntry)) (k : str)
    (e : HistoryEntry) :
  NoDup (map fst g) ->
  concat (map snd (map_set k (default [] (map_get k g) ++ [e]) g))
  ≡ₚ concat (map snd g) ++ [e].
Proof.
  induction g as [|[k' v'] g IH]; intros Hn.
  - done.
  - cbn [map fst] in Hn. apply NoDup_cons in Hn as [Hk Hn].
    cbn [map_set]. rewrite map_get_cons. case_bool_decide as E.
    + cbn [map snd concat default]. rewrite <- !app_assoc.
      apply Permutation_app_head, Permutation_app_comm.
    + cbn [map snd concat]. rewrite IH by done. by rewrite app_assoc.
Qed.

Lemma group_nonempty (g : list (str * list HistoryEntry)) (k : str)
    (e : HistoryEntry) :
  Forall (fun kv => snd kv <> []) g ->
  Forall (fun kv => snd kv <> [])
         (map_set k (default [] (map_get k g) ++ [e]) g).
Proof.
  assert (forall v : list HistoryEntry, v ++ [e] <> []) as Hne
    by (by intros []).
  generalize (default [] (map_get k g)). intros v.
  induction g as [|[k' v'] g IH]; intros Hg.
  - cbn [map_set]. apply Forall_cons. split; [apply Hne|apply Forall_nil_2].
  - apply Forall_cons in Hg as [H1 H2]. cbn [map_set].
    case_bool_decide; apply Forall_cons; (split; [|by auto]);
      [apply Hne|done].
Qed.

(** X13.  [getHistoryByDate] puts every entry in exactly one group, the
    one of its date: the group of a date is the entries of that date in
    the order of the history, no date has two groups, no group is empty,
    and the groups together are the history. *)
Theorem getHistoryByDate_partitions (toLocaleDateString : Z -> str)
    (w : World C) :
  NoDup (map fst (getHistoryByDate toLocaleDateString w))
  /\ (forall dateKey,
         default [] (map_get dateKey (getHistoryByDate toLocaleDateString w))
         = filter (fun e => toLocaleDateString (timestamp e) = dateKey)
                  (getHistory w))
  /\ Forall (fun kv => snd kv <> [])
            (getHistoryByDate toLocaleDateString w)
  /\ concat (map snd (getHistoryByDate toLocaleDateString w))
     ≡ₚ getHistory w.
Proof.
  unfold getHistoryByDate.
  induction (getHistory w) as [|e h IH] using rev_ind.
  - cbn [foldl map concat fst]. split; [apply NoDup_nil_2|]. done.
  - rewrite foldl_app. cbn [foldl].
    destruct IH as (H1 & H2 & H3 & H4).
    split; [by apply map_set_NoDup|]. split.
    { apply (group_step (fun x => toLocaleDateString (timestamp x))), H2. }
    split; [by apply group_nonempty|].
    rewrite group_concat by done. by rewrite H4.
Qed.

End Statistics.

(** ** Field names typed or pasted *)

Section FieldInput.

Lemma trim_clean f :
  forallb (fun c => negb (is_space c)) f = true -> trim f = f.
Proof.
  intros H. unfold trim, trimEnd.
  assert (forall u, forallb (fun c => negb (is_space c)) u = true ->
                    trimStart u = u) as Hs.
  { intros [|c u]; [done|]. cbn [forallb]. intros Hu.
    apply andb_true_iff in Hu as [Hc _]. apply negb_true_iff in Hc.
    simpl. by rewrite Hc. }
  rewrite (Hs f H), Hs, rev_involutive; [done|].
  by rewrite forallb_rev.
Qed.

(** Where a regex [[...]+] matches: at a unit of the class, and then over
    one unit at least. *)
Lemma exec_plus_class atoms q c t :
  match exec false (plus_class atoms) q (c :: t) accept with
  | None => class_mem false atoms c = false
  | Some e => q < e
  end.
Proof.
  unfold plus_class.
  change (exec false (Seq (Seq ?a ?b) Empty) q (c :: t) accept)
    with (exec false a q (c :: t)
            (fun p s => exec false b p s (fun p' s' => accept p' s'))).
  rewrite exec_class_cons. cbn [xorb].
  destruct (class_mem false atoms c) eqn:E; [|done].
  destruct (exec false (Star true (CharClass false atoms)) (S q) t _)
    as [e|] eqn:Hs.
  2: { change (exec false (Star true ?r) ?p ?s ?k)
         with (star_loop (exec false r) true (S (length s)) p s k) in Hs.
       rewrite star_loop_S in Hs. cbn zeta in Hs.
       by destruct (exec false (CharClass false atoms) (S q) t _). }
  assert (accepts_only (fun _ => true) (Star true (CharClass false atoms)))
    as Ha by done.
  apply exec_consumes in Ha.
  destruct (Ha _ _ _ _ Hs) as (n & _ & _ & Hk).
  injection Hk as <-. lia.
Qed.

(** The pieces [split] cuts a text into at the runs of a class: each is
    free of the class and is a part of the text. *)
Lemma split_from_pieces atoms input fuel q acc rest :
  length rest < fuel ->
  forallb (fun c => negb (class_mem false atoms c)) acc = true ->
  (exists pre, input = pre ++ acc ++ rest) ->
  Forall (fun f => forallb (fun c => negb (class_mem false atoms c)) f = true
                   /\ includes f input = true)
         (split_from false (plus_class atoms) fuel q acc rest).
Proof.
  revert q acc rest.
  induction fuel as [|fuel IH]; intros q acc rest Hf Hacc [pre Hin]; [lia|].
  cbn [split_from]. destruct rest as [|c rest'].
  - apply Forall_cons. split; [|apply Forall_nil_2]. split; [done|].
    apply includes_spec. by exists pre, [].
  - pose proof (exec_plus_class atoms q c rest') as Hx.
    destruct (exec false (plus_class atoms) q (c :: rest') accept) as [e|].
    + replace (e =? q - length acc) with false
        by (symmetry; apply Nat.eqb_neq; lia).
      apply Forall_cons. split.
      * split; [done|]. apply includes_spec. by exists pre, (c :: rest').
      * apply IH; [|done|].
        -- rewrite length_drop. simpl in *. lia.
        -- exists (pre ++ acc ++ take (e - q) (c :: rest')).
           rewrite Hin, <- !app_assoc. cbn [app].
           by rewrite take_drop.
    + apply IH.
      * simpl in Hf. lia.
      * rewrite forallb_app, Hacc. simpl. by rewrite Hx.
      * exists pre. rewrite Hin, <- app_assoc. done.
Qed.

Lemma split_regex_pieces atoms input :
  Forall (fun f => forallb (fun c => negb (class_mem false atoms c)) f = true
                   /\ includes f input = true)
         (split_regex false (plus_class atoms) input).
Proof.
  unfold split_regex. destruct input as [|c input].
  - change (exec false (plus_class atoms) 0 [] accept) with (@None nat).
    apply Forall_cons. split; [|apply Forall_nil_2]. done.
  - apply split_from_pieces; [simpl; lia|done|by exists []].
Qed.


Lemma clipboard_class c :
  class_mem false [CChar 44; CChar 10; CChar 13; CSpace] c = is_separator c.
Proof.
  unfold class_mem, is_separator. cbn [existsb atom_mem andb].
  rewrite !orb_false_r.
  destruct (c =? 44)%N; [done|]. cbn [orb].
  destruct (c =? 10)%N eqn:E; [apply N.eqb_eq in E; by subst|].
  destruct (c =? 13)%N eqn:E'; [apply N.eqb_eq in E'; by subst|]. done.
Qed.

Lemma separator_free_no_space f :
  forallb (fun c => negb (is_separator c)) f = true ->
  forallb (fun c => negb (is_space c)) f = true.
Proof.
  apply forallb_impl. intros c. unfold is_separator.
  rewrite !negb_true_iff, orb_false_iff. by intros [_ ?].
Qed.


Lemma remove_quotes_filter f :
  replace_all false quotes [] f = filter (fun c => is_quote c = false) f.
Proof.
  unfold replace_all, replace_map, segments.
  change quotes with (Seq (CharClass false [CChar 34; CChar 39]) Empty).
  change (concat (map ?g ?ps)) with (render (fun _ : str => @nil N) ps).
  rewrite render_segments_class by lia.
  induction f as [|c f IH]; [done|]. cbn [flat_map].
  rewrite filter_cons, IH.
  assert (class_mem false [CChar 34; CChar 39] c = is_quote c) as ->.
  { unfold class_mem, is_quote. cbn [existsb atom_mem andb].
    by rewrite !orb_false_r. }
  destruct (decide (is_quote c = false)) as [E|E].
  - by rewrite E.
  - apply not_false_is_true in E. by rewrite E.
Qed.

(** X15.  [getFieldsFromClipboard] keeps the custom fields only: it
    returns a list that is not empty, or nothing, and each name in it ends
    in [__c] and holds no comma, no white space and no quote; any other
    name on the clipboard is dropped without a word. *)
Theorem getFieldsFromClipboard_names (clipboardText : str)
    (fields : list str) :
  getFieldsFromClipboard clipboardText = Some fields ->
  fields <> []
  /\ Forall (fun f => ends_with (lit "__c") f = true
                      /\ forallb (fun c => negb (is_separator c)) f = true
                      /\ forallb (fun c => negb (is_quote c)) f = true)
            fields.
Proof.
  unfold getFieldsFromClipboard. case_bool_decide as Ht; [done|].
  case_bool_decide as He; [done|]. intros [= <-]. split; [done|]. clear He.
  change (regex_literal "[,\n\r\s]+")
    with (plus_class [CChar 44; CChar 10; CChar 13; CSpace]).
  pose proof (split_regex_pieces [CChar 44; CChar 10; CChar 13; CSpace]
                clipboardText) as Hp.
  induction Hp as [|f fs [Hf Hin] Hfs IH]; [apply Forall_nil_2|].
  assert (forallb (fun c => negb (is_separator c)) f = true) as Hsep.
  { rewrite <- Hf. apply forallb_pointwise. intros c.
    by rewrite clipboard_class. }
  cbn [map]. rewrite (trim_clean f) by by apply separator_free_no_space.
  rewrite filter_cons. destruct (decide _) as [[Hl He]|Hl]; [|done].
  apply Forall_cons. split; [|done]. split; [done|].
  rewrite remove_quotes_filter. split.
  - clear -Hsep. induction f as [|c f IH]; [done|]. cbn [forallb] in Hsep.
    apply andb_true_iff in Hsep as [Hc Hf]. rewrite filter_cons.
    destruct (decide _); [cbn [forallb]; rewrite Hc|]; by apply IH.
  - clear. induction f as [|c f IH]; [done|]. rewrite filter_cons.
    destruct (decide _) as [E|E]; [cbn [forallb]; by rewrite E|done].
Qed.

End FieldInput.


Lemma getFieldsFromClipboard_names_witness :
  getFieldsFromClipboard (lit "'Foo__c', Name Bar__c")
  = Some [lit "Foo__c"; lit "Bar__c"]
  /\ Forall (fun f => ends_with (lit "__c") f = true)
            [lit "Foo__c"; lit "Bar__c"].
Proof.
  assert (getFieldsFromClipboard (lit "'Foo__c', Name Bar__c")
          = Some [lit "Foo__c"; lit "Bar__c"]) as H by by vm_compute.
  split; [exact H|].
  destruct (getFieldsFromClipboard_names _ _ H) as (_ & Hf).
  eapply Forall_impl; [exact Hf|]. by intros f (? & _).
Defined.

(** ** [processRecordTypes] *)

Section Blocks.

(** A callback that takes out the blocks holding [inner] and counts
    them. *)
Lemma replace_pieces_hits (fn : nat -> str -> option (nat * str)) inner
    removed ps :
  (forall n block,
      fn n block
      = Some (if includes inner block then (S n, []) else (n, block))) ->
  replace_pieces fn removed ps
  = Some (removed + hits inner ps, kept inner ps).
Proof.
  intros Hfn. revert removed. induction ps as [|[t|m] ps IH]; intros removed.
  - simpl. by rewrite Nat.add_0_r.
  - cbn [replace_pieces]. rewrite IH. done.
  - cbn [replace_pieces]. rewrite Hfn.
    cbn [mbind option_bind]. rewrite hits_cons_match.
    change (kept ?i (Match m :: ps))
      with ((if includes i m then [] else m) ++ kept i ps).
    destruct (includes _ m); rewrite IH; cbn [mbind option_bind];
      f_equal; f_equal; lia.
Qed.

(** The pieces of a cut are the text, in order. *)
Lemma cut_concat A B fuel s : render (fun m => m) (cut A B fuel s) = s.
Proof.
  revert s. induction fuel as [|fuel IH]; intros s.
  - unfold render. simpl. apply app_nil_r.
  - cbn [cut]. destruct (indexOf A s) as [i|];
      [|unfold render; simpl; apply app_nil_r].
    destruct (indexOf B (drop (i + length A) s)) as [j|];
      [|unfold render; simpl; apply app_nil_r].
    change (render ?f (Text ?t :: Match ?m :: ?ps))
      with (t ++ m ++ render f ps).
    rewrite IH.
    replace (i + length A + j + length B)
      with (i + (length A + j + length B)) by lia.
    rewrite <- (drop_drop s (length A + j + length B) i).
    by rewrite take_drop, take_drop.
Qed.

Lemma includes_app_r p a b : includes p b = true -> includes p (a ++ b) = true.
Proof.
  rewrite !includes_spec. intros (x & y & ->). exists (a ++ x), y.
  by rewrite <- app_assoc.
Qed.

Lemma includes_app_l p a b : includes p a = true -> includes p (a ++ b) = true.
Proof.
  rewrite !includes_spec. intros (x & y & ->). exists x, (y ++ b).
  by rewrite <- !app_assoc.
Qed.

(** A text that does not hold [inner] has no block that does. *)
Lemma no_hits A B inner fuel s :
  includes inner s = false ->
  hits inner (cut A B fuel s) = 0 /\ kept inner (cut A B fuel s) = s.
Proof.
  intros Hs.
  assert (forall ps, includes inner (render (fun m => m) ps) = false ->
                     hits inner ps = 0
                     /\ kept inner ps = render (fun m => m) ps) as H.
  { induction ps as [|[t|m] ps IH]; intros Hi.
    - done.
    - change (render ?f (Text t :: ps)) with (t ++ render f ps) in Hi |- *.
      change (kept inner (Text t :: ps)) with (t ++ kept inner ps).
      rewrite hits_cons_text.
      destruct IH as [-> ->]; [|done].
      destruct (includes inner (render (fun m => m) ps)) eqn:E; [|done].
      by rewrite includes_app_r in Hi.
    - change (render ?f (Match m :: ps)) with (m ++ render f ps) in Hi |- *.
      change (kept inner (Match m :: ps))
        with ((if includes inner m then [] else m) ++ kept inner ps).
      rewrite hits_cons_match.
      destruct (includes inner m) eqn:Em.
      { by rewrite includes_app_l in Hi. }
      destruct IH as [-> ->]; [|done].
      destruct (includes inner (render (fun m => m) ps)) eqn:E; [|done].
      by rewrite includes_app_r in Hi. }
  destruct (H (cut A B fuel s)) as [H1 H2]; [by rewrite cut_concat|].
  by rewrite H1, H2, cut_concat.
Qed.

End Blocks.

Section RecordTypes.

Lemma picklist_callback_includes name removed block :
  picklist_callback (Some name) removed block
  = Some (if includes (element (lit "picklist") name) block
          then (S removed, []) else (removed, block)).
Proof.
  unfold picklist_callback. cbn [mbind option_bind].
  change (lit "<picklist>" ++ escapeRegex name ++ lit "</picklist>")
    with (lit "<" ++ lit "picklist" ++ lit ">" ++ escapeRegex name ++ lit "</"
            ++ lit "picklist" ++ lit ">").
  rewrite RegExp_element by done. cbn [mbind option_bind].
  rewrite test_lits. by destruct (includes _ block).
Qed.

Lemma picklistRegex_block :
  picklistRegex = block_regex picklistValues_open picklistValues_close.
Proof. reflexivity. Qed.

(** One pass of [processRecordTypes] over a text, for one field. *)
Lemma processRecordTypes_content_one objectName fieldName content :
  forallb is_word objectName = true ->
  forallb is_word fieldName = true ->
  processRecordTypes_content [objectName ++ lit "." ++ fieldName] content
  = Some (hits (element (lit "picklist") fieldName)
               (cut picklistValues_open picklistValues_close
                    (S (length content)) content),
          collapse_blank_lines
            (kept (element (lit "picklist") fieldName)
                  (cut picklistValues_open picklistValues_close
                       (S (length content)) content))).
Proof.
  intros Ho Hf. unfold processRecordTypes_content.
  cbn [processRecordTypes_fields].
  rewrite fieldName_of_reference by done.
  unfold replace_fn, segments. rewrite picklistRegex_block.
  rewrite segments_from_block by done. cbn [fst snd].
  rewrite (replace_pieces_hits _ (element (lit "picklist") fieldName))
    by apply picklist_callback_includes.
  done.
Qed.

Lemma picklistValues_open_prefix k o :
  0 < k < length picklistValues_open ->
  open_after o (take k picklistValues_open) = true.
Proof.
  intros Hk. change (length picklistValues_open) with 16 in Hk.
  do 16 (destruct k as [|k]; [try lia; by destruct o|]). lia.
Qed.

Lemma picklistValues_close_last o x :
  open_after o (x ++ picklistValues_close) = false.
Proof. rewrite open_after_app. by destruct (open_after o x). Qed.

(** X16.  For a field [Object.Field] of sanitized names,
    [processRecordTypes] takes out of a text the blocks
    [<picklistValues>...</picklistValues>], each running from an opening
    tag to the first closing tag after it, that hold
    [<picklist>Field</picklist>], counts them, and collapses the blank
    lines.  A text that does not hold that element loses no block; and on
    a text in which no [<] follows a [<] without a [>] between them, a
    second pass over the result finds no block to remove. *)
Theorem processRecordTypes_removes_blocks_of_field
    (objectName fieldName content : str) :
  sanitizeApiName objectName = Some objectName ->
  sanitizeApiName fieldName = Some fieldName ->
  processRecordTypes_content [objectName ++ lit "." ++ fieldName] content
  = Some (hits (element (lit "picklist") fieldName)
               (cut picklistValues_open picklistValues_close
                    (S (length content)) content),
          collapse_blank_lines
            (kept (element (lit "picklist") fieldName)
                  (cut picklistValues_open picklistValues_close
                       (S (length content)) content)))
  /\ (includes (element (lit "picklist") fieldName) content = false ->
      processRecordTypes_content [objectName ++ lit "." ++ fieldName] content
      = Some (0, collapse_blank_lines content))
  /\ (tag_structured content = true ->
      forall n content1,
        processRecordTypes_content [objectName ++ lit "." ++ fieldName]
                                   content = Some (n, content1) ->
        exists content2,
          processRecordTypes_content [objectName ++ lit "." ++ fieldName]
                                     content1 = Some (0, content2)).
Proof.
  intros Ho Hf. apply sanitized_words in Ho, Hf.
  set (inner := element (lit "picklist") fieldName).
  split; [by apply processRecordTypes_content_one|]. split.
  - intros Hi. rewrite processRecordTypes_content_one by done. fold inner.
    destruct (no_hits picklistValues_open picklistValues_close inner
                (S (length content)) content Hi) as [-> ->]. done.
  - intros Hs n content1. rewrite processRecordTypes_content_one by done.
    fold inner.
    set (t := kept inner (cut picklistValues_open picklistValues_close
                              (S (length content)) content)).
    intros E. assert (content1 = collapse_blank_lines t) as -> by congruence.
    clear E.
    rewrite processRecordTypes_content_one by done. fold inner.
    exists (collapse_blank_lines
              (kept inner (cut picklistValues_open picklistValues_close
                               (S (length (collapse_blank_lines t)))
                               (collapse_blank_lines t)))).
    do 2 f_equal.
    assert (ws_free inner = true) as Hin.
    { apply element_ws_free; [done|].
      apply (forallb_impl is_word); [|done].
      intros c Hc. by rewrite is_word_not_space. }
    rewrite <- (hits_ws_edit picklistValues_open picklistValues_close inner
                  eq_refl eq_refl Hin ltac:(done) ltac:(done) ltac:(done)
                  (S (length t)) t (collapse_blank_lines t));
      [|apply collapse_ws_edit|lia|lia].
    apply (hits_after_removal picklistValues_open picklistValues_close inner);
      [by eexists|apply picklistValues_open_prefix
      |apply picklistValues_close_last|done|lia|fold t; lia].
Qed.

End RecordTypes.

Lemma processRecordTypes_removes_blocks_of_field_witness :
  processRecordTypes_content [lit "Case" ++ lit "." ++ lit "Foo__c"]
                             recordType_text
  = Some (1, lit "<RecordType><picklistValues><picklist>Other__c</picklist></picklistValues></RecordType>")
  /\ exists content2,
      processRecordTypes_content [lit "Case" ++ lit "." ++ lit "Foo__c"]
        (lit "<RecordType><picklistValues><picklist>Other__c</picklist></picklistValues></RecordType>")
      = Some (0, content2).
Proof.
  destruct (processRecordTypes_removes_blocks_of_field
              (lit "Case") (lit "Foo__c") recordType_text)
    as (H1 & _ & H3); [by vm_compute|by vm_compute|].
  assert (processRecordTypes_content [lit "Case" ++ lit "." ++ lit "Foo__c"]
            recordType_text
          = Some (1, lit "<RecordType><picklistValues><picklist>Other__c</picklist></picklistValues></RecordType>"))
    as E by (rewrite H1; by vm_compute).
  split; [exact E|]. by apply (H3 eq_refl 1).
Defined.

(** ** Patterns with an escaped name in them *)

Section ParseComposite.

Lemma quantified_none a rest : no_quantifier rest -> quantified a rest = (a, rest).
Proof.
  destruct rest as [|q t]; [done|]. intros (H1 & H2 & H3).
  cbn [quantified]. rewrite H1, H2, H3.
  destruct t as [|l t]; [done|]. by destruct (is_ch "?" l).
Qed.

Lemma no_quantifier_escaped s rest :
  no_quantifier rest -> no_quantifier (flat_map escape_unit s ++ rest).
Proof.
  intros Hr. destruct s as [|c s]; [done|]. cbn [flat_map].
  assert (escape_unit c
          = if is_syntax_character c then [ch "\"; c] else [c]) as -> by done.
  destruct (is_syntax_character c) eqn:E; [done|].
  apply plain_unit in E.
  repeat match goal with
         | H : Forall _ (_ :: _) |- _ => apply Forall_cons in H as [? H]
         end.
  done.
Qed.

(** An escaped text inside a pattern is the literal of the text, followed
    by what the rest of the pattern parses to. *)
Lemma parse_alt_escaped_then s rest fuel :
  no_quantifier rest ->
  parse_alt (length s + S fuel) (flat_map escape_unit s ++ rest)
  = '(r, rest') ← parse_alt (S fuel) rest; Some (lits s r, rest').
Proof.
  intros Hr. induction s as [|c s IH].
  - cbn [length flat_map app Nat.add lits foldr].
    by destruct (parse_alt (S fuel) rest) as [[r rest']|].
  - cbn [length flat_map Nat.add]. rewrite <- app_assoc.
    replace (length s + S fuel) with (S (length s + fuel)) in * by lia.
    assert (escape_unit c
            = if is_syntax_character c then [ch "\"; c] else [c]) as -> by done.
    destruct (is_syntax_character c) eqn:E.
    + cbn [app].
      change (parse_alt (S (S ?f)) (ch "\" :: c :: ?x))
        with ('(a, rest) ← parse_atom (S f) (ch "\" :: c :: x);
              let '(t, rest') := quantified a rest in
              '(r, rest'') ← parse_alt (S f) rest';
              Some (Seq t r, rest'')).
      rewrite parse_atom_escaped by done. cbn [mbind option_bind].
      rewrite quantified_none by by apply no_quantifier_escaped.
      rewrite IH. by destruct (parse_alt (S fuel) rest) as [[r rest']|].
    + cbn [app]. rewrite parse_alt_plain_head, parse_atom_plain by done.
      cbn [mbind option_bind].
      rewrite quantified_none by by apply no_quantifier_escaped.
      rewrite IH. by destruct (parse_alt (S fuel) rest) as [[r rest']|].
Qed.

(** [\s*] at the head of a pattern. *)
Lemma parse_alt_spaces rest fuel :
  match rest with q :: _ => is_ch "?" q = false | [] => True end ->
  parse_alt (S (S fuel)) (lit "\s*" ++ rest)
  = '(r, rest') ← parse_alt (S fuel) rest;
    Some (Seq (Star true (CharClass false [CSpace])) r, rest').
Proof.
  intros Hq.
  change (parse_alt (S (S fuel)) (lit "\s*" ++ rest))
    with ('(a, rest1) ← parse_atom (S fuel) (lit "\s*" ++ rest);
          let '(t, rest') := quantified a rest1 in
          '(r, rest'') ← parse_alt (S fuel) rest';
          Some (Seq t r, rest'')).
  change (parse_atom (S fuel) (lit "\s*" ++ rest))
    with (Some (CharClass false [CSpace], ch "*" :: rest)).
  cbn [mbind option_bind].
  destruct rest as [|q t]; [done|]. cbn [quantified]. by rewrite Hq.
Qed.

(** [[\s\S]*?] inside a pattern. *)
Lemma parse_alt_lazy_any rest fuel :
  parse_alt (S (S fuel)) (lit "[\s\S]*?" ++ rest)
  = '(r, rest') ← parse_alt (S fuel) rest;
    Some (Seq (Star false any_char) r, rest').
Proof. reflexivity. Qed.

Lemma RegExp_alt src r :
  (exists fuel, 4 * length src + 4 = S (S fuel)
                /\ parse_alt (S fuel) src = Some (r, [])) ->
  RegExp src = Some r.
Proof.
  intros (fuel & Hf & Hp). unfold RegExp. rewrite Hf.
  cbn [parse_disj]. by rewrite Hp.
Qed.

End ParseComposite.

(** ** The pieces of a text cut at the matches of a pattern *)

Section Segments.

Lemma accepts_only_any r : accepts_only (fun _ => true) r.
Proof. induction r; simpl; auto. Qed.

(** A match ends inside the text, at or after the index it starts at. *)
Lemma exec_bounds r i s e :
  exec false r i s accept = Some e -> i <= e <= i + length s.
Proof.
  intros H. destruct (exec_consumes _ r (accepts_only_any r) i s accept e H)
    as (n & Hn & _ & Hk).
  injection Hk as <-. lia.
Qed.

(** The pieces are the text, in order. *)
Lemma segments_concat r fuel pos s :
  render (fun m => m) (segments_from false r fuel pos s) = s.
Proof.
  revert pos s. induction fuel as [|fuel IH]; intros pos s.
  - unfold render. simpl. apply app_nil_r.
  - cbn [segments_from].
    destruct (find_match false r pos s) as [[i e]|] eqn:E;
      [|unfold render; simpl; apply app_nil_r].
    apply find_match_Some in E as (Hi & Hl & Hx).
    apply exec_bounds in Hx as He. rewrite length_drop in He.
    destruct (e =? i) eqn:Ee.
    + change (render ?f (Text ?t :: Match [] :: ?ps)) with (t ++ render f ps).
      destruct (drop (i - pos) s) as [|c rest] eqn:Ed.
      * unfold render. simpl. rewrite app_nil_r.
        rewrite <- (take_drop (i - pos) s) at 2. by rewrite Ed, app_nil_r.
      * change (render ?f (Text [c] :: ?ps)) with (c :: render f ps).
        rewrite IH. rewrite <- (take_drop (i - pos) s) at 2. by rewrite Ed.
    + change (render ?f (Text ?t :: Match ?m :: ?ps))
        with (t ++ m ++ render f ps).
      by rewrite IH, !take_drop.
Qed.

(** Each matched piece is a match of the pattern. *)
Lemma segments_matches r fuel pos s :
  matches_are (fun m => exists i rest,
                   exec false r i (m ++ rest) accept = Some (i + length m))
              (segments_from false r fuel pos s).
Proof.
  revert pos s. induction fuel as [|fuel IH]; intros pos s.
  - by repeat constructor.
  - cbn [segments_from].
    destruct (find_match false r pos s) as [[i e]|] eqn:E;
      [|by repeat constructor].
    apply find_match_Some in E as (Hi & Hl & Hx).
    apply exec_bounds in Hx as He. rewrite length_drop in He.
    destruct (e =? i) eqn:Ee.
    + apply Nat.eqb_eq in Ee. subst e.
      apply Forall_cons. split; [done|]. apply Forall_cons. split.
      { exists i, (drop (i - pos) s). cbn [app length]. by rewrite Nat.add_0_r. }
      destruct (drop (i - pos) s) as [|c rest]; [done|].
      apply Forall_cons. split; [done|]. apply IH.
    + apply Forall_cons. split; [done|]. apply Forall_cons. split; [|apply IH].
      exists i, (drop (e - i) (drop (i - pos) s)).
      rewrite take_drop, length_take, length_drop.
      by replace (i + (e - i) `min` (length s - (i - pos))) with e by lia.
Qed.

Lemma render_no_match f ps :
  matched ps = [] -> render f ps = render (fun m => m) ps.
Proof.
  induction ps as [|[t|m] ps IH]; [done| |done].
  intros H. change (render ?g (Text t :: ps)) with (t ++ render g ps).
  by rewrite IH.
Qed.

(** One pattern of a rewriter: the matches are counted and taken out. *)
Lemma remove_matches_one r n s :
  remove_matches [r] (n, s)
  = (n + length (matched (segments false r s)),
     render (fun _ => []) (segments false r s)).
Proof.
  cbn [remove_matches]. unfold match_all, replace_all, replace_map.
  change (concat (map ?g ?ps)) with (render (fun _ : str => @nil N) ps).
  change (omap _ ?ps) with (matched ps).
  destruct (matched (segments false r s)) as [|m ms] eqn:E; [|done].
  rewrite render_no_match by done. unfold segments.
  rewrite segments_concat. cbn [length]. by rewrite Nat.add_0_r.
Qed.

(** Where the matched pieces hold a text the whole does not hold, there
    is no match. *)
Lemma no_match_without p ps :
  matches_are (fun m => includes p m = true) ps ->
  includes p (render (fun m => m) ps) = false ->
  matched ps = [].
Proof.
  induction ps as [|[t|m] ps IH]; intros Hm Hi; [done| |].
  - apply Forall_cons in Hm as [_ Hm].
    change (render ?g (Text t :: ps)) with (t ++ render g ps) in Hi.
    apply IH; [done|].
    destruct (includes p (render (fun m => m) ps)) eqn:E; [|done].
    by rewrite includes_app_r in Hi.
  - apply Forall_cons in Hm as [Hm _].
    change (render ?g (Match m :: ps)) with (m ++ render g ps) in Hi.
    by rewrite includes_app_l in Hi.
Qed.

(** What [\s*] followed by a literal matches. *)
Lemma exec_spaces_then p i s e :
  exec false (spaces_then p) i s accept = Some e ->
  exists n, n <= length s
            /\ forallb is_space (take n s) = true
            /\ starts_with p (drop n s) = true
            /\ e = i + n + length p.
Proof.
  unfold spaces_then.
  change (exec false (Seq ?a ?b) i s accept)
    with (exec false a i s (fun p' s' => exec false b p' s' accept)).
  intros H.
  assert (accepts_only is_space (Star true (CharClass false [CSpace]))) as Ha.
  { intros d. unfold class_mem. cbn [existsb atom_mem andb xorb].
    by rewrite !orb_false_r. }
  destruct (exec_consumes _ _ Ha _ _ _ _ H) as (n & Hn & Hsp & Hk).
  rewrite exec_lits in Hk.
  destruct (starts_with p (drop n s)) eqn:E; [|done].
  injection Hk as <-. by exists n.
Qed.

Lemma spaces_then_spaced p :
  forall m, (exists i rest, exec false (spaces_then p) i (m ++ rest) accept
                            = Some (i + length m)) ->
            spaced p m.
Proof.
  intros m (i & rest & H).
  apply exec_spaces_then in H as (n & Hn & Hsp & Hp & He).
  apply starts_with_length in Hp as Hl. rewrite length_drop in Hl.
  assert (length m = n + length p) as Hm by lia.
  exists (take n m). split.
  - rewrite take_app_le in Hsp by lia. done.
  - rewrite drop_app_le in Hp by lia.
    apply starts_with_take in Hp.
    rewrite take_app_le in Hp by (rewrite length_drop; lia).
    rewrite <- (take_drop n m) at 1. f_equal.
    rewrite <- Hp. symmetry. apply take_ge. rewrite length_drop. lia.
Qed.

End Segments.

(** ** [processCompactLayouts] and [processListViews] *)

Section ExactElements.

(** The pattern text [\s*<tag>name</tag>] with its name escaped is the
    pattern of white space followed by the literal element. *)
Lemma RegExp_spaces_element tag name :
  plain tag = true ->
  RegExp (lit "\s*" ++ lit "<" ++ tag ++ lit ">" ++ escapeRegex name
            ++ lit "</" ++ tag ++ lit ">")
  = Some (spaces_then (element tag name)).
Proof.
  intros Ht. rewrite element_pattern by done.
  apply RegExp_alt. rewrite escapeRegex_flat_map.
  pose proof (escape_length (element tag name)) as Hl.
  set (el := element tag name) in *.
  set (G := 4 * length (flat_map escape_unit el) + 13 - length el).
  assert (4 * length (flat_map escape_unit el) + 14 = length el + S G) as HG
    by (unfold G; lia).
  clearbody G. exists (length el + S G). split.
  { rewrite length_app. change (length (lit "\s*")) with 3. lia. }
  replace (S (length el + S G)) with (S (S (length el + G))) by lia.
  rewrite parse_alt_spaces.
  - replace (S (length el + G)) with (length el + S G) by lia.
    rewrite <- (app_nil_r (flat_map escape_unit el)).
    by rewrite parse_alt_escaped_then.
  - by unfold el, element.
Qed.


Lemma columns_pattern fieldName :
  RegExp (columns_source fieldName)
  = Some (spaces_then (element (lit "columns") fieldName)).
Proof. by apply (RegExp_spaces_element (lit "columns")). Qed.

Lemma spaced_includes p m : spaced p m -> includes p m = true.
Proof.
  intros (ws & _ & ->). apply includes_spec. exists ws, []. by rewrite app_nil_r.
Qed.

Lemma matches_are_impl (P Q : str -> Prop) ps :
  (forall m, P m -> Q m) -> matches_are P ps -> matches_are Q ps.
Proof.
  intros H Hp. eapply Forall_impl; [exact Hp|].
  intros [t|m]; [done|apply H].
Qed.

(** The cut of a text at the matches of [\s*] and a literal. *)
Lemma spaces_then_segments p s :
  render (fun m => m) (segments false (spaces_then p) s) = s
  /\ matches_are (spaced p) (segments false (spaces_then p) s)
  /\ (includes p s = false -> matched (segments false (spaces_then p) s) = []).
Proof.
  split; [apply segments_concat|]. split.
  - eapply matches_are_impl; [apply spaces_then_spaced|apply segments_matches].
  - intros Hi. apply (no_match_without p).
    + eapply matches_are_impl; [|apply segments_matches].
      intros m Hm. by apply spaced_includes, spaces_then_spaced.
    + unfold segments. by rewrite segments_concat.
Qed.


(** X18.  [processListViews] deletes two kinds of pieces only: the
    occurrences of [<columns>Field</columns>] with the white space before
    them, and the blocks [<filters>...</filters>] that hold
    [<field>Field</field>].  On a text that holds neither element it
    removes nothing. *)
Theorem processListViews_removes_columns_and_filters
    (objectName fieldName content : str) :
  sanitizeApiName objectName = Some objectName ->
  sanitizeApiName fieldName = Some fieldName ->
  (exists columns content1,
      render (fun m => m) columns = content
      /\ matches_are (spaced (element (lit "columns") fieldName)) columns
      /\ content1 = render (fun _ => []) columns
      /\ processListViews_content [objectName ++ lit "." ++ fieldName] content
         = Some (length (matched columns)
                 + hits (element (lit "field") fieldName)
                        (cut (lit "<filters>") (lit "</filters>")
                             (S (length content1)) content1),
                 collapse_blank_lines
                   (kept (element (lit "field") fieldName)
                         (cut (lit "<filters>") (lit "</filters>")
                              (S (length content1)) content1))))
  /\ (includes (element (lit "columns") fieldName) content = false ->
      includes (element (lit "field") fieldName) content = false ->
      processListViews_content [objectName ++ lit "." ++ fieldName] content
      = Some (0, collapse_blank_lines content)).
Proof.
  intros Ho Hf. apply sanitized_words in Ho, Hf.
  set (p := element (lit "columns") fieldName).
  set (inner := element (lit "field") fieldName).
  destruct (spaces_then_segments p content) as (H1 & H2 & H3).
  set (columns := segments false (spaces_then p) content) in *.
  set (content1 := render (fun _ : str => @nil N) columns).
  assert (processListViews_content [objectName ++ lit "." ++ fieldName] content
          = Some (length (matched columns)
                  + hits inner (cut (lit "<filters>") (lit "</filters>")
                                    (S (length content1)) content1),
                  collapse_blank_lines
                    (kept inner (cut (lit "<filters>") (lit "</filters>")
                                     (S (length content1)) content1)))) as E.
  { unfold processListViews_content. cbn [processListViews_fields].
    rewrite fieldName_of_reference by done. cbn [mbind option_bind].
    rewrite columns_pattern. cbn [mbind option_bind].
    rewrite remove_matches_one. cbn [fst snd Nat.add].
    fold columns. fold content1.
    unfold replace_fn, segments.
    change filterRegex with (block_regex (lit "<filters>") (lit "</filters>")).
    rewrite segments_from_block by done.
    rewrite (replace_pieces_hits _ inner) by apply layoutItem_callback_includes.
    done. }
  split.
  - by exists columns, content1.
  - intros Hc Hi. rewrite E.
    assert (content1 = content) as ->.
    { unfold content1. rewrite render_no_match by by apply H3. done. }
    rewrite (H3 Hc).
    destruct (no_hits (lit "<filters>") (lit "</filters>") inner
                (S (length content)) content Hi) as [-> ->].
    done.
Qed.

End ExactElements.


Lemma processListViews_removes_columns_and_filters_witness :
  processListViews_content [lit "Case" ++ lit "." ++ lit "Foo__c"]
    (lit "<ListView><columns>NAME</columns><filters><field>Bar__c</field></filters></ListView>")
  = Some (0, lit "<ListView><columns>NAME</columns><filters><field>Bar__c</field></filters></ListView>").
Proof.
  destruct (processListViews_removes_columns_and_filters
              (lit "Case") (lit "Foo__c")
              (lit "<ListView><columns>NAME</columns><filters><field>Bar__c</field></filters></ListView>"))
    as (_ & H); [by vm_compute|by vm_compute|].
  rewrite H by by vm_compute. by vm_compute.
Defined.

(** ** The texts a pattern matches *)

Section Language.

Lemma star_loop_yields g r body fuel :
  yields (lang r) body -> yields (lang (Star g r)) (star_loop body g fuel).
Proof.
  intros Hb. induction fuel as [|fuel IH]; intros pos s k e H.
  - exists 0. rewrite Nat.add_0_r. split; [lia|]. split; [constructor|done].
  - cbn [star_loop] in H.
    assert (k pos s = Some e
            \/ body pos s (fun pos' s' =>
                 if pos' =? pos then None
                 else star_loop body g fuel pos' s' k) = Some e) as [Hk|Ha].
    { destruct g.
      - destruct (body pos s _) eqn:E; [right; congruence|by left].
      - destruct (k pos s) eqn:E; [by left|by right]. }
    + exists 0. rewrite Nat.add_0_r. split; [lia|]. split; [constructor|done].
    + apply Hb in Ha as (n1 & Hn1 & HP1 & Hc).
      destruct (pos + n1 =? pos); [done|].
      apply IH in Hc as (n2 & Hn2 & HP2 & Hk).
      rewrite length_drop in Hn2.
      exists (n1 + n2). split; [lia|]. split.
      * rewrite <- (take_drop n1 s) at 1.
        rewrite take_app, length_take.
        replace (n1 + n2 - n1 `min` length s) with n2 by lia.
        rewrite take_take. replace ((n1 + n2) `min` n1) with n1 by lia.
        by constructor.
      * rewrite drop_drop in Hk. by rewrite Nat.add_assoc.
Qed.

(** The matcher is sound for the language: what it matches, the pattern
    denotes. *)
Lemma exec_yields r : yields (lang r) (exec false r).
Proof.
  induction r as [|c|inv atoms| | |r1 IH1 r2 IH2|r1 IH1 r2 IH2|g r1 IH1];
    intros pos s k e H; cbn [exec] in *.
  - exists 0. rewrite Nat.add_0_r. split; [lia|]. split; [constructor|done].
  - destruct s as [|d s]; [done|]. unfold char_eq, canonicalize in H.
    cbn [andb] in H. destruct (c =? d)%N eqn:E; [|done].
    apply N.eqb_eq in E as <-. exists 1. split; [simpl; lia|].
    split; [constructor|]. by rewrite Nat.add_1_r.
  - destruct s as [|d s]; [done|].
    destruct (xorb inv (class_mem false atoms d)) eqn:E; [|done].
    exists 1. split; [simpl; lia|].
    split; [by constructor|]. by rewrite Nat.add_1_r.
  - destruct (pos =? 0); [|done].
    exists 0. rewrite Nat.add_0_r. split; [lia|]. split; [constructor|done].
  - destruct s; [|done].
    exists 0. rewrite Nat.add_0_r. split; [simpl; lia|].
    split; [constructor|done].
  - apply IH1 in H as (n1 & Hn1 & HP1 & Hc).
    apply IH2 in Hc as (n2 & Hn2 & HP2 & Hk).
    rewrite length_drop in Hn2.
    exists (n1 + n2). split; [lia|]. split.
    + rewrite <- (take_drop n1 s) at 1.
      rewrite take_app, length_take.
      replace (n1 + n2 - n1 `min` length s) with n2 by lia.
      rewrite take_take. replace ((n1 + n2) `min` n1) with n1 by lia.
      by constructor.
    + rewrite drop_drop in Hk. by rewrite Nat.add_assoc.
  - destruct (exec false r1 pos s k) eqn:E.
    + injection H as ->. apply IH1 in E as (n & Hn & HP & Hk).
      exists n. split; [done|]. split; [by apply lang_disj_l|done].
    + apply IH2 in H as (n & Hn & HP & Hk).
      exists n. split; [done|]. split; [by apply lang_disj_r|done].
  - by apply (star_loop_yields g r1 _ _ IH1) in H.
Qed.

(** Each piece a pattern cuts out of a text is a text of its language. *)
Lemma segments_lang r s : matches_are (lang r) (segments false r s).
Proof.
  eapply matches_are_impl; [|apply segments_matches].
  intros m (i & rest & H).
  apply exec_yields in H as (n & Hn & HL & Hk).
  injection Hk as Hk. assert (n = length m) as -> by lia.
  by rewrite take_app_length in HL.
Qed.

Lemma lang_lits p r m : lang (lits p r) m -> exists b, m = p ++ b /\ lang r b.
Proof.
  revert m. induction p as [|c p IH]; intros m H.
  - by exists m.
  - cbn [lits foldr] in H. inversion H as [| | | | |r1 r2 a b Ha Hb| | | |]; subst.
    inversion Ha; subst. apply IH in Hb as (b' & -> & Hb').
    by exists b'.
Qed.

Lemma lang_lits_end p m : lang (lits p Empty) m -> m = p.
Proof.
  intros H. apply lang_lits in H as (b & -> & Hb). inversion Hb.
  by rewrite app_nil_r.
Qed.

Lemma lang_spaces g w :
  lang (Star g (CharClass false [CSpace])) w -> forallb is_space w = true.
Proof.
  remember (Star g (CharClass false [CSpace])) as r eqn:Er.
  induction 1 as [| | | | | | | | |g' r' a b Ha _ Hb IH]; try discriminate.
  - done.
  - injection Er as -> ->. rewrite forallb_app, IH by done.
    inversion Ha as [| |inv atoms d Hd| | | | | | |]; subst.
    unfold class_mem in Hd. cbn [existsb atom_mem andb xorb] in Hd.
    rewrite !orb_false_r in Hd. simpl. by rewrite Hd.
Qed.

(** What [\s*A[\s\S]*?I[\s\S]*?B] can match. *)
Lemma lang_span A I B m :
  lang (span_regex A I B) m ->
  exists ws x y,
    forallb is_space ws = true /\ m = ws ++ A ++ x ++ I ++ y ++ B.
Proof.
  unfold span_regex. intros H.
  inversion H as [| | | | |r1 r2 ws rest Hws Hrest| | | |]; subst.
  apply lang_spaces in Hws.
  apply lang_lits in Hrest as (b1 & -> & H1).
  inversion H1 as [| | | | |r1 r2 x rest Hx Hrest| | | |]; subst.
  apply lang_lits in Hrest as (b2 & -> & H2).
  inversion H2 as [| | | | |r1 r2 y rest Hy Hrest| | | |]; subst.
  apply lang_lits_end in Hrest as ->.
  by exists ws, x, y.
Qed.

End Language.

(** ** [removeMetadataReferences] and [removeLayoutItems] *)

Section Spans.

Lemma open_tag_plain tag : plain tag = true -> plain (open_tag tag) = true.
Proof. intros H. unfold open_tag. by rewrite !plain_app, H. Qed.

Lemma close_tag_plain tag : plain tag = true -> plain (close_tag tag) = true.
Proof. intros H. unfold close_tag. by rewrite !plain_app, H. Qed.

Lemma flat_map_escape_plain s :
  plain s = true -> flat_map escape_unit s = s.
Proof. intros H. rewrite <- escapeRegex_flat_map. by apply escapeRegex_plain. Qed.

(** The pattern text of [removeMetadataReferences] is the pattern of three
    literals, the opening tag, the child element and the closing tag, with
    white space before them and lazy gaps between them. *)
Lemma RegExp_span parentTag childTag name :
  plain parentTag = true -> plain childTag = true ->
  RegExp (metadataReference_source parentTag childTag name)
  = Some (span_regex (open_tag parentTag) (element childTag name)
                     (close_tag parentTag)).
Proof.
  intros Hp Hc.
  set (A := open_tag parentTag). set (I := element childTag name).
  set (B := close_tag parentTag).
  assert (metadataReference_source parentTag childTag name
          = lit "\s*" ++ flat_map escape_unit A ++ lit "[\s\S]*?"
              ++ flat_map escape_unit I ++ lit "[\s\S]*?"
              ++ flat_map escape_unit B ++ []) as ->.
  { rewrite (flat_map_escape_plain A) by by apply open_tag_plain.
    rewrite (flat_map_escape_plain B) by by apply close_tag_plain.
    rewrite <- escapeRegex_flat_map. unfold I.
    rewrite <- element_pattern by done.
    unfold metadataReference_source, A, B, open_tag, close_tag.
    change (lit "\s*<") with (lit "\s*" ++ lit "<").
    change (lit ">[\s\S]*?<") with (lit ">" ++ lit "[\s\S]*?" ++ lit "<").
    change (lit ">[\s\S]*?</") with (lit ">" ++ lit "[\s\S]*?" ++ lit "</").
    by rewrite <- !app_assoc, app_nil_r. }
  apply RegExp_alt.
  pose proof (escape_length A) as HA. pose proof (escape_length I) as HI.
  pose proof (escape_length B) as HB.
  set (eA := flat_map escape_unit A) in *.
  set (eI := flat_map escape_unit I) in *.
  set (eB := flat_map escape_unit B) in *.
  set (G := 4 * (length eA + length eI + length eB) + 72
            - (length A + length I + length B)).
  assert (4 * (length eA + length eI + length eB) + 72
          = length A + length I + length B + G) as HG by (unfold G; lia).
  clearbody G.
  exists (S (length A + S (S (length I + S (S (length B + S G)))))).
  split.
  { rewrite !length_app. change (length (lit "\s*")) with 3.
    change (length (lit "[\s\S]*?")) with 8. cbn [length]. lia. }
  rewrite parse_alt_spaces.
  2: { unfold eA, A, open_tag. done. }
  replace (S (length A + S (S (length I + S (S (length B + S G))))))
    with (length A + S (S (S (length I + S (S (length B + S G)))))) by lia.
  unfold eA. rewrite parse_alt_escaped_then by done.
  rewrite parse_alt_lazy_any.
  replace (S (S (length I + S (S (length B + S G)))))
    with (length I + S (S (S (S (length B + S G))))) by lia.
  unfold eI. rewrite parse_alt_escaped_then by done.
  rewrite parse_alt_lazy_any.
  replace (S (S (S (length B + S G)))) with (length B + S (S (S (S G))))
    by lia.
  unfold eB. rewrite parse_alt_escaped_then by done.
  done.
Qed.

Lemma first_from_at {X} (k : nat -> str -> option X) pos s i e :
  i <= length s ->
  (forall j, j < i -> k (pos + j) (drop j s) = None) ->
  k (pos + i) (drop i s) = Some e ->
  first_from k pos s = Some e.
Proof.
  revert pos s. induction i as [|i IH]; intros pos s Hi Hn He.
  - rewrite Nat.add_0_r, drop_0 in He.
    destruct s; cbn [first_from]; by rewrite He.
  - destruct s as [|c s]; [simpl in Hi; lia|]. cbn [first_from].
    pose proof (Hn 0 ltac:(lia)) as H0. rewrite Nat.add_0_r, drop_0 in H0.
    rewrite H0. apply IH.
    + simpl in Hi. lia.
    + intros j Hj. specialize (Hn (S j) ltac:(lia)).
      by replace (pos + S j) with (S pos + j) in Hn by lia.
    + by replace (pos + S i) with (S pos + i) in He by lia.
Qed.

(** A greedy run of white space stops at once before a unit that is not
    white space. *)
Lemma exec_spaces_stop pos c t k :
  is_space c = false ->
  exec false (Star true (CharClass false [CSpace])) pos (c :: t) k
  = k pos (c :: t).
Proof.
  intros Hc.
  change (exec false (Star true ?r) pos ?s k)
    with (star_loop (exec false r) true (S (length s)) pos s k).
  rewrite star_loop_S. cbn zeta. rewrite exec_class_cons.
  unfold class_mem. cbn [existsb atom_mem andb xorb].
  by rewrite !orb_false_r, Hc.
Qed.

Lemma exec_spaces_nil pos k :
  exec false (Star true (CharClass false [CSpace])) pos [] k = k pos [].
Proof. reflexivity. Qed.

(** The match of the pattern at the head of a text that starts with the
    opening literal: it runs to the first closing literal after the first
    inner literal, whatever stands before that one. *)
Lemma exec_span_first A I B pos x y post :
  (exists c A', A = c :: A' /\ is_space c = false) ->
  indexOf I (x ++ I ++ y ++ B ++ post) = Some (length x) ->
  indexOf B (y ++ B ++ post) = Some (length y) ->
  exec false (span_regex A I B) pos (A ++ x ++ I ++ y ++ B ++ post) accept
  = Some (pos + length (A ++ x ++ I ++ y ++ B)).
Proof.
  intros (c & A' & -> & Hc) HI HB. unfold span_regex.
  set (A := c :: A').
  change (exec false (Seq ?a ?b) pos ?s accept)
    with (exec false a pos s (fun p' s' => exec false b p' s' accept)).
  change (A ++ x ++ I ++ y ++ B ++ post)
    with (c :: A' ++ x ++ I ++ y ++ B ++ post) at 1.
  rewrite exec_spaces_stop by done.
  change (c :: A' ++ x ++ I ++ y ++ B ++ post)
    with (A ++ x ++ I ++ y ++ B ++ post).
  rewrite exec_lits, starts_with_app, drop_app_length.
  change (exec false (Seq (Star false any_char) ?b) ?p ?s accept)
    with (star_loop (exec false any_char) false (S (length s)) p s
            (fun p' s' => exec false b p' s' accept)).
  rewrite star_lazy_any by lia.
  apply (first_from_at _ _ _ (length x)).
  - rewrite length_app. lia.
  - intros j Hj.
    change (lits I (Seq (Star false any_char) (lits B Empty)))
      with (block_regex I B).
    rewrite exec_block.
    apply indexOf_Some in HI as (_ & _ & Hmin). by rewrite Hmin.
  - change (lits I (Seq (Star false any_char) (lits B Empty)))
      with (block_regex I B).
    rewrite exec_block, drop_app_length, starts_with_app, drop_app_length, HB.
    cbn [fmap option_fmap option_map]. f_equal. rewrite !length_app. lia.
Qed.

Lemma exec_span_nil A I B pos :
  A <> [] -> exec false (span_regex A I B) pos [] accept = None.
Proof.
  intros HA. unfold span_regex.
  change (exec false (Seq ?a ?b) pos ?s accept)
    with (exec false a pos s (fun p' s' => exec false b p' s' accept)).
  rewrite exec_spaces_nil, exec_lits. by destruct A.
Qed.

(** A text that is one match from its first unit to its last. *)
Lemma segments_whole r s :
  s <> [] ->
  exec false r 0 s accept = Some (length s) ->
  (forall pos, exec false r pos [] accept = None) ->
  segments false r s = [Text []; Match s; Text []].
Proof.
  intros Hs Hx Hnil. unfold segments. cbn [segments_from].
  assert (find_match false r 0 s = Some (0, length s)) as ->.
  { destruct s; cbn [find_match]; by rewrite Hx. }
  destruct s as [|c s]; [done|].
  replace (length (c :: s) =? 0) with false by done.
  rewrite Nat.sub_0_r, take_0, drop_0, take_ge, drop_ge by lia.
  cbn [length segments_from find_match]. by rewrite Hnil.
Qed.

(** X19.  The pattern of [removeMetadataReferences] runs from an opening
    tag of the parent to the first closing tag after the first child
    element of the name, whatever stands between the opening tag and that
    element.  So a text that starts with an opening tag, ends with a
    closing tag and holds the element is removed as one piece, counted
    once, with the other blocks that precede the element in it; a text
    that does not hold the element loses nothing.  [removeLayoutItems]
    builds the same pattern for [layoutItems] and [field]. *)
Theorem removeMetadataReferences_spans_blocks
    (parentTag childTag name x y : str) :
  plain parentTag = true ->
  plain childTag = true ->
  indexOf (element childTag name)
          (x ++ element childTag name ++ y ++ close_tag parentTag)
  = Some (length x) ->
  indexOf (close_tag parentTag) (y ++ close_tag parentTag) = Some (length y) ->
  removeMetadataReferences_content parentTag childTag [name]
    (open_tag parentTag ++ x ++ element childTag name ++ y
       ++ close_tag parentTag)
  = Some (1, [])
  /\ (forall content,
         includes (element childTag name) content = false ->
         removeMetadataReferences_content parentTag childTag [name] content
         = Some (0, content))
  /\ (forall content,
         removeLayoutItems_content [name] content
         = removeMetadataReferences_content (lit "layoutItems") (lit "field")
                                            [name] content).
Proof.
  intros Hp Hc HI HB.
  set (A := open_tag parentTag). set (I := element childTag name) in *.
  set (B := close_tag parentTag) in *.
  assert (forall content,
             removeMetadataReferences_content parentTag childTag [name] content
             = Some (length (matched (segments false (span_regex A I B)
                                               content)),
                     render (fun _ => [])
                            (segments false (span_regex A I B) content)))
    as E.
  { intros content. unfold removeMetadataReferences_content.
    cbn [removeMetadataReferences_names].
    rewrite RegExp_span by done. cbn [mbind option_bind].
    by rewrite remove_matches_one. }
  split; [|split].
  - rewrite E, segments_whole; [done|by destruct parentTag| |].
    + pose proof (exec_span_first A I B 0 x y []) as H.
      rewrite !app_nil_r in H. rewrite H; [|by eexists _, _|done|done].
      done.
    + intros pos. by apply exec_span_nil.
  - intros content Hi. rewrite E.
    assert (matched (segments false (span_regex A I B) content) = []) as Hm.
    { apply (no_match_without I).
      - eapply matches_are_impl; [|apply segments_lang].
        intros m Hm. apply lang_span in Hm as (ws & x' & y' & _ & ->).
        apply includes_spec. exists (ws ++ A ++ x'), (y' ++ B).
        by rewrite <- !app_assoc.
      - unfold segments. by rewrite segments_concat. }
    rewrite Hm, render_no_match by done.
    unfold segments. by rewrite segments_concat.
  - intros content.
    unfold removeLayoutItems_content, removeMetadataReferences_content.
    cbn [removeLayoutItems_fields removeMetadataReferences_names].
    by change (metadataReference_source (lit "layoutItems") (lit "field") name)
      with (layoutItems_source name).
Qed.

End Spans.

Lemma removeMetadataReferences_spans_blocks_witness :
  removeMetadataReferences_content (lit "classAccesses") (lit "apexClass")
                                   [lit "MyClass"] two_classAccesses
  = Some (1, []).
Proof.
  apply (removeMetadataReferences_spans_blocks
           (lit "classAccesses") (lit "apexClass") (lit "MyClass")
           (lit "<apexClass>Other</apexClass><enabled>true</enabled></classAccesses><classAccesses>")
           (lit "<enabled>true</enabled>"));
    by vm_compute.
Defined.

(** ** The patterns of [processFile] *)

Section Tokens.

Lemma no_quantifier_tokens ts : no_quantifier (tokens_text ts).
Proof.
  induction ts as [|[| | |s] ts IH]; [done|done|done|done|].
  unfold tokens_text. cbn [map concat token_text].
  by apply no_quantifier_escaped.
Qed.

(** [(?:true|false)] as an atom. *)
Lemma parse_atom_boolean rest fuel :
  parse_atom (9 + fuel) (lit "(?:true|false)" ++ rest) = Some (boolean_regex, rest).
Proof.
  change (parse_atom (9 + fuel) (lit "(?:true|false)" ++ rest))
    with ('(r, rest1) ← parse_disj (8 + fuel) (lit "true|false)" ++ rest);
          match rest1 with
          | d :: rest' => if is_ch ")" d then Some (r, rest') else None
          | [] => None
          end).
  change (parse_disj (8 + fuel) (lit "true|false)" ++ rest))
    with ('(r1, rest1) ← parse_alt (length (lit "true") + S (2 + fuel))
                           (flat_map escape_unit (lit "true")
                              ++ lit "|false)" ++ rest);
          match rest1 with
          | c :: rest' =>
              if is_ch "|" c then
                '(r2, rest'') ← parse_disj (7 + fuel) rest';
                Some (Disj r1 r2, rest'')
              else Some (r1, rest1)
          | [] => Some (r1, rest1)
          end).
  rewrite parse_alt_escaped_then by done.
  change (parse_alt (S (2 + fuel)) (lit "|false)" ++ rest))
    with (Some (Empty, lit "|false)" ++ rest)).
  cbn [mbind option_bind].
  change (lit "|false)" ++ rest) with (ch "|" :: lit "false)" ++ rest).
  cbv beta iota.
  change (is_ch "|" (ch "|")) with true. cbv beta iota.
  change (parse_disj (7 + fuel) (lit "false)" ++ rest))
    with ('(r1, rest1) ← parse_alt (length (lit "false") + S fuel)
                           (flat_map escape_unit (lit "false")
                              ++ ch ")" :: rest);
          match rest1 with
          | c :: rest' =>
              if is_ch "|" c then
                '(r2, rest'') ← parse_disj (6 + fuel) rest';
                Some (Disj r1 r2, rest'')
              else Some (r1, rest1)
          | [] => Some (r1, rest1)
          end).
  rewrite parse_alt_escaped_then by done.
  reflexivity.
Qed.

(** [(?:true|false)] inside a pattern. *)
Lemma parse_alt_boolean rest fuel :
  no_quantifier rest ->
  parse_alt (S (9 + fuel)) (lit "(?:true|false)" ++ rest)
  = '(r, rest') ← parse_alt (9 + fuel) rest;
    Some (Seq boolean_regex r, rest').
Proof.
  intros Hq.
  change (parse_alt (S (9 + fuel)) (lit "(?:true|false)" ++ rest))
    with ('(a, rest1) ← parse_atom (9 + fuel) (lit "(?:true|false)" ++ rest);
          let '(t, rest') := quantified a rest1 in
          '(r, rest'') ← parse_alt (9 + fuel) rest';
          Some (Seq t r, rest'')).
  rewrite parse_atom_boolean. cbn [mbind option_bind].
  by rewrite quantified_none.
Qed.

(** A pattern text made of parts parses to the pattern of its parts. *)
Lemma parse_tokens ts G :
  parse_alt (tokens_fuel ts + (10 + G)) (tokens_text ts)
  = Some (tokens_regex ts, []).
Proof.
  induction ts as [|t ts IH]; [done|].
  unfold tokens_fuel, tokens_text in *.
  cbn [map concat sum_list_with foldr tokens_regex].
  change (foldr token_regex Empty ts) with (tokens_regex ts).
  set (F := sum_list (map token_fuel ts)) in *.
  set (text := concat (map token_text ts)) in *.
  pose proof (no_quantifier_tokens ts) as Hq.
  unfold tokens_text in Hq. fold text in Hq.
  destruct t as [| | |s]; cbn [token_fuel token_text token_regex];
    unfold Datatypes.id.
  - replace (1 + F + (10 + G)) with (S (S (F + (9 + G)))) by lia.
    rewrite parse_alt_spaces by (destruct text; [done|by destruct Hq as (_ & _ & ?)]).
    replace (S (F + (9 + G))) with (F + (10 + G)) by lia.
    by rewrite IH.
  - replace (1 + F + (10 + G)) with (S (S (F + (9 + G)))) by lia.
    rewrite parse_alt_lazy_any.
    replace (S (F + (9 + G))) with (F + (10 + G)) by lia.
    by rewrite IH.
  - replace (1 + F + (10 + G)) with (S (9 + (F + (1 + G)))) by lia.
    rewrite parse_alt_boolean by done.
    replace (9 + (F + (1 + G))) with (F + (10 + G)) by lia.
    by rewrite IH.
  - replace (length s + F + (10 + G)) with (length s + S (F + (9 + G))) by lia.
    rewrite parse_alt_escaped_then by done.
    replace (S (F + (9 + G))) with (F + (10 + G)) by lia.
    by rewrite IH.
Qed.

Lemma tokens_fuel_le ts : tokens_fuel ts <= length (tokens_text ts).
Proof.
  induction ts as [|t ts IH]; [done|].
  unfold tokens_fuel, tokens_text in *. cbn [map concat sum_list_with].
  unfold Datatypes.id in *. rewrite length_app.
  assert (token_fuel t <= length (token_text t)); [|lia].
  destruct t as [| | |s]; cbn [token_fuel token_text];
    [simpl; lia..|apply escape_length].
Qed.

Lemma RegExp_tokens ts :
  3 <= length (tokens_text ts) ->
  RegExp (tokens_text ts) = Some (tokens_regex ts).
Proof.
  intros Hl. apply RegExp_alt. pose proof (tokens_fuel_le ts) as Hf.
  set (G := 4 * length (tokens_text ts) + 4 - (tokens_fuel ts + 11)).
  exists (tokens_fuel ts + (9 + G)). split; [unfold G; lia|].
  replace (S (tokens_fuel ts + (9 + G))) with (tokens_fuel ts + (10 + G))
    by lia.
  apply parse_tokens.
Qed.

(** What the pattern of a sequence of parts can match. *)
Lemma lang_tokens ts m : lang (tokens_regex ts) m -> reads ts m.
Proof.
  revert m. induction ts as [|t ts IH]; intros m H.
  - inversion H. by exists [].
  - cbn [tokens_regex foldr] in H.
    change (foldr token_regex Empty ts) with (tokens_regex ts) in H.
    assert (exists a b, m = a ++ b /\ token_reads t a
                        /\ lang (tokens_regex ts) b) as (a & b & -> & Ha & Hb).
    { destruct t as [| | |s]; cbn [token_regex] in H.
      - inversion H as [| | | | |r1 r2 a b Ha Hb| | | |]; subst.
        exists a, b. split; [done|]. split; [|done]. by apply lang_spaces in Ha.
      - inversion H as [| | | | |r1 r2 a b Ha Hb| | | |]; subst.
        by exists a, b.
      - inversion H as [| | | | |r1 r2 a b Ha Hb| | | |]; subst.
        exists a, b. split; [done|]. split; [|done].
        inversion Ha as [| | | | | |r1 r2 a' Ht|r1 r2 a' Hf| |]; subst.
        + left. by apply lang_lits_end.
        + right. by apply lang_lits_end.
      - apply lang_lits in H as (b & -> & Hb). by exists s, b. }
    apply IH in Hb as (parts & -> & Hp).
    exists (a :: parts). split; [done|]. by constructor.
Qed.

Lemma fieldPermissions_sources_tokens field :
  fieldPermissions_sources field
  = map tokens_text (fieldPermissions_tokens field).
Proof.
  unfold fieldPermissions_sources, fieldPermissions_tokens.
  cbn [map]. unfold tokens_text. cbn [map concat token_text].
  rewrite <- !escapeRegex_flat_map. unfold element.
  rewrite !escapeRegex_app, !(escapeRegex_plain (lit _)) by done.
  rewrite <- !app_assoc, !app_nil_r.
  generalize (escapeRegex field). intros e. reflexivity.
Qed.

(** The four patterns of a field are well formed, whatever the name. *)
Lemma fieldPermissions_patterns field :
  mapM RegExp (fieldPermissions_sources field)
  = Some (map tokens_regex (fieldPermissions_tokens field)).
Proof.
  rewrite fieldPermissions_sources_tokens.
  unfold fieldPermissions_tokens. cbn [map mapM].
  rewrite !RegExp_tokens; [done|..];
    unfold tokens_text; cbn [map concat token_text];
    rewrite length_app; simpl; lia.
Qed.

(** A text that a sequence of parts matches holds its literal parts. *)
Lemma reads_includes ts s m :
  In (TLit s) ts -> reads ts m -> includes s m = true.
Proof.
  intros Hin (parts & -> & Hp). induction Hp as [|t part ts parts Ht Hp IH].
  - destruct Hin.
  - cbn [concat]. destruct Hin as [->|Hin].
    + cbn [token_reads] in Ht. subst part. apply includes_app_l.
      apply includes_spec. exists [], []. by rewrite app_nil_r.
    + apply includes_app_r. by apply IH.
Qed.

Lemma permission_block_includes field m :
  permission_block field m -> includes (element (lit "field") field) m = true.
Proof.
  intros (ts & Hin & Hr). apply (reads_includes ts); [|done].
  unfold fieldPermissions_tokens in Hin. cbn [In] in Hin.
  destruct Hin as [<-|[<-|[<-|[<-|[]]]]]; cbn [In]; tauto.
Qed.

(** The passes of a list of patterns. *)
Lemma remove_matches_removal (Q : str -> Prop) rs st :
  Forall (fun r => forall m, lang r m -> Q m) rs ->
  removal Q st (remove_matches rs st).
Proof.
  revert st. induction rs as [|r rs IH]; intros [n s] Hq.
  - constructor.
  - apply Forall_cons in Hq as [Hr Hq].
    change (remove_matches (r :: rs) (n, s))
      with (remove_matches rs (remove_matches [r] (n, s))).
    rewrite remove_matches_one.
    pose proof (segments_concat r (S (length s)) 0 s) as Hs.
    fold (segments false r s) in Hs. rewrite <- Hs at 1.
    constructor; [|by apply IH].
    eapply matches_are_impl; [exact Hr|apply segments_lang].
Qed.

Lemma removal_trans (Q : str -> Prop) a b c :
  removal Q a b -> removal Q b c -> removal Q a c.
Proof.
  induction 1 as [|n ps st' Hm _ IH]; [done|].
  intros Hc. constructor; [done|by apply IH].
Qed.

(** A pattern whose matches hold a text the content does not hold. *)
Lemma remove_matches_without (I : str) rs n s :
  Forall (fun r => forall m, lang r m -> includes I m = true) rs ->
  includes I s = false ->
  remove_matches rs (n, s) = (n, s).
Proof.
  intros Hq Hi. induction Hq as [|r rs Hr _ IH]; [done|].
  change (remove_matches (r :: rs) (n, s))
    with (remove_matches rs (remove_matches [r] (n, s))).
  rewrite remove_matches_one.
  assert (matched (segments false r s) = []) as Hm.
  { apply (no_match_without I).
    - eapply matches_are_impl; [exact Hr|apply segments_lang].
    - unfold segments. by rewrite segments_concat. }
  rewrite Hm, render_no_match by done. unfold segments.
  rewrite segments_concat. cbn [length]. by rewrite Nat.add_0_r.
Qed.

Lemma fieldPermissions_lang field :
  Forall (fun r => forall m, lang r m -> permission_block field m)
         (map tokens_regex (fieldPermissions_tokens field)).
Proof.
  apply Forall_map, Forall_forall. intros ts Hin m Hm.
  exists ts. split; [by apply list_elem_of_In|by apply lang_tokens].
Qed.

(** X20.  [processFile] builds four well-formed patterns for every field
    name, so its loop over the fields never throws.  The loop is a run of
    passes, each of which takes out and counts pieces that are a
    [fieldPermissions] block of one of the fields in one of the four
    orders of [editable], [field] and [readable], with the white space
    before it, and keeps the rest of the text as it is.  A text that holds
    no [<field>name</field>] of the fields comes back unchanged with the
    same count. *)
Theorem processFile_removes_only_permission_blocks (fields : list str) :
  (forall st,
      exists st',
        processFile_fields fields st = Some st'
        /\ removal (fun m => exists f, In f fields /\ permission_block f m)
                   st st')
  /\ (forall n content,
         (forall f, In f fields ->
                    includes (element (lit "field") f) content = false) ->
         processFile_fields fields (n, content) = Some (n, content)).
Proof.
  split.
  - induction fields as [|f fields IH]; intros st.
    + exists st. split; [done|constructor].
    + cbn [processFile_fields]. rewrite fieldPermissions_patterns.
      cbn [mbind option_bind].
      destruct (IH (remove_matches
                      (map tokens_regex (fieldPermissions_tokens f)) st))
        as (st' & E & Hr).
      exists st'. split; [done|].
      eapply removal_trans.
      * apply remove_matches_removal.
        eapply Forall_impl; [apply fieldPermissions_lang|].
        intros r Hr' m Hm. exists f. split; [by left|by apply Hr'].
      * clear E. induction Hr as [|n ps st' Hm _ IHr]; [constructor|].
        constructor; [|done].
        eapply matches_are_impl; [|exact Hm].
        intros m (f' & Hf' & Hb). exists f'. split; [by right|done].
  - induction fields as [|f fields IH]; intros n content Hi; [done|].
    cbn [processFile_fields]. rewrite fieldPermissions_patterns.
    cbn [mbind option_bind].
    rewrite (remove_matches_without (element (lit "field") f)).
    + apply IH. intros f' Hf'. apply Hi. by right.
    + eapply Forall_impl; [apply fieldPermissions_lang|].
      intros r Hr m Hm. by apply permission_block_includes, Hr.
    + apply Hi. by left.
Qed.

End Tokens.

(** ** The block removals of the FlexiPage cleaner *)

Section FlexiBlocks.

(** A successful [test] has found a text of the pattern. *)
Lemma test_lang r s :
  test false r s = true -> exists a m b, s = a ++ m ++ b /\ lang r m.
Proof.
  unfold test. destruct (find_match false r 0 s) as [[i e]|] eqn:E; [|done].
  intros _. apply find_match_Some in E as (_ & Hi & He).
  rewrite Nat.sub_0_r in *.
  apply exec_yields in He as (n & Hn & HL & _).
  exists (take i s), (take n (drop i s)), (drop n (drop i s)).
  split; [|done]. by rewrite !take_drop.
Qed.

(** Where every matched piece holds one of the texts [Is], none of which
    the whole holds, there is no match. *)
Lemma no_match_among (Q : str -> Prop) (Is : list str) ps :
  (forall m, Q m -> exists I, In I Is /\ includes I m = true) ->
  matches_are Q ps ->
  (forall I, In I Is -> includes I (render (fun m => m) ps) = false) ->
  matched ps = [].
Proof.
  intros HQ. induction ps as [|[t|m] ps IH]; intros Hm Hs; [done| |].
  - apply Forall_cons in Hm as [_ Hm]. apply IH; [done|].
    intros I HI. specialize (Hs I HI).
    change (render ?g (Text t :: ps)) with (t ++ render g ps) in Hs.
    destruct (includes I (render (fun m => m) ps)) eqn:E; [|done].
    by rewrite includes_app_r in Hs.
  - apply Forall_cons in Hm as [Hm _]. apply HQ in Hm as (I & HI & Hi).
    specialize (Hs I HI).
    change (render ?g (Match m :: ps)) with (m ++ render g ps) in Hs.
    by rewrite includes_app_l in Hs.
Qed.

(** A run of passes over a text that holds none of the texts [Is], one of
    which every removable piece holds, takes nothing out. *)
Lemma removal_without (Q : str -> Prop) (Is : list str) st st' :
  (forall m, Q m -> exists I, In I Is /\ includes I m = true) ->
  (forall I, In I Is -> includes I (snd st) = false) ->
  removal Q st st' -> st' = st.
Proof.
  intros HQ Hs Hr. induction Hr as [|n ps st' Hm _ IH]; [done|].
  cbn [snd] in Hs.
  pose proof (no_match_among Q Is ps HQ Hm Hs) as E.
  rewrite E, render_no_match in IH by done. cbn [length] in IH.
  rewrite Nat.add_0_r in IH. by apply IH.
Qed.

(** A callback that takes out and counts the blocks it chooses, all of
    which satisfy [Q], and hands the others back. *)
Lemma replace_pieces_removal (Q : str -> Prop)
    (fn : nat -> str -> option (nat * str)) n ps :
  (forall k block,
      exists b : bool,
        fn k block = Some (if b then (S k, []) else (k, block))
        /\ (b = true -> Q block)) ->
  exists ps',
    replace_pieces fn n ps
    = Some (n + length (matched ps'), render (fun _ => []) ps')
    /\ render (fun m => m) ps' = render (fun m => m) ps
    /\ matches_are Q ps'.
Proof.
  intros Hfn. revert n. induction ps as [|[t|m] ps IH]; intros n.
  - exists []. simpl. rewrite Nat.add_0_r.
    split; [done|]. split; [done|constructor].
  - destruct (IH n) as (ps' & E & Hr & Hm). exists (Text t :: ps').
    cbn [replace_pieces]. rewrite E. cbn [mbind option_bind].
    split; [done|]. split; [|by constructor].
    change (render ?g (Text t :: ?l)) with (t ++ render g l). by rewrite Hr.
  - destruct (Hfn n m) as ([|] & Ef & Hq).
    + destruct (IH (S n)) as (ps' & E & Hr & Hm). exists (Match m :: ps').
      cbn [replace_pieces]. rewrite Ef. cbn [mbind option_bind]. rewrite E.
      cbn [mbind option_bind]. split; [|split].
      * change (matched (Match m :: ps')) with (m :: matched ps').
        cbn [length]. rewrite Nat.add_succ_r. reflexivity.
      * change (render ?g (Match m :: ?l)) with (m ++ render g l).
        by rewrite Hr.
      * constructor; [by apply Hq|done].
    + destruct (IH n) as (ps' & E & Hr & Hm). exists (Text m :: ps').
      cbn [replace_pieces]. rewrite Ef. cbn [mbind option_bind]. rewrite E.
      cbn [mbind option_bind]. split; [done|]. split; [|by constructor].
      change (render ?g (Text m :: ?l)) with (m ++ render g l).
      change (render ?g (Match m :: ?l)) with (m ++ render g l).
      by rewrite Hr.
Qed.

Lemma replace_fn_removal (Q : str -> Prop)
    (fn : nat -> str -> option (nat * str)) r n s :
  (forall k block,
      exists b : bool,
        fn k block = Some (if b then (S k, []) else (k, block))
        /\ (b = true -> Q block)) ->
  exists st', replace_fn false r fn n s = Some st' /\ removal Q (n, s) st'.
Proof.
  intros Hfn. unfold replace_fn.
  destruct (replace_pieces_removal Q fn n (segments false r s) Hfn)
    as (ps' & E & Hr & Hm).
  eexists. split; [exact E|].
  unfold segments in Hr. rewrite segments_concat in Hr. rewrite <- Hr.
  constructor; [done|constructor].
Qed.

(** The pattern of a [fieldItem] of the field, with or without
    [Record.] before the name. *)
Lemma RegExp_fieldItem pre name :
  RegExp (lit "<fieldItem>" ++ flat_map escape_unit pre
            ++ FlexiPageCleaner.escapeRegex name ++ lit "</fieldItem>")
  = Some (lits (element (lit "fieldItem") (pre ++ name)) Empty).
Proof.
  change (FlexiPageCleaner.escapeRegex name) with (escapeRegex name).
  rewrite <- RegExp_escapeRegex. f_equal. unfold element.
  rewrite !escapeRegex_app, !(escapeRegex_plain (lit _)) by done.
  by rewrite (escapeRegex_flat_map pre), <- !app_assoc.
Qed.

Lemma RegExp_fieldItem_name name :
  RegExp (lit "<fieldItem>" ++ FlexiPageCleaner.escapeRegex name
            ++ lit "</fieldItem>")
  = Some (lits (element (lit "fieldItem") name) Empty).
Proof. exact (RegExp_fieldItem [] name). Qed.

Lemma fieldItem_callback_cases fieldName fullFieldRef k block :
  exists b : bool,
    FlexiPageCleaner.fieldItem_callback fieldName fullFieldRef k block
    = Some (if b then (S k, []) else (k, block))
    /\ (b = true -> flexi_block fieldName fullFieldRef block).
Proof.
  unfold FlexiPageCleaner.fieldItem_callback.
  change (lit "<fieldItem>Record\." ++ ?x)
    with (lit "<fieldItem>" ++ flat_map escape_unit (lit "Record.") ++ x).
  rewrite (RegExp_fieldItem (lit "Record.")).
  rewrite !RegExp_fieldItem_name.
  cbn [mbind option_bind app]. rewrite !test_lits.
  match goal with |- context [if ?c then _ else _] => set (hit := c) end.
  exists hit. split; [by destruct hit|]. unfold hit.
  intros H. left. apply orb_true_iff in H as [H|H];
    [apply orb_true_iff in H as [H|H]|].
  - exists (lit "Record." ++ fieldName). split; [by left|done].
  - exists fieldName. split; [right; by left|done].
  - exists fullFieldRef. split; [right; right; by left|done].
Qed.

(** The pattern of the property [fieldName] with the field as a value. *)
Lemma RegExp_fieldName_value pre name :
  RegExp (lit "<n>fieldName</n>[\s\S]*?<value>" ++ flat_map escape_unit pre
            ++ FlexiPageCleaner.escapeRegex name ++ lit "</value>")
  = Some (tokens_regex [TLit (lit "<n>fieldName</n>"); TLazy;
                        TLit (element (lit "value") (pre ++ name))]).
Proof.
  change (FlexiPageCleaner.escapeRegex name) with (escapeRegex name).
  rewrite <- RegExp_tokens.
  - f_equal. unfold tokens_text. cbn [map concat token_text].
    unfold element. rewrite <- !escapeRegex_flat_map.
    rewrite !escapeRegex_app, !(escapeRegex_plain (lit _)) by done.
    rewrite <- !app_assoc, !app_nil_r. reflexivity.
  - unfold tokens_text. cbn [map concat token_text].
    rewrite length_app. simpl. lia.
Qed.

Lemma RegExp_fieldName_value_name name :
  RegExp (lit "<n>fieldName</n>[\s\S]*?<value>"
            ++ FlexiPageCleaner.escapeRegex name ++ lit "</value>")
  = Some (tokens_regex [TLit (lit "<n>fieldName</n>"); TLazy;
                        TLit (element (lit "value") name)]).
Proof. exact (RegExp_fieldName_value [] name). Qed.

Lemma test_fieldName_value v block :
  test false (tokens_regex [TLit (lit "<n>fieldName</n>"); TLazy;
                            TLit (element (lit "value") v)]) block = true ->
  exists a x b,
    block = a ++ lit "<n>fieldName</n>" ++ x ++ element (lit "value") v ++ b.
Proof.
  intros H. apply test_lang in H as (a & m & b & -> & Hm).
  apply lang_tokens in Hm as (parts & -> & Hp).
  apply Forall2_cons_inv_l in Hp as (p1 & parts1 & H1 & Hp & ->).
  apply Forall2_cons_inv_l in Hp as (p2 & parts2 & _ & Hp & ->).
  apply Forall2_cons_inv_l in Hp as (p3 & parts3 & H3 & Hp & ->).
  apply Forall2_nil_inv_l in Hp as ->.
  cbn [token_reads] in H1, H3. subst p1 p3. cbn [concat].
  exists a, p2, b. by rewrite <- !app_assoc.
Qed.

Lemma property_callback_cases fieldName fullFieldRef k block :
  exists b : bool,
    FlexiPageCleaner.property_callback fieldName fullFieldRef k block
    = Some (if b then (S k, []) else (k, block))
    /\ (b = true -> flexi_block fieldName fullFieldRef block).
Proof.
  unfold FlexiPageCleaner.property_callback.
  destruct (includes (lit "<n>visibilityRule</n>") block) eqn:E1;
    [by exists false|].
  destruct (includes (lit "<n>criteria</n>") block) eqn:E2;
    [by exists false|].
  destruct (includes (lit "<n>filter</n>") block) eqn:E3;
    [by exists false|].
  cbn [orb].
  change (lit "<n>fieldName</n>[\s\S]*?<value>Record\." ++ ?x)
    with (lit "<n>fieldName</n>[\s\S]*?<value>"
            ++ flat_map escape_unit (lit "Record.") ++ x).
  rewrite (RegExp_fieldName_value (lit "Record.")).
  rewrite !RegExp_fieldName_value_name.
  cbn [mbind option_bind app].
  match goal with |- context [if ?c then _ else _] => set (hit := c) end.
  exists hit. split; [by destruct hit|]. unfold hit.
  intros H. right. do 3 (split; [done|]).
  apply orb_true_iff in H as [H|H];
    [apply orb_true_iff in H as [H|H]|];
    apply test_fieldName_value in H as (a & x & b & ->).
  - exists fieldName, a, x, b. split; [right; by left|done].
  - exists fullFieldRef, a, x, b. split; [right; right; by left|done].
  - exists (lit "Record." ++ fieldName), a, x, b. split; [by left|done].
Qed.

(** Every removable block holds the name it is removed for. *)
Lemma flexi_block_includes fieldName fullFieldRef m :
  flexi_block fieldName fullFieldRef m ->
  exists I, In I [fieldName; fullFieldRef] /\ includes I m = true.
Proof.
  assert (forall v x y, In v (spellings fieldName fullFieldRef) ->
            exists I, In I [fieldName; fullFieldRef]
                      /\ includes I (x ++ v ++ y) = true) as Hv.
  { intros v x y [<-|[<-|[<-|[]]]].
    - exists fieldName. split; [by left|]. apply includes_spec.
      exists (x ++ lit "Record."), y. by rewrite <- !app_assoc.
    - exists fieldName. split; [by left|]. apply includes_spec. by exists x, y.
    - exists fullFieldRef. split; [right; by left|]. apply includes_spec.
      by exists x, y. }
  intros [(v & Hin & Hi)|(_ & _ & _ & v & a & x & b & Hin & ->)].
  - apply includes_spec in Hi as (a & b & ->). unfold element.
    destruct (Hv v (a ++ lit "<" ++ lit "fieldItem" ++ lit ">")
                 (lit "</" ++ lit "fieldItem" ++ lit ">" ++ b) Hin)
      as (I & HI & Hi).
    exists I. split; [done|]. by rewrite <- !app_assoc in *.
  - unfold element.
    destruct (Hv v (a ++ lit "<n>fieldName</n>" ++ x ++ lit "<" ++ lit "value"
                      ++ lit ">")
                 (lit "</" ++ lit "value" ++ lit ">" ++ b) Hin)
      as (I & HI & Hi).
    exists I. split; [done|]. by rewrite <- !app_assoc in *.
Qed.

(** X21.  The three block removals the FlexiPage cleaner runs for a field
    never throw, whatever the name.  Each is a pass that takes out and
    counts blocks of two kinds only and keeps the rest of the text: a block
    that holds a [fieldItem] of the field, spelled [Record.Name], [Name]
    or [Object.Name], and a block that holds the property [fieldName] with
    the field as a [value] after it and none of the marks
    [<n>visibilityRule</n>], [<n>criteria</n>], [<n>filter</n>].  A text
    that holds neither the name nor the full reference comes back as it is,
    with the same count. *)
Theorem flexi_remove_field_blocks (fieldName fullFieldRef : str) :
  (forall st,
      exists st',
        FlexiPageCleaner.remove_field fieldName fullFieldRef st = Some st'
        /\ removal (flexi_block fieldName fullFieldRef) st st')
  /\ (forall n content,
         includes fieldName content = false ->
         includes fullFieldRef content = false ->
         FlexiPageCleaner.remove_field fieldName fullFieldRef (n, content)
         = Some (n, content)).
Proof.
  assert (forall st,
      exists st',
        FlexiPageCleaner.remove_field fieldName fullFieldRef st = Some st'
        /\ removal (flexi_block fieldName fullFieldRef) st st') as H.
  { intros [n s]. unfold FlexiPageCleaner.remove_field. cbn [fst snd].
    destruct (replace_fn_removal (flexi_block fieldName fullFieldRef)
                (FlexiPageCleaner.fieldItem_callback fieldName fullFieldRef)
                (regex_literal "<itemInstances>[\s\S]*?<\/itemInstances>")
                n s (fieldItem_callback_cases _ _))
      as ([n1 s1] & -> & R1).
    cbn [mbind option_bind fst snd].
    destruct (replace_fn_removal (flexi_block fieldName fullFieldRef)
                (FlexiPageCleaner.fieldItem_callback fieldName fullFieldRef)
                (regex_literal "<fieldInstance>[\s\S]*?<\/fieldInstance>")
                n1 s1 (fieldItem_callback_cases _ _))
      as ([n2 s2] & -> & R2).
    cbn [mbind option_bind fst snd].
    destruct (replace_fn_removal (flexi_block fieldName fullFieldRef)
                (FlexiPageCleaner.property_callback fieldName fullFieldRef)
                (regex_literal "<componentInstanceProperties>[\s\S]*?<\/componentInstanceProperties>")
                n2 s2 (property_callback_cases _ _))
      as (st3 & -> & R3).
    exists st3. split; [done|].
    eapply removal_trans; [exact R1|].
    eapply removal_trans; [exact R2|exact R3]. }
  split; [exact H|].
  intros n content H1 H2. destruct (H (n, content)) as (st' & -> & Hr).
  f_equal.
  apply (removal_without _ [fieldName; fullFieldRef]) in Hr; [done| |].
  - apply flexi_block_includes.
  - intros I [<-|[<-|[]]]; done.
Qed.

End FlexiBlocks.

(** ** What the pass over profiles and permission sets reports *)

Section Report.

Lemma createBackup_rest {C} filePath (w : World C) :
  globalState (snd (createBackup filePath w)) = globalState w
  /\ config (snd (createBackup filePath w)) = config w
  /\ workspaceFolder (snd (createBackup filePath w)) = workspaceFolder w.
Proof.
  unfold createBackup.
  destruct (workspaceFolder w) as [ws|] eqn:Hws; [|done].
  set (w1 := set_backupFolder (configured_backupFolder w) w).
  destruct (ensure_directory _ w1) as [w2|] eqn:Hd; cbn [fst snd];
    [|by rewrite <- Hws].
  apply ensure_directory_same in Hd as ->.
  destruct (copyFileSync filePath _ w1) as [w3|] eqn:Hc; cbn [fst snd];
    [|by rewrite <- Hws].
  apply copyFileSync_Some in Hc as (n & Hn & ->).
  destruct (storeBackupMapping_rest filePath
              (path_join [path_join [ws; backupFolder w1; replace_all false
                 (regex_literal "[:.]") (lit "-") (clock w1)];
                 asRelativePath ws filePath])
              (set_files (<[path_join [path_join [ws; backupFolder w1;
                 replace_all false (regex_literal "[:.]") (lit "-") (clock w1)];
                 asRelativePath ws filePath] := n]> (files w1)) w1))
    as (-> & -> & ->).
  by rewrite <- Hws.
Qed.

Lemma processFile_rest fieldsToRemove filePath w :
  globalState (snd (processFile fieldsToRemove filePath w)) = globalState w
  /\ config (snd (processFile fieldsToRemove filePath w)) = config w.
Proof.
  unfold processFile. destruct (readFileSync filePath w) as [c|]; [|done].
  destruct (negb _); [done|].
  assert (globalState (if cfg_createBackup (config w)
                       then snd (createBackup filePath w) else w)
          = globalState w
          /\ config (if cfg_createBackup (config w)
                     then snd (createBackup filePath w) else w)
             = config w) as [Hg Hc].
  { destruct (cfg_createBackup (config w)); [|done].
    by destruct (createBackup_rest filePath w) as (-> & -> & _). }
  destruct (processFile_fields fieldsToRemove (0, c)) as [[n content]|];
    cbn [snd]; [|done].
  by case_bool_decide.
Qed.

(** X22.  The report of [processPermissionSetsAndProfiles] is consistent:
    the files it lists are files that were found, in the order in which
    they were found, [filesModified] counts them, each of them adds at
    least one to [removed], and where [removed] has not grown no file is
    listed.  The pass leaves the history and the settings alone. *)
Theorem processPermissionSetsAndProfiles_report
    (fieldsToRemove found : list str) (t : Totals) (w : World str) :
  exists listed,
    sublist listed found
    /\ modifiedFiles (fst (processPermissionSetsAndProfiles
                            fieldsToRemove found t w))
       = modifiedFiles t ++ listed
    /\ filesModified (fst (processPermissionSetsAndProfiles
                            fieldsToRemove found t w))
       = filesModified t + length listed
    /\ removed t + length listed
       <= removed (fst (processPermissionSetsAndProfiles
                          fieldsToRemove found t w))
    /\ (removed (fst (processPermissionSetsAndProfiles
                        fieldsToRemove found t w)) = removed t ->
        listed = [])
    /\ globalState (snd (processPermissionSetsAndProfiles
                           fieldsToRemove found t w)) = globalState w
    /\ config (snd (processPermissionSetsAndProfiles
                      fieldsToRemove found t w)) = config w.
Proof.
  revert t w. induction found as [|file found IH]; intros t w.
  - exists []. cbn [processPermissionSetsAndProfiles fst snd length].
    rewrite app_nil_r, !Nat.add_0_r. by repeat split; [constructor|..].
  - cbn [processPermissionSetsAndProfiles].
    destruct (processFile_rest fieldsToRemove file w) as [Hg Hc].
    destruct (processFile fieldsToRemove file w) as [n w1]. cbn [snd] in Hg, Hc.
    destruct (0 <? n) eqn:En.
    + apply Nat.ltb_lt in En.
      destruct (IH {| removed := removed t + n;
                      filesModified := S (filesModified t);
                      modifiedFiles := modifiedFiles t ++ [file] |} w1)
        as (listed & Hs & Hm & Hf & Hr & _ & Hg' & Hc').
      cbn [removed filesModified modifiedFiles] in Hm, Hf, Hr.
      exists (file :: listed). rewrite Hm, Hf, Hg', Hc', Hg, Hc.
      rewrite <- app_assoc. cbn [length app].
      split; [by constructor|]. split; [done|]. split; [lia|].
      split; [lia|]. split; [lia|done].
    + destruct (IH t w1) as (listed & Hs & Hm & Hf & Hr & Hz & Hg' & Hc').
      exists listed. rewrite Hm, Hf, Hg', Hc', Hg, Hc.
      split; [by constructor|]. done.
Qed.

End Report.
